(** * NeDB document model, comparator, matcher, update engine and storage

    A shallow embedding of [lib/model.js] (documents, serialization, copying,
    comparison, querying, updating) and of the datafile recovery of
    [lib/storage.js].

    Conventions of the embedding.
    - A JavaScript value of the document universe is a [value]: numbers are
      integers ([Z]; [NaN], infinities and fractions are not represented, and
      arithmetic is exact, as it is on safe integers), strings are sequences
      of code units below 256 ([string]), a date is a valid date, given by
      its epoch in milliseconds, an object is the list of its own enumerable
      properties in enumeration order. Functions, regular-expression objects
      and inherited (prototype) properties are outside the universe; so is
      the assignment to [__proto__], which sets a prototype: theorems about
      copies and updates take objects without an own property of that name.
      Every theorem about [value]s is a statement about these values only;
      serialization is also given on [wide] values, which add [NaN], the
      infinities and the invalid date.
    - A function that can throw returns a [result]; [OutOfFuel] only appears
      in definitions that take a recursion budget, and [NotModelled] marks
      the places where the behaviour is decided by a built-in of the
      language that the embedding leaves out (string-to-number coercion,
      the regular-expression engine, code built from strings).
    - Mutation is explicit state passing: the pure part of the file returns
      the updated value, the last part threads a heap of objects so that
      sharing between a document and its copy is visible. *)

From Stdlib Require Import ZArith List String Ascii Bool Lia DecimalString.
From Stdlib Require DecimalNat.
From stdpp Require Import base option list gmap strings.

Import ListNotations.
Set Warnings "-register-all".
Local Open Scope string_scope.
Local Open Scope Z_scope.

(** ** Values and outcomes *)

Inductive value : Type :=
| VUndefined
| VNull
| VBool (b : bool)
| VNum (n : Z)
| VStr (s : string)
| VDate (t : Z)
| VArr (l : list value)
| VObj (kvs : list (string * value)).

Inductive error : Type :=
| Error (msg : string)
| TypeError (msg : string)
| AssertionError (msg : string).

Inductive result (A : Type) : Type :=
| Ok (a : A)
| Throw (e : error)
| OutOfFuel
| NotModelled.

Arguments Ok {A} a.
Arguments Throw {A} e.
Arguments OutOfFuel {A}.
Arguments NotModelled {A}.

#[global] Instance result_ret : MRet result := fun A a => Ok a.
#[global] Instance result_bind : MBind result := fun A B f m =>
  match m with
  | Ok a => f a
  | Throw e => Throw e
  | OutOfFuel => OutOfFuel
  | NotModelled => NotModelled
  end.

#[global] Instance result_fmap : FMap result := fun A B f m =>
  match m with
  | Ok a => Ok (f a)
  | Throw e => Throw e
  | OutOfFuel => OutOfFuel
  | NotModelled => NotModelled
  end.

Definition throws {A} (r : result A) : Prop := exists e, r = Throw e.

Definition is_throw {A} (r : result A) : bool :=
  match r with Throw _ => true | _ => false end.

(** Induction over values that reaches inside arrays and objects. *)
Section value_induction.
Variable P : value -> Prop.
Hypothesis Hundef : P VUndefined.
Hypothesis Hnull : P VNull.
Hypothesis Hbool : forall b, P (VBool b).
Hypothesis Hnum : forall n, P (VNum n).
Hypothesis Hstr : forall s, P (VStr s).
Hypothesis Hdate : forall t, P (VDate t).
Hypothesis Harr : forall l, Forall P l -> P (VArr l).
Hypothesis Hobj : forall kvs, Forall (fun kv => P (snd kv)) kvs -> P (VObj kvs).

Fixpoint value_nested_ind (v : value) : P v :=
  match v with
  | VUndefined => Hundef
  | VNull => Hnull
  | VBool b => Hbool b
  | VNum n => Hnum n
  | VStr s => Hstr s
  | VDate t => Hdate t
  | VArr l =>
      Harr l ((fix go (l : list value) : Forall P l :=
                 match l with
                 | [] => List.Forall_nil P
                 | x :: r => @List.Forall_cons _ P x r (value_nested_ind x) (go r)
                 end) l)
  | VObj kvs =>
      Hobj kvs ((fix go (kvs : list (string * value))
                   : Forall (fun kv => P (snd kv)) kvs :=
                   match kvs with
                   | [] => List.Forall_nil _
                   | kv :: r =>
                       @List.Forall_cons _ _ kv r (value_nested_ind (snd kv)) (go r)
                   end) kvs)
  end.
End value_induction.

(** ** JavaScript primitives used by the code *)

(** [typeof v]. *)
Inductive jstype : Type :=
  TUndefined | TObject | TBoolean | TNumber | TString.

Definition typeof (v : value) : jstype :=
  match v with
  | VUndefined => TUndefined
  | VNull | VDate _ | VArr _ | VObj _ => TObject
  | VBool _ => TBoolean
  | VNum _ => TNumber
  | VStr _ => TString
  end.

Definition jstype_eqb (a b : jstype) : bool :=
  match a, b with
  | TUndefined, TUndefined | TObject, TObject | TBoolean, TBoolean
  | TNumber, TNumber | TString, TString => true
  | _, _ => false
  end.

(** Truthiness: [!v] is [negb (truthy v)]. *)
Definition truthy (v : value) : bool :=
  match v with
  | VUndefined | VNull => false
  | VBool b => b
  | VNum n => negb (n =? 0)
  | VStr s => negb (s =? "")%string
  | VDate _ | VArr _ | VObj _ => true
  end.

(** [Array.isArray]. *)
Definition isArray (v : value) : bool :=
  match v with VArr _ => true | _ => false end.

(** [k[0] === '$']. *)
Definition firstCharIsDollar (k : string) : bool :=
  match k with
  | String c _ => Ascii.eqb c "$"%char
  | EmptyString => false
  end.

(** [k.indexOf('.') !== -1]. *)
Fixpoint containsDot (k : string) : bool :=
  match k with
  | EmptyString => false
  | String c r => Ascii.eqb c "."%char || containsDot r
  end.

(** Own-property lookup in an object's property list. *)
Fixpoint assoc {A} (k : string) (kvs : list (string * A)) : option A :=
  match kvs with
  | [] => None
  | (k', v) :: r => if (k' =? k)%string then Some v else assoc k r
  end.

(** ** [lib/utils.js] *)

Definition isDate (d : value) : bool :=
  match d with VDate _ => true | _ => false end.

(** No regular-expression object exists in the value universe. *)
Definition isRegExp (re : value) : bool := false.

Definition isPrimitiveType (obj : value) : bool :=
  match obj with
  | VBool _ | VNum _ | VStr _ | VNull | VDate _ | VArr _ => true
  | VUndefined | VObj _ => false
  end.

(** ** Key validation: [checkKey] and [checkObject] *)

Definition isNumber (v : value) : bool :=
  match v with VNum _ => true | _ => false end.

Definition isTrue (v : value) : bool :=
  match v with VBool true => true | _ => false end.

(** The first test of [checkKey]: a leading [$] that is not one of the
    admitted forms. *)
Definition dollarRejected (k : string) (v : value) : bool :=
  firstCharIsDollar k
  && negb ((k =? "$$date")%string && isNumber v)
  && negb ((k =? "$$deleted")%string && isTrue v)
  && negb (k =? "$$indexCreated")%string
  && negb (k =? "$$indexRemoved")%string
  && negb (k =? "$numberDecimal")%string.

Definition checkKey (k : string) (v : value) : result unit :=
  if dollarRejected k v
  then Throw (Error "Field names cannot begin with the $ character")
  else if containsDot k
  then Throw (Error "Field names cannot contain a .")
  else Ok tt.

Fixpoint checkObject (obj : value) : result unit :=
  match obj with
  | VArr l =>
      (fix each (l : list value) : result unit :=
         match l with
         | [] => Ok tt
         | o :: r => _ ← checkObject o; each r
         end) l
  | VObj kvs =>
      (fix each (kvs : list (string * value)) : result unit :=
         match kvs with
         | [] => Ok tt
         | (k, v) :: r => _ ← checkKey k v; _ ← checkObject v; each r
         end) kvs
  | _ => Ok tt
  end.

(** ** Property access and relational operators *)

(** The array index a property name denotes: a canonical decimal numeral. *)
Definition indexOfKey (k : string) : option nat :=
  match NilZero.uint_of_string k with
  | Some d =>
      let i := Nat.of_uint d in
      if (NilZero.string_of_uint (Nat.to_uint i) =? k)%string
      then Some i else None
  | None => None
  end.

Definition keyOfIndex (i : nat) : string :=
  NilZero.string_of_uint (Nat.to_uint i).

Definition lengthZ {A} (l : list A) : Z := Z.of_nat (length l).

(** [v[k]] for a name [k] supplied by a document or a query: own properties
    only (the elements and the length of an array, the characters and the
    length of a string, the properties of an object). *)
Definition getProp (v : value) (k : string) : value :=
  match v with
  | VObj kvs => default VUndefined (assoc k kvs)
  | VArr l =>
      if (k =? "length")%string then VNum (lengthZ l)
      else match indexOfKey k with
           | Some i => nth i l VUndefined
           | None => VUndefined
           end
  | VStr s =>
      if (k =? "length")%string then VNum (Z.of_nat (String.length s))
      else match indexOfKey k with
           | Some i => match String.get i s with
                       | Some c => VStr (String c EmptyString)
                       | None => VUndefined
                       end
           | None => VUndefined
           end
  | _ => VUndefined
  end.

(** [Object.keys] of an object or an array. *)
Definition objectKeys (v : value) : list string :=
  match v with
  | VObj kvs => map fst kvs
  | VArr l => map keyOfIndex (seq 0 (length l))
  | VStr s => map keyOfIndex (seq 0 (String.length s))
  | _ => []
  end.

(** [ToNumber] of an operand of [<] and [>]; [None] is [NaN]. *)
Definition toNumberForCompare (v : value) : result (option Z) :=
  match v with
  | VUndefined => Ok None
  | VNull => Ok (Some 0)
  | VBool b => Ok (Some (if b then 1 else 0))
  | VNum n => Ok (Some n)
  | VDate t => Ok (Some t)
  | VStr _ | VArr _ | VObj _ => NotModelled
  end.

(** The abstract relational comparison; [None] when an operand is [NaN]. *)
Definition relational (a b : value) : result (option comparison) :=
  match a, b with
  | VStr x, VStr y => Ok (Some (String.compare x y))
  | _, _ =>
      x ← toNumberForCompare a;
      y ← toNumberForCompare b;
      Ok (match x, y with
          | Some x, Some y => Some (x ?= y)
          | _, _ => None
          end)
  end.

Definition jsLt (a b : value) : result bool :=
  c ← relational a b;
  Ok (match c with Some Lt => true | _ => false end).

Definition jsGt (a b : value) : result bool :=
  c ← relational a b;
  Ok (match c with Some Gt => true | _ => false end).

Definition jsLte (a b : value) : result bool :=
  c ← relational a b;
  Ok (match c with Some Lt | Some Eq => true | _ => false end).

Definition jsGte (a b : value) : result bool :=
  c ← relational a b;
  Ok (match c with Some Gt | Some Eq => true | _ => false end).

(** [a === b] where at least one operand is a primitive. *)
Definition strictEqPrim (a b : value) : bool :=
  match a, b with
  | VUndefined, VUndefined | VNull, VNull => true
  | VBool x, VBool y => Bool.eqb x y
  | VNum x, VNum y => x =? y
  | VStr x, VStr y => (x =? y)%string
  | _, _ => false
  end.

(** ** [lib/customUtils.js]: [isMongoId] *)

Definition upper (c : ascii) : ascii :=
  let n := nat_of_ascii c in
  if ((97 <=? n) && (n <=? 122))%nat then ascii_of_nat (n - 32) else c.

Fixpoint toUpperCase (s : string) : string :=
  match s with
  | EmptyString => EmptyString
  | String c r => String (upper c) (toUpperCase r)
  end.

(** [typeof input === 'object' && input.constructor &&
     input.constructor.name.toUpperCase() === 'OBJECTID']. An object
    without an own [constructor] property inherits one named [Object],
    [Array] or [Date]. *)
Definition isMongoId (input : value) : result bool :=
  match input with
  | VNull =>
      Throw (TypeError "Cannot read properties of null (reading 'constructor')")
  | VObj kvs =>
      match assoc "constructor" kvs with
      | None => Ok false
      | Some c =>
          if truthy c then
            match c with
            | VObj ckvs =>
                match assoc "name" ckvs with
                | Some (VStr s) => Ok (toUpperCase s =? "OBJECTID")%string
                | Some (VUndefined | VNull) | None =>
                    Throw (TypeError "Cannot read properties of undefined (reading 'toUpperCase')")
                | Some _ =>
                    Throw (TypeError "input.constructor.name.toUpperCase is not a function")
                end
            | _ =>
                Throw (TypeError "Cannot read properties of undefined (reading 'toUpperCase')")
            end
          else Ok false
      end
  | _ => Ok false
  end.

(** [if (isMongoId(a)) a = a.toString()]. *)
Definition mongoIdToString (a : value) : result value :=
  isId ← isMongoId a;
  if isId : bool then
    match a with
    | VObj kvs =>
        match assoc "toString" kvs with
        | None => Ok (VStr "[object Object]")
        | Some _ => Throw (TypeError "a.toString is not a function")
        end
    | _ => Ok a
    end
  else Ok a.

(** ** The comparator: [compareNSB], [compareArrays], [compareThings] *)

Definition compareNSB (a b : value) : result Z :=
  lt ← jsLt a b;
  if lt : bool then Ok (-1)
  else gt ← jsGt a b; if gt : bool then Ok 1 else Ok 0.

Fixpoint insertKey (k : string) (l : list string) : list string :=
  match l with
  | [] => [k]
  | x :: r => if String.leb k x then k :: l else x :: insertKey k r
  end.

(** [keys.sort()] with the default comparator. *)
Definition sortKeys (l : list string) : list string :=
  fold_right insertKey [] l.

Definition compareArrays (rec : value -> value -> result Z)
    (a b : list value) : result Z :=
  (fix loop (xs ys : list value) : result Z :=
     match xs, ys with
     | x :: xs', y :: ys' =>
         comp ← rec x y;
         if comp =? 0 then loop xs' ys' else Ok comp
     | _, _ => compareNSB (VNum (lengthZ a)) (VNum (lengthZ b))
     end) a b.

Definition compareStringsWith (_compareStrings : option (string -> string -> Z))
    (a b : string) : result Z :=
  match _compareStrings with
  | Some f => Ok (f a b)
  | None => compareNSB (VStr a) (VStr b)
  end.

(** One unfolding of [compareThings]; [rec] stands for the recursive calls,
    which pass no string comparator. *)
Definition compareThings_body (rec : value -> value -> result Z)
    (a b : value) (_compareStrings : option (string -> string -> Z))
  : result Z :=
  a ← mongoIdToString a;
  b ← mongoIdToString b;
  match a, b with
  | VUndefined, VUndefined => Ok 0
  | VUndefined, _ => Ok (-1)
  | _, VUndefined => Ok 1
  | VNull, VNull => Ok 0
  | VNull, _ => Ok (-1)
  | _, VNull => Ok 1
  | VNum _, VNum _ => compareNSB a b
  | VNum _, _ => Ok (-1)
  | _, VNum _ => Ok 1
  | VStr x, VStr y => compareStringsWith _compareStrings x y
  | VStr _, _ => Ok (-1)
  | _, VStr _ => Ok 1
  | VBool _, VBool _ => compareNSB a b
  | VBool _, _ => Ok (-1)
  | _, VBool _ => Ok 1
  | VDate x, VDate y => compareNSB (VNum x) (VNum y)
  | VDate _, _ => Ok (-1)
  | _, VDate _ => Ok 1
  | VArr x, VArr y => compareArrays rec x y
  | VArr _, _ => Ok (-1)
  | _, VArr _ => Ok 1
  | VObj _, VObj _ =>
      let aKeys := sortKeys (objectKeys a) in
      let bKeys := sortKeys (objectKeys b) in
      (fix loop (aks bks : list string) : result Z :=
         match aks, bks with
         | ak :: aks', bk :: bks' =>
             comp ← rec (getProp a ak) (getProp b bk);
             if comp =? 0 then loop aks' bks' else Ok comp
         | _, _ => compareNSB (VNum (lengthZ aKeys)) (VNum (lengthZ bKeys))
         end) aKeys bKeys
  end.

Fixpoint compareThings_fuel (fuel : nat) (a b : value)
    (_compareStrings : option (string -> string -> Z)) : result Z :=
  match fuel with
  | O => OutOfFuel
  | S fuel' =>
      compareThings_body (fun x y => compareThings_fuel fuel' x y None)
        a b _compareStrings
  end.

(** Nesting depth of a value: the recursion budget it needs. *)
Fixpoint depth (v : value) : nat :=
  match v with
  | VArr l => S (list_max (map depth l))
  | VObj kvs => S (list_max (map (fun kv => depth (snd kv)) kvs))
  | _ => O
  end.

Definition compareThings (a b : value)
    (_compareStrings : option (string -> string -> Z)) : result Z :=
  compareThings_fuel (S (depth a)) a b _compareStrings.

(** ** Deep equality: [areThingsEqual] *)

Definition isUndefined (v : value) : bool :=
  match v with VUndefined => true | _ => false end.

Definition isString (v : value) : bool :=
  match v with VStr _ => true | _ => false end.

(** [v === null || typeof v === 'string' || typeof v === 'boolean' ||
     typeof v === 'number']. *)
Definition isNullOrSBN (v : value) : bool :=
  match v with
  | VNull | VStr _ | VBool _ | VNum _ => true
  | _ => false
  end.

Definition areThingsEqual_body (rec : value -> value -> result bool)
    (a b : value) : result bool :=
  a ← mongoIdToString a;
  b ← mongoIdToString b;
  if isNullOrSBN a || isNullOrSBN b then Ok (strictEqPrim a b)
  else if isDate a || isDate b then
    Ok (match a, b with
        | VDate x, VDate y => x =? y
        | _, _ => false
        end)
  else if (negb (isArray a && isArray b) && (isArray a || isArray b))
          || isUndefined a || isUndefined b
  then Ok false
  else
    let aKeys := objectKeys a in
    let bKeys := objectKeys b in
    if negb (length aKeys =? length bKeys)%nat then Ok false
    else
      (fix loop (ks : list string) : result bool :=
         match ks with
         | [] => Ok true
         | el :: ks' =>
             if negb (existsb (String.eqb el) bKeys) then Ok false
             else
               eq ← rec (getProp a el) (getProp b el);
               if eq : bool then loop ks' else Ok false
         end) aKeys.

Fixpoint areThingsEqual_fuel (fuel : nat) (a b : value) : result bool :=
  match fuel with
  | O => OutOfFuel
  | S fuel' => areThingsEqual_body (areThingsEqual_fuel fuel') a b
  end.

Definition areThingsEqual (a b : value) : result bool :=
  areThingsEqual_fuel (S (depth a)) a b.

(** ** Dotted paths: [getDotValue] *)

(** [field.split('.')]. *)
Fixpoint splitDot (s : string) : list string :=
  match s with
  | EmptyString => [EmptyString]
  | String c r =>
      if Ascii.eqb c "."%char then EmptyString :: splitDot r
      else match splitDot r with
           | [] => [String c EmptyString]
           | h :: t => String c h :: t
           end
  end.

(** [parts.join('.')]. *)
Definition joinDot (parts : list string) : string := String.concat "." parts.

(** The white space [parseInt] skips, among the code units below 256: tab,
    line feed, vertical tab, form feed, carriage return, space and
    no-break space. *)
Definition isWhiteSpace (c : ascii) : bool :=
  let n := nat_of_ascii c in
  ((n =? 9) || (n =? 10) || (n =? 11) || (n =? 12) || (n =? 13) || (n =? 32)
   || (n =? 160))%nat.

Fixpoint trimStart (s : string) : string :=
  match s with
  | String c r => if isWhiteSpace c then trimStart r else s
  | EmptyString => s
  end.

Definition digitOf (c : ascii) : option Z :=
  let n := nat_of_ascii c in
  if ((48 <=? n) && (n <=? 57))%nat then Some (Z.of_nat (n - 48)) else None.

(** The value of the longest prefix of decimal digits; [acc] is the value
    read so far, [None] before the first digit. *)
Fixpoint digitsPrefix (s : string) (acc : option Z) : option Z :=
  match s with
  | String c r =>
      match digitOf c with
      | Some d => digitsPrefix r (Some (10 * default 0 acc + d))
      | None => acc
      end
  | EmptyString => acc
  end.

(** [parseInt(s, 10)]; [None] is [NaN]. *)
Definition parseInt10 (s : string) : option Z :=
  match trimStart s with
  | String c r =>
      if Ascii.eqb c "-"%char then Z.opp <$> digitsPrefix r None
      else if Ascii.eqb c "+"%char then digitsPrefix r None
      else digitsPrefix (String c r) None
  | EmptyString => None
  end.

Definition isDecimalDigit (c : ascii) : bool :=
  match digitOf c with Some _ => true | None => false end.

Definition isHexDigit (c : ascii) : bool :=
  let n := nat_of_ascii c in
  (((48 <=? n) && (n <=? 57)) || ((65 <=? n) && (n <=? 70))
   || ((97 <=? n) && (n <=? 102)))%nat.

(** [isNaN(parseInt(s))], with no radix given: after the white space and
    an optional sign, a prefix [0x] or [0X] selects radix 16, and the
    result is [NaN] when no digit of the radix comes first. *)
Definition parseIntIsNaN (s : string) : bool :=
  match trimStart s with
  | EmptyString => true
  | String c r =>
      let body :=
        if Ascii.eqb c "-"%char || Ascii.eqb c "+"%char then r
        else String c r in
      match body with
      | EmptyString => true
      | String z EmptyString => negb (isDecimalDigit z)
      | String z (String x r') =>
          if Ascii.eqb z "0"%char
             && (Ascii.eqb x "x"%char || Ascii.eqb x "X"%char)
          then match r' with
               | String h _ => negb (isHexDigit h)
               | EmptyString => true
               end
          else negb (isDecimalDigit z)
      end
  end.

(** [arr[i]] for a number [i]. *)
Definition arrayAt (l : list value) (i : Z) : value :=
  if i <? 0 then VUndefined else nth (Z.to_nat i) l VUndefined.

(** [getDotValue] on a field already split into its parts. *)
Fixpoint getDotValueParts (obj : value) (fieldParts : list string)
    {struct fieldParts} : value :=
  if negb (truthy obj) then VUndefined
  else
    match fieldParts with
    | [] => obj
    | [f] => getProp obj f
    | f :: ((k :: rest) as tl) =>
        match getProp obj f with
        | VArr l =>
            match parseInt10 k with
            | Some i => getDotValueParts (arrayAt l i) rest
            | None => VArr (map (fun el => getDotValueParts el tl) l)
            end
        | v => getDotValueParts v tl
        end
    end.

Definition getDotValue (obj : value) (field : string) : value :=
  getDotValueParts obj (splitDot field).

(** ** Comparison operators *)

Definition areComparable (a b : value) : bool :=
  if negb (isString a) && negb (isNumber a) && negb (isDate a)
     && negb (isString b) && negb (isNumber b) && negb (isDate b)
  then false
  else if negb (jstype_eqb (typeof a) (typeof b)) then false
  else true.

Definition comparisonFunctions_lt (a b : value) : result bool :=
  if areComparable a b then jsLt a b else Ok false.

Definition comparisonFunctions_lte (a b : value) : result bool :=
  if areComparable a b then jsLte a b else Ok false.

Definition comparisonFunctions_gt (a b : value) : result bool :=
  if areComparable a b then jsGt a b else Ok false.

Definition comparisonFunctions_gte (a b : value) : result bool :=
  if areComparable a b then jsGte a b else Ok false.

(** [l.some(f)] for a predicate that can throw. *)
Fixpoint someM {A} (f : A -> result bool) (l : list A) : result bool :=
  match l with
  | [] => Ok false
  | x :: r => b ← f x; if b : bool then Ok true else someM f r
  end.

Definition comparisonFunctions_ne (a b : value) : result bool :=
  match a with
  | VUndefined => Ok true
  | VArr l =>
      if negb (isArray b)
      then negb <$> someM (fun el => areThingsEqual el b) l
      else negb <$> areThingsEqual a b
  | _ => negb <$> areThingsEqual a b
  end.

Definition comparisonFunctions_eq (a b : value) : result bool :=
  areThingsEqual a b.

Definition comparisonFunctions_in (a b : value) : result bool :=
  match b with
  | VArr l => someM (fun el => areThingsEqual a el) l
  | _ => Throw (Error "$in operator called with a non-array")
  end.

Definition comparisonFunctions_nin (a b : value) : result bool :=
  match b with
  | VArr _ => negb <$> comparisonFunctions_in a b
  | _ => Throw (Error "$nin operator called with a non-array")
  end.

(** [$regex]: the pattern is compiled before the operand is looked at, so
    with a string pattern the outcome is the regular-expression engine's. *)
Definition comparisonFunctions_regex (a b : value) : result bool :=
  match b with
  | VStr _ => NotModelled
  | _ => Throw (Error "$regex operator called with non regular expression")
  end.

Definition comparisonFunctions_exists (v exists_ : value) : result bool :=
  let exists_ := truthy exists_ || strictEqPrim exists_ (VStr "") in
  match v with
  | VUndefined => Ok (negb exists_)
  | _ => Ok exists_
  end.

(** [value % 1 !== 0] followed by [obj.length === value]. *)
Definition comparisonFunctions_size (obj v : value) : result bool :=
  match obj with
  | VArr l =>
      match v with
      | VNum n => Ok (lengthZ l =? n)
      | VNull | VBool _ | VDate _ => Ok false
      | VUndefined => Throw (Error "$size operator called without an integer")
      | VStr _ | VArr _ | VObj _ => NotModelled
      end
  | _ => Ok false
  end.

Definition comparisonFunctions_elemMatch
    (matchRec : value -> value -> result bool) (obj v : value) : result bool :=
  match obj with
  | VArr l => someM (fun el => matchRec el v) l
  | _ => Ok false
  end.

(** The table [comparisonFunctions]. *)
Definition comparisonFunctions (matchRec : value -> value -> result bool)
    (key : string) : option (value -> value -> result bool) :=
  if (key =? "$lt")%string then Some comparisonFunctions_lt
  else if (key =? "$lte")%string then Some comparisonFunctions_lte
  else if (key =? "$gt")%string then Some comparisonFunctions_gt
  else if (key =? "$gte")%string then Some comparisonFunctions_gte
  else if (key =? "$ne")%string then Some comparisonFunctions_ne
  else if (key =? "$eq")%string then Some comparisonFunctions_eq
  else if (key =? "$in")%string then Some comparisonFunctions_in
  else if (key =? "$nin")%string then Some comparisonFunctions_nin
  else if (key =? "$regex")%string then Some comparisonFunctions_regex
  else if (key =? "$exists")%string then Some comparisonFunctions_exists
  else if (key =? "$size")%string then Some comparisonFunctions_size
  else if (key =? "$elemMatch")%string
  then Some (comparisonFunctions_elemMatch matchRec)
  else None.

(** Names every object inherits; [arrayComparisonFunctions[key]] is truthy
    for them as it is for the three operators the table holds. *)
Definition objectPrototypeNames : list string :=
  ["constructor"; "__defineGetter__"; "__defineSetter__"; "hasOwnProperty";
   "__lookupGetter__"; "__lookupSetter__"; "isPrototypeOf";
   "propertyIsEnumerable"; "toString"; "valueOf"; "__proto__";
   "toLocaleString"].

Definition arrayComparisonFunctions (key : string) : bool :=
  (key =? "$size")%string || (key =? "$elemMatch")%string
  || (key =? "$ne")%string || existsb (String.eqb key) objectPrototypeNames.

(** ** The matcher: [match] and [matchQueryPart] *)

(** [v.name] for a fixed property name read off a value that may be
    [null] or [undefined]. *)
Definition getField (v : value) (name : string) : result value :=
  match v with
  | VUndefined | VNull => Throw (TypeError "Cannot read properties of undefined")
  | _ => Ok (getProp v name)
  end.

(** [l.every(f)] with the early exit of the source's loops. *)
Fixpoint everyM {A} (f : A -> result bool) (l : list A) : result bool :=
  match l with
  | [] => Ok true
  | x :: r => b ← f x; if b : bool then everyM f r else Ok false
  end.

Definition logicalOperators_or (matchRec : value -> value -> result bool)
    (obj query : value) : result bool :=
  match query with
  | VArr l => someM (fun q => matchRec obj q) l
  | _ => Throw (Error "$or operator used without an array")
  end.

Definition logicalOperators_and (matchRec : value -> value -> result bool)
    (obj query : value) : result bool :=
  match query with
  | VArr l => everyM (fun q => matchRec obj q) l
  | _ => Throw (Error "$and operator used without an array")
  end.

Definition logicalOperators_not (matchRec : value -> value -> result bool)
    (obj query : value) : result bool :=
  negb <$> matchRec obj query.

(** [$where]: a string is compiled into a function; nothing else in the
    value universe is a function. *)
Definition logicalOperators_where (obj fn : value) : result bool :=
  match fn with
  | VStr _ => NotModelled
  | _ => Throw (Error "$where operator used without a function")
  end.

Definition logicalOperators (matchRec : value -> value -> result bool)
    (key : string) : option (value -> value -> result bool) :=
  if (key =? "$or")%string then Some (logicalOperators_or matchRec)
  else if (key =? "$and")%string then Some (logicalOperators_and matchRec)
  else if (key =? "$not")%string then Some (logicalOperators_not matchRec)
  else if (key =? "$where")%string then Some logicalOperators_where
  else None.

(** The own enumerable properties a [for ... in] loop visits. *)
Definition ownEntries (v : value) : list (string * value) :=
  match v with
  | VObj kvs => kvs
  | VArr l => map (fun i => (keyOfIndex i, nth i l VUndefined)) (seq 0 (length l))
  | VStr s => map (fun i => (keyOfIndex i, getProp v (keyOfIndex i)))
                (seq 0 (String.length s))
  | _ => []
  end.

(** [queryValue !== null && typeof queryValue === 'object'
     && !isRegExp(queryValue)]. *)
Definition isNonNullObject (v : value) : bool :=
  match v with
  | VDate _ | VArr _ | VObj _ => true
  | _ => false
  end.

Definition matchQueryPart_body
    (matchRec : value -> value -> result bool)
    (mqpRec : value -> string -> value -> bool -> result bool)
    (obj : value) (queryKey : string) (queryValue : value)
    (treatObjAsValue : bool) : result bool :=
  let objValue := getDotValue obj queryKey in
  let basic : result bool :=
    if isNonNullObject queryValue && negb (isArray queryValue) then
      if existsb (String.eqb "$regex") (objectKeys queryValue)
         && existsb (String.eqb "$options") (objectKeys queryValue)
      then NotModelled
      else
        let keys := objectKeys queryValue in
        let dollarFirstChars := List.filter firstCharIsDollar keys in
        if negb (length dollarFirstChars =? 0)%nat
           && negb (length dollarFirstChars =? length keys)%nat
        then Throw (Error "You cannot mix operators and normal fields")
        else if (0 <? length dollarFirstChars)%nat then
          everyM (fun key =>
                    match comparisonFunctions matchRec key with
                    | None => Throw (Error ("Unknown comparison function " ++ key))
                    | Some f => f objValue (getProp queryValue key)
                    end) keys
        else if isUndefined objValue && strictEqPrim queryValue VNull then Ok true
        else areThingsEqual objValue queryValue
    else if isUndefined objValue && strictEqPrim queryValue VNull then Ok true
    else areThingsEqual objValue queryValue in
  match objValue with
  | VArr elements =>
      if treatObjAsValue then basic
      else
        eqOp ← getField queryValue "$eq";
        if isArray queryValue || negb (isUndefined eqOp)
        then mqpRec obj queryKey queryValue true
        else if isNonNullObject queryValue
                && existsb (fun kv => arrayComparisonFunctions (fst kv))
                     (ownEntries queryValue)
        then mqpRec obj queryKey queryValue true
        else someM (fun el => mqpRec (VObj [("k", el)]) "k" queryValue false)
               elements
  | _ => basic
  end.

Definition match_body
    (matchRec : value -> value -> result bool)
    (mqpRec : value -> string -> value -> bool -> result bool)
    (obj query : value) : result bool :=
  viaKey ←
    (if isPrimitiveType obj || isPrimitiveType query then Ok true
     else idObj ← isMongoId obj;
          if idObj : bool then Ok true else isMongoId query);
  if viaKey : bool
  then mqpRec (VObj [("needAKey", obj)]) "needAKey" query false
  else
    everyM (fun kv : string * value =>
              let (queryKey, queryValue) := kv in
              if firstCharIsDollar queryKey then
                match logicalOperators matchRec queryKey with
                | None => Throw (Error ("Unknown logical operator " ++ queryKey))
                | Some op => op obj queryValue
                end
              else mqpRec obj queryKey queryValue false)
      (ownEntries query).

Fixpoint match_fuel (fuel : nat) (obj query : value) : result bool :=
  match fuel with
  | O => OutOfFuel
  | S fuel' =>
      match_body (match_fuel fuel') (matchQueryPart_fuel fuel') obj query
  end
with matchQueryPart_fuel (fuel : nat) (obj : value) (queryKey : string)
    (queryValue : value) (treatObjAsValue : bool) : result bool :=
  match fuel with
  | O => OutOfFuel
  | S fuel' =>
      matchQueryPart_body (match_fuel fuel') (matchQueryPart_fuel fuel')
        obj queryKey queryValue treatObjAsValue
  end.

(** Number of nodes of a value. *)
Fixpoint size (v : value) : nat :=
  match v with
  | VArr l => S (list_sum (map size l))
  | VObj kvs => S (list_sum (map (fun kv => size (snd kv)) kvs))
  | _ => 1%nat
  end.

(** The recursion budget of a call [match(obj, query)]: the matcher descends
    into the query, and into array elements of the document. *)
Definition match_budget (obj query : value) : nat :=
  (size query + 2 * depth obj + 4)%nat.

Definition match_ (obj query : value) : result bool :=
  match_fuel (match_budget obj query) obj query.

(** ** Last-step modifiers, on a document given as a value

    [obj[field] = v] on an object keeps the position of an existing
    property; a new one goes after the others, array-index names first and
    in ascending order. *)

Definition isArrayIndexName (k : string) : option nat :=
  match indexOfKey k with
  | Some i => if (Z.of_nat i <? 4294967295)%Z then Some i else None
  | None => None
  end.

Fixpoint insertIndexProp {A} (i : nat) (k : string) (v : A)
    (kvs : list (string * A)) : list (string * A) :=
  match kvs with
  | [] => [(k, v)]
  | (k', v') :: r =>
      match isArrayIndexName k' with
      | Some j =>
          if (j <? i)%nat then (k', v') :: insertIndexProp i k v r
          else (k, v) :: kvs
      | None => (k, v) :: kvs
      end
  end.

Fixpoint replaceProp {A} (k : string) (v : A) (kvs : list (string * A))
  : list (string * A) :=
  match kvs with
  | [] => []
  | (k', v') :: r =>
      if (k' =? k)%string then (k, v) :: r else (k', v') :: replaceProp k v r
  end.

Definition hasOwn {A} (kvs : list (string * A)) (k : string) : bool :=
  match assoc k kvs with Some _ => true | None => false end.

Definition setOwn {A} (kvs : list (string * A)) (k : string) (v : A)
  : list (string * A) :=
  if hasOwn kvs k then replaceProp k v kvs
  else match isArrayIndexName k with
       | Some i => insertIndexProp i k v kvs
       | None => kvs ++ [(k, v)]
       end.

(** [l.forEach(f)] for an action on a state that can throw. *)
Fixpoint forEachM {A S} (f : S -> A -> result S) (s : S) (l : list A)
  : result S :=
  match l with
  | [] => Ok s
  | x :: r => s' ← f s x; forEachM f s' r
  end.


(** One unfolding of [lastStepModifierFunctions.$addToSet] on an object
    given by its properties; the result is the object after the call. *)
Definition lastStep_addToSet_body
    (rec : list (string * value) -> string -> value
           -> result (list (string * value)))
    (obj : list (string * value)) (field : string) (v : value)
  : result (list (string * value)) :=
  let obj := if hasOwn obj field then obj else setOwn obj field (VArr []) in
  match getProp (VObj obj) field with
  | VArr arr =>
      if isNonNullObject v && truthy (getProp v "$each") then
        if (1 <? length (objectKeys v))%nat
        then Throw (Error "Can't use another field in conjunction with $each")
        else
          match getProp v "$each" with
          | VArr each => forEachM (fun o x => rec o field x) obj each
          | _ => Throw (Error "$each requires an array value")
          end
      else
        addToSet ← forEachM
                     (fun (addToSet : bool) x =>
                        c ← compareThings x v None;
                        Ok (if c =? 0 then false else addToSet))
                     true arr;
        if addToSet : bool
        then Ok (setOwn obj field (VArr (arr ++ [v])))
        else Ok obj
  | _ => Throw (Error "Can't $addToSet an element on non-array values")
  end.

Fixpoint lastStep_addToSet_fuel (fuel : nat) (obj : list (string * value))
    (field : string) (v : value) : result (list (string * value)) :=
  match fuel with
  | O => OutOfFuel
  | S fuel' => lastStep_addToSet_body (lastStep_addToSet_fuel fuel') obj field v
  end.

Definition lastStep_addToSet (obj : list (string * value)) (field : string)
    (v : value) : result (list (string * value)) :=
  lastStep_addToSet_fuel (S (depth v)) obj field v.


(** ** Serialization: [serialize] and [deserialize]

    [JSON.stringify] and [JSON.parse] are modelled at the level of the JSON
    value that the text denotes: [stringify] is the traversal that calls the
    replacer (the language's SerializeJSONProperty), [internalize] the
    traversal that calls the reviver (InternalizeJSONProperty). *)

Inductive json : Type :=
| JNull
| JBool (b : bool)
| JNum (n : Z)
| JStr (s : string)
| JArr (l : list json)
| JObj (kvs : list (string * json)).

(** [Date.prototype.toISOString], which [toJSON] of a date returns. *)
Definition pad (width : nat) (n : Z) : string :=
  let s := NilZero.string_of_uint (N.to_uint (Z.to_N n)) in
  String.concat "" (repeat "0" (width - String.length s)) ++ s.

Definition toISOString (t : Z) : string :=
  let days := t / 86400000 in
  let ms := t mod 86400000 in
  let z := days + 719468 in
  let era := z / 146097 in
  let doe := z - era * 146097 in
  let yoe := (doe - doe / 1460 + doe / 36524 - doe / 146096) / 365 in
  let doy := doe - (365 * yoe + yoe / 4 - yoe / 100) in
  let mp := (5 * doy + 2) / 153 in
  let d := doy - (153 * mp + 2) / 5 + 1 in
  let m := if mp <? 10 then mp + 3 else mp - 9 in
  let y := yoe + era * 400 + (if m <=? 2 then 1 else 0) in
  let year :=
    if (0 <=? y) && (y <=? 9999) then pad 4 y
    else (if y <? 0 then "-" else "+") ++ pad 6 (Z.abs y) in
  year ++ "-" ++ pad 2 m ++ "-" ++ pad 2 d ++ "T"
  ++ pad 2 (ms / 3600000) ++ ":" ++ pad 2 (ms / 60000 mod 60) ++ ":"
  ++ pad 2 (ms / 1000 mod 60) ++ "." ++ pad 3 (ms mod 1000) ++ "Z".

(** The value handed to the replacer: [toJSON] has been applied. *)
Definition afterToJSON (v : value) : value :=
  match v with
  | VDate t => VStr (toISOString t)
  | _ => v
  end.

(** The replacer of [serialize]; [held] is [this[k]] and [v] the value
    after [toJSON]. *)
Definition serialize_replacer (k : string) (held v : value) : result value :=
  _ ← checkKey k v;
  match v with
  | VUndefined => Ok VUndefined
  | VNull => Ok VNull
  | _ =>
      match held with
      | VDate t => Ok (VObj [("$$date", VNum t)])
      | _ => Ok v
      end
  end.

Fixpoint mapM {A B} (f : A -> result B) (l : list A) : result (list B) :=
  match l with
  | [] => Ok []
  | x :: r => y ← f x; ys ← mapM f r; Ok (y :: ys)
  end.

(** [l] with the index of each element. *)
Definition indexed {A} (l : list A) : list (nat * A) :=
  combine (seq 0 (length l)) l.

(** One unfolding of the serialization of the property [k] holding [held];
    [None] is the [undefined] that omits a property. *)
Definition stringify_body
    (rec : string -> value -> result (option json))
    (replacer : string -> value -> value -> result value)
    (k : string) (held : value) : result (option json) :=
  v ← replacer k held (afterToJSON held);
  match v with
  | VUndefined => Ok None
  | VNull => Ok (Some JNull)
  | VBool b => Ok (Some (JBool b))
  | VNum n => Ok (Some (JNum n))
  | VStr s => Ok (Some (JStr s))
  | VDate _ => Ok (Some (JObj []))
  | VArr l =>
      elements ← mapM (fun ix : nat * value =>
                         r ← rec (keyOfIndex (fst ix)) (snd ix);
                         Ok (default JNull r)) (indexed l);
      Ok (Some (JArr elements))
  | VObj kvs =>
      members ← mapM (fun kv : string * value =>
                        r ← rec (fst kv) (snd kv);
                        Ok (option_map (fun j => (fst kv, j)) r)) kvs;
      Ok (Some (JObj (omap id members)))
  end.

Fixpoint stringify_fuel (fuel : nat)
    (replacer : string -> value -> value -> result value)
    (k : string) (held : value) : result (option json) :=
  match fuel with
  | O => OutOfFuel
  | S fuel' =>
      stringify_body (stringify_fuel fuel' replacer) replacer k held
  end.

(** [serialize(obj)]; the budget covers the depth of [obj] and of the
    objects the replacer puts in place of dates. *)
Definition serialize (obj : value) : result (option json) :=
  stringify_fuel (depth obj + 2) serialize_replacer "" obj.





(** ** [lib/storage.js]: datafile recovery

    The file system is a finite map from paths to file contents; an
    operation with a callback becomes a function from the file system to the
    error handed to the callback ([None] for [null]) and the file system
    after it. Failures of the device are not modelled: an operation fails
    only when its file is missing. *)

Abbreviation filesystem := (gmap string string).

Definition storage_exists (fs : filesystem) (path : string) : bool :=
  bool_decide (is_Some (fs !! path)).

Definition storage_rename (oldPath newPath : string) (fs : filesystem)
  : option error * filesystem :=
  match fs !! oldPath with
  | Some content => (None, <[newPath := content]> (delete oldPath fs))
  | None => (Some (Error "ENOENT: no such file or directory, rename"), fs)
  end.

Definition storage_writeFile (path data : string) (fs : filesystem)
  : option error * filesystem :=
  (None, <[path := data]> fs).

Definition ensureDatafileIntegrity (filename : string) (fs : filesystem)
  : option error * filesystem :=
  let tempFilename := filename ++ "~" in
  if storage_exists fs filename then (None, fs)
  else if negb (storage_exists fs tempFilename)
  then storage_writeFile filename "" fs
  else storage_rename tempFilename filename fs.

(** ** The update engine on a heap of objects

    [modify] copies its input with [deepCopy] and then mutates the copy in
    place; [deepCopy] returns dates and objects tagged as [ObjectID] by
    reference. To make this sharing visible, this part of the embedding
    threads a heap: a value is a primitive or a reference to a heap object.
    Arrays have no holes and no properties besides their elements, dates
    have no properties; an assignment that would create one is
    [NotModelled]. Read-only functions ([match], [compareThings],
    [checkObject]) run on the tree read off the heap. The mongoose
    integration is left out: [isMongoose()] is [false]. *)

Abbreviation loc := positive.

Inductive val : Type :=
| LUndefined
| LNull
| LBool (b : bool)
| LNum (n : Z)
| LStr (s : string)
| LRef (l : loc).

Inductive hobj : Type :=
| HDate (t : Z)
| HArr (elems : list val)
| HObj (props : list (string * val)).

Abbreviation heap := (gmap loc hobj).

(** A computation on the heap: its outcome and the heap after it, which is
    kept when the computation throws. *)
Definition M (A : Type) : Type := heap -> result A * heap.

#[global] Instance M_ret : MRet M := fun A a h => (Ok a, h).
#[global] Instance M_bind : MBind M := fun A B f m h =>
  match m h with
  | (Ok a, h') => f a h'
  | (Throw e, h') => (Throw e, h')
  | (OutOfFuel, h') => (OutOfFuel, h')
  | (NotModelled, h') => (NotModelled, h')
  end.

Definition liftR {A} (r : result A) : M A := fun h => (r, h).
Definition throwM {A} (e : error) : M A := liftR (Throw e).
Definition getHeap : M heap := fun h => (Ok h, h).

Definition hread (l : loc) : M hobj := fun h =>
  match h !! l with
  | Some o => (Ok o, h)
  | None => (NotModelled, h)
  end.

Definition hwrite (l : loc) (o : hobj) : M unit := fun h =>
  (Ok tt, <[l := o]> h).

Definition halloc (o : hobj) : M loc := fun h =>
  let l := fresh (dom h) in (Ok l, <[l := o]> h).

Fixpoint forEachH {A} (f : A -> M unit) (l : list A) : M unit :=
  match l with
  | [] => mret tt
  | x :: r => _ ← f x; forEachH f r
  end.

Fixpoint mapH {A B} (f : A -> M B) (l : list A) : M (list B) :=
  match l with
  | [] => mret []
  | x :: r => y ← f x; ys ← mapH f r; mret (y :: ys)
  end.

Fixpoint filterH {A} (f : A -> M bool) (l : list A) : M (list A) :=
  match l with
  | [] => mret []
  | x :: r =>
      keep ← f x;
      rest ← filterH f r;
      mret (if keep : bool then x :: rest else rest)
  end.

(** The tree a heap value denotes, read to the given depth. *)
Fixpoint reify (fuel : nat) (h : heap) (v : val) : option value :=
  match v with
  | LUndefined => Some VUndefined
  | LNull => Some VNull
  | LBool b => Some (VBool b)
  | LNum n => Some (VNum n)
  | LStr s => Some (VStr s)
  | LRef l =>
      match fuel with
      | O => None
      | S fuel' =>
          match h !! l with
          | None => None
          | Some (HDate t) => Some (VDate t)
          | Some (HArr es) =>
              VArr <$>
                (fix each (es : list val) : option (list value) :=
                   match es with
                   | [] => Some []
                   | e :: r =>
                       x ← reify fuel' h e; xs ← each r; Some (x :: xs)
                   end) es
          | Some (HObj ps) =>
              VObj <$>
                (fix each (ps : list (string * val))
                   : option (list (string * value)) :=
                   match ps with
                   | [] => Some []
                   | (k, e) :: r =>
                       x ← reify fuel' h e; xs ← each r; Some ((k, x) :: xs)
                   end) ps
          end
      end
  end.

Definition reifyM (fuel : nat) (v : val) : M value := fun h =>
  match reify fuel h v with
  | Some t => (Ok t, h)
  | None => (OutOfFuel, h)
  end.

(** *** Reading and writing properties *)

Definition truthyL (v : val) : bool :=
  match v with
  | LUndefined | LNull => false
  | LBool b => b
  | LNum n => negb (n =? 0)
  | LStr s => negb (s =? "")%string
  | LRef _ => true
  end.

(** [a === b]: references are equal when they are the same object. *)
Definition strictEqL (a b : val) : bool :=
  match a, b with
  | LUndefined, LUndefined | LNull, LNull => true
  | LBool x, LBool y => Bool.eqb x y
  | LNum x, LNum y => x =? y
  | LStr x, LStr y => (x =? y)%string
  | LRef x, LRef y => (x =? y)%positive
  | _, _ => false
  end.

Definition primOfValue (v : value) : val :=
  match v with
  | VNull => LNull
  | VBool b => LBool b
  | VNum n => LNum n
  | VStr s => LStr s
  | _ => LUndefined
  end.

(** The own property [k] of a heap object. *)
Definition objProp (o : hobj) (k : string) : val :=
  match o with
  | HObj ps => default LUndefined (assoc k ps)
  | HArr es =>
      if (k =? "length")%string then LNum (lengthZ es)
      else match indexOfKey k with
           | Some i => nth i es LUndefined
           | None => LUndefined
           end
  | HDate _ => LUndefined
  end.

(** [v[k]]. *)
Definition getPropH (v : val) (k : string) : M val :=
  match v with
  | LUndefined | LNull =>
      throwM (TypeError "Cannot read properties of undefined")
  | LStr s => mret (primOfValue (getProp (VStr s) k))
  | LBool _ | LNum _ => mret LUndefined
  | LRef l => o ← hread l; mret (objProp o k)
  end.

(** [v[k] = x], outside strict mode: silently ignored on a primitive. *)
Definition setPropH (v : val) (k : string) (x : val) : M unit :=
  match v with
  | LUndefined | LNull =>
      throwM (TypeError "Cannot set properties of undefined")
  | LBool _ | LNum _ | LStr _ => mret tt
  | LRef l =>
      o ← hread l;
      match o with
      | HObj ps => hwrite l (HObj (setOwn ps k x))
      | HArr es =>
          match indexOfKey k with
          | Some i =>
              if (i <? length es)%nat then hwrite l (HArr (<[i := x]> es))
              else if (i =? length es)%nat then hwrite l (HArr (es ++ [x]))
              else liftR NotModelled
          | None => liftR NotModelled
          end
      | HDate _ => liftR NotModelled
      end
  end.

Fixpoint removeProp {A} (k : string) (kvs : list (string * A))
  : list (string * A) :=
  match kvs with
  | [] => []
  | (k', v) :: r => if (k' =? k)%string then r else (k', v) :: removeProp k r
  end.

(** [delete v[k]]. *)
Definition deletePropH (v : val) (k : string) : M unit :=
  match v with
  | LUndefined | LNull =>
      throwM (TypeError "Cannot convert undefined or null to object")
  | LBool _ | LNum _ | LStr _ => mret tt
  | LRef l =>
      o ← hread l;
      match o with
      | HObj ps => hwrite l (HObj (removeProp k ps))
      | HArr es =>
          match indexOfKey k with
          | Some i => if (i <? length es)%nat then liftR NotModelled else mret tt
          | None => mret tt
          end
      | HDate _ => mret tt
      end
  end.

(** [Object.prototype.hasOwnProperty.call(v, k)]. *)
Definition hasOwnH (v : val) (k : string) : M bool :=
  match v with
  | LUndefined | LNull =>
      throwM (TypeError "Cannot convert undefined or null to object")
  | LBool _ | LNum _ => mret false
  | LStr s => mret (negb (isUndefined (getProp (VStr s) k)))
  | LRef l =>
      o ← hread l;
      mret (match o with
            | HObj ps => hasOwn ps k
            | HArr es =>
                (k =? "length")%string
                || match indexOfKey k with
                   | Some i => (i <? length es)%nat
                   | None => false
                   end
            | HDate _ => false
            end)
  end.

(** [Object.keys(v)]. *)
Definition keysH (v : val) : M (list string) :=
  match v with
  | LUndefined | LNull =>
      throwM (TypeError "Cannot convert undefined or null to object")
  | LBool _ | LNum _ => mret []
  | LStr s => mret (objectKeys (VStr s))
  | LRef l =>
      o ← hread l;
      mret (match o with
            | HObj ps => map fst ps
            | HArr es => map keyOfIndex (seq 0 (length es))
            | HDate _ => []
            end)
  end.

(** [Array.isArray(v)], with the elements when it is one. *)
Definition asArrayH (v : val) : M (option (loc * list val)) :=
  match v with
  | LRef l =>
      o ← hread l;
      mret (match o with HArr es => Some (l, es) | _ => None end)
  | _ => mret None
  end.

(** *** [deepCopy] *)

Definition isObjectIDTagged (ps : list (string * val)) : bool :=
  match assoc "_bsontype" ps with
  | Some (LStr s) => (s =? "ObjectID")%string
  | _ => false
  end.

Fixpoint deepCopy (fuel : nat) (obj : val) (strictKeys : bool) : M val :=
  match fuel with
  | O => liftR OutOfFuel
  | S fuel' =>
      match obj with
      | LRef l =>
          o ← hread l;
          match o with
          | HDate _ => mret obj
          | HArr es =>
              es' ← mapH (fun e => deepCopy fuel' e strictKeys) es;
              l' ← halloc (HArr es');
              mret (LRef l')
          | HObj ps =>
              if isObjectIDTagged ps then mret obj
              else
                let copied :=
                  List.filter
                    (fun kv : string * val =>
                       negb strictKeys
                       || (negb (firstCharIsDollar (fst kv))
                           && negb (containsDot (fst kv)))) ps in
                ps' ← mapH (fun kv : string * val =>
                              x ← deepCopy fuel' (snd kv) strictKeys;
                              mret (fst kv, x)) copied;
                l' ← halloc (HObj ps');
                mret (LRef l')
          end
      | _ => mret obj
      end
  end.

(** *** Dotted paths and read-only functions on the heap *)

Definition arrayAtL (es : list val) (i : Z) : val :=
  if i <? 0 then LUndefined else nth (Z.to_nat i) es LUndefined.

(** [getDotValue] on heap values; the array of per-element results is a new
    object. *)
Fixpoint getDotValueH (obj : val) (fieldParts : list string)
    {struct fieldParts} : M val :=
  if negb (truthyL obj) then mret LUndefined
  else
    match fieldParts with
    | [] => mret obj
    | [f] => getPropH obj f
    | f :: ((k :: rest) as tl) =>
        first ← getPropH obj f;
        arr ← asArrayH first;
        match arr with
        | Some (_, es) =>
            match parseInt10 k with
            | Some i => getDotValueH (arrayAtL es i) rest
            | None =>
                xs ← mapH (fun el => getDotValueH el tl) es;
                l ← halloc (HArr xs);
                mret (LRef l)
            end
        | None => getDotValueH first tl
        end
    end.

Definition matchH (fuel : nat) (obj query : val) : M bool :=
  o ← reifyM fuel obj;
  q ← reifyM fuel query;
  liftR (match_ o q).

Definition compareThingsH (fuel : nat) (a b : val) : M Z :=
  x ← reifyM fuel a;
  y ← reifyM fuel b;
  liftR (compareThings x y None).

Definition checkObjectH (fuel : nat) (obj : val) : M unit :=
  t ← reifyM fuel obj;
  liftR (checkObject t).

(** *** Last-step modifiers, mutating the heap *)

Definition isRef (v : val) : bool :=
  match v with LRef _ => true | _ => false end.

Definition isUndefinedL (v : val) : bool :=
  match v with LUndefined => true | _ => false end.

(** [target.push(v)]. *)
Definition pushH (target v : val) : M unit :=
  arr ← asArrayH target;
  match arr with
  | Some (la, es) => hwrite la (HArr (es ++ [v]))
  | None => throwM (TypeError "obj[field].push is not a function")
  end.

(** [obj[field] = []] when [obj] has no own property [field]. *)
Definition createArrayIfMissing (obj : val) (field : string) : M unit :=
  has ← hasOwnH obj field;
  if has : bool then mret tt
  else l ← halloc (HArr []); setPropH obj field (LRef l).

(** The element [i] of the array at [la], as it is now. *)
Definition elementNow (la : loc) (i : nat) : M val :=
  o ← hread la;
  mret (match o with HArr es => nth i es LUndefined | _ => LUndefined end).

Definition lastStep_setH (obj : val) (field : string) (value : val) : M unit :=
  setPropH obj field value.

Definition lastStep_unsetH (obj : val) (field : string) (value : val) : M unit :=
  deletePropH obj field.

Definition sliceList {A} (start finish : nat) (l : list A) : list A :=
  firstn (finish - start) (skipn start l).

Definition lastStep_pushH (obj : val) (field : string) (value : val) : M unit :=
  _ ← createArrayIfMissing obj field;
  cur ← getPropH obj field;
  arr ← asArrayH cur;
  match arr with
  | None => throwM (Error "Can't $push an element on non-array values")
  | Some _ =>
      _ ← (if isRef value then
             sl ← getPropH value "$slice";
             ea ← getPropH value "$each";
             if truthyL sl && isUndefinedL ea
             then l ← halloc (HArr []); setPropH value "$each" (LRef l)
             else mret tt
           else mret tt);
      each ← (if isRef value then getPropH value "$each" else mret LUndefined);
      if isRef value && truthyL each then
        ks ← keysH value;
        sl ← getPropH value "$slice";
        if (3 <=? length ks)%nat || ((length ks =? 2)%nat && isUndefinedL sl)
        then throwM (Error "Can only use $slice in cunjunction with $each when $push to array")
        else
          earr ← asArrayH each;
          match earr with
          | None => throwM (Error "$each requires an array value")
          | Some (le, es0) =>
              _ ← forEachH (fun i =>
                              v ← elementNow le i;
                              target ← getPropH obj field;
                              pushH target v) (seq 0 (length es0));
              match sl with
              | LNum n =>
                  if n =? 0
                  then l ← halloc (HArr []); setPropH obj field (LRef l)
                  else
                    target ← getPropH obj field;
                    tarr ← asArrayH target;
                    match tarr with
                    | None => throwM (TypeError "obj[field].slice is not a function")
                    | Some (_, es) =>
                        let len := lengthZ es in
                        let start := if n <? 0 then Z.max 0 (len + n) else 0 in
                        let finish := if n <? 0 then len else Z.min len n in
                        l ← halloc (HArr (sliceList (Z.to_nat start)
                                            (Z.to_nat finish) es));
                        setPropH obj field (LRef l)
                    end
              | _ => mret tt
              end
          end
      else
        target ← getPropH obj field;
        pushH target value
  end.

Definition lastStep_pushAllH (obj : val) (field : string) (values : val)
  : M unit :=
  arr ← asArrayH values;
  match arr with
  | None => throwM (Error "Can't $pushAll an non-array element, try $push")
  | Some _ =>
      l ← halloc (HObj [("$each", values)]);
      lastStep_pushH obj field (LRef l)
  end.

Fixpoint lastStep_addToSetH (fuel : nat) (obj : val) (field : string)
    (value : val) : M unit :=
  match fuel with
  | O => liftR OutOfFuel
  | S fuel' =>
      _ ← createArrayIfMissing obj field;
      cur ← getPropH obj field;
      arr ← asArrayH cur;
      match arr with
      | None => throwM (Error "Can't $addToSet an element on non-array values")
      | Some (_, es) =>
          each ← (if isRef value then getPropH value "$each"
                  else mret LUndefined);
          if isRef value && truthyL each then
            ks ← keysH value;
            if (1 <? length ks)%nat
            then throwM (Error "Can't use another field in conjunction with $each")
            else
              earr ← asArrayH each;
              match earr with
              | None => throwM (Error "$each requires an array value")
              | Some (le, es0) =>
                  forEachH (fun i =>
                              v ← elementNow le i;
                              lastStep_addToSetH fuel' obj field v)
                    (seq 0 (length es0))
              end
          else
            cs ← mapH (fun v => compareThingsH fuel' v value) es;
            if existsb (fun c => c =? 0) cs then mret tt
            else target ← getPropH obj field; pushH target value
      end
  end.

Definition lastStep_popH (obj : val) (field : string) (value : val) : M unit :=
  cur ← getPropH obj field;
  arr ← asArrayH cur;
  match arr with
  | None => throwM (Error "Can't $pop an element from non-array values")
  | Some (_, es) =>
      match value with
      | LNum n =>
          if n =? 0 then mret tt
          else
            l ← halloc (HArr (if 0 <? n then removelast es else tl es));
            setPropH obj field (LRef l)
      | _ => throwM (Error "value isn't an integer, can't use it with $pop")
      end
  end.

Definition removeAt {A} (i : nat) (l : list A) : list A :=
  firstn i l ++ skipn (S i) l.

Definition lastStep_pullH (fuel : nat) (obj : val) (field : string)
    (value : val) : M unit :=
  cur ← getPropH obj field;
  arr ← asArrayH cur;
  match arr with
  | None => throwM (Error "Can't $pull an element from non-array values")
  | Some (la, es) =>
      forEachH (fun i =>
                  el ← elementNow la i;
                  m ← matchH fuel el value;
                  if m : bool then
                    o ← hread la;
                    match o with
                    | HArr now => hwrite la (HArr (removeAt i now))
                    | _ => mret tt
                    end
                  else mret tt) (rev (seq 0 (length es)))
  end.

Definition lastStep_pullAllH (fuel : nat) (obj : val) (field : string)
    (values : val) : M unit :=
  cur ← getPropH obj field;
  arr ← asArrayH cur;
  match arr with
  | None => throwM (Error "Can't $pullAll an element from non-array values")
  | Some (_, es) =>
      varr ← asArrayH values;
      match varr with
      | None => throwM (Error "Can't $pullAll an non-array element, try $pull")
      | Some (_, vs) =>
          kept ← filterH
                   (fun e =>
                      hit ← (fix some (vs : list val) : M bool :=
                               match vs with
                               | [] => mret false
                               | v :: r =>
                                   m ← matchH fuel e v;
                                   if m : bool then mret true else some r
                               end) vs;
                      mret (negb hit)) es;
          l ← halloc (HArr kept);
          setPropH obj field (LRef l)
      end
  end.

Definition lastStep_incH (obj : val) (field : string) (value : val) : M unit :=
  match value with
  | LNum n =>
      cur ← getPropH obj field;
      match cur with
      | LNum m => setPropH obj field (LNum (m + n))
      | LUndefined => setPropH obj field value
      | _ => throwM (Error "Don't use the $inc modifier on non-number fields")
      end
  | _ => throwM (Error "value must be a number")
  end.

Definition lastStep_maxH (fuel : nat) (obj : val) (field : string)
    (value : val) : M unit :=
  cur ← getPropH obj field;
  if isUndefinedL cur then setPropH obj field value
  else
    x ← reifyM fuel value;
    y ← reifyM fuel cur;
    gt ← liftR (jsGt x y);
    if gt : bool then setPropH obj field value else mret tt.

Definition lastStep_minH (fuel : nat) (obj : val) (field : string)
    (value : val) : M unit :=
  cur ← getPropH obj field;
  if isUndefinedL cur then setPropH obj field value
  else
    x ← reifyM fuel value;
    y ← reifyM fuel cur;
    lt ← liftR (jsLt x y);
    if lt : bool then setPropH obj field value else mret tt.

(** The table [lastStepModifierFunctions]. *)
Definition lastStepModifierFunctionsH (fuel : nat) (modifier : string)
  : option (val -> string -> val -> M unit) :=
  if (modifier =? "$set")%string then Some lastStep_setH
  else if (modifier =? "$unset")%string then Some lastStep_unsetH
  else if (modifier =? "$push")%string then Some lastStep_pushH
  else if (modifier =? "$pushAll")%string then Some lastStep_pushAllH
  else if (modifier =? "$addToSet")%string then Some (lastStep_addToSetH fuel)
  else if (modifier =? "$pop")%string then Some lastStep_popH
  else if (modifier =? "$pull")%string then Some (lastStep_pullH fuel)
  else if (modifier =? "$pullAll")%string then Some (lastStep_pullAllH fuel)
  else if (modifier =? "$inc")%string then Some lastStep_incH
  else if (modifier =? "$max")%string then Some (lastStep_maxH fuel)
  else if (modifier =? "$min")%string then Some (lastStep_minH fuel)
  else None.

(** *** [createModifierFunction] and [modify] *)

Fixpoint indexOfStr (x : string) (l : list string) : option nat :=
  match l with
  | [] => None
  | y :: r => if (y =? x)%string then Some O else S <$> indexOfStr x r
  end.

Definition lastIndexOfStr (x : string) (l : list string) : option nat :=
  (fun i => length l - 1 - i)%nat <$> indexOfStr x (rev l).

Fixpoint uniqFrom (seen l : list string) : list string :=
  match l with
  | [] => []
  | x :: r =>
      if existsb (String.eqb x) seen then uniqFrom seen r
      else x :: uniqFrom (x :: seen) r
  end.

(** [uniq(array)] of [lib/utils.js]: the first occurrence of each element. *)
Definition uniq (l : list string) : list string := uniqFrom [] l.

(** [R.length(v)]; [None] is [NaN]. *)
Definition R_length (v : val) : M (option Z) :=
  match v with
  | LStr s => mret (Some (Z.of_nat (String.length s)))
  | LRef l =>
      o ← hread l;
      mret (match o with
            | HArr es => Some (lengthZ es)
            | HObj ps =>
                match assoc "length" ps with
                | Some (LNum n) => Some n
                | _ => None
                end
            | HDate _ => None
            end)
  | _ => mret None
  end.

(** [R.range(0, n)]. *)
Definition R_range (n : option Z) : list nat :=
  match n with
  | Some n => seq 0 (Z.to_nat n)
  | None => []
  end.

(** [modifierFunctions[modifier](obj, field, value, query)], with [field]
    already split into its parts, and [modify(obj, updateQuery, query)]. *)
Fixpoint modifierFunctions (fuel : nat) (modifier : string) (obj : val)
    (fieldParts : list string) (value query : val) {struct fuel} : M unit :=
  match fuel with
  | O => liftR OutOfFuel
  | S fuel' =>
      let helper (el : val) : M unit :=
        match fieldParts with
        | [f] =>
            match lastStepModifierFunctionsH fuel' modifier with
            | Some lastStep => lastStep el f value
            | None =>
                throwM (TypeError "lastStepModifierFunctions[modifier] is not a function")
            end
        | _ =>
            let f0 := hd "undefined" fieldParts in
            cur ← getPropH el f0;
            continue ←
              (if isUndefinedL cur then
                 if (modifier =? "$unset")%string then mret false
                 else l ← halloc (HObj []);
                      _ ← setPropH el f0 (LRef l);
                      mret true
               else mret true);
            if continue : bool then
              match (if truthyL query then indexOfStr "$" fieldParts
                     else None) with
              | None =>
                  next ← getPropH el f0;
                  modifierFunctions fuel' modifier next (tl fieldParts)
                    value LUndefined
              | Some dollarIndex =>
                  if negb (bool_decide (lastIndexOfStr "$" fieldParts
                                        = Some dollarIndex))
                  then throwM (AssertionError "Can only contain one $")
                  else if negb (0 <? dollarIndex)%nat
                  then throwM (AssertionError "$ can not be in the first place")
                  else
                    let arrayPath := joinDot (firstn dollarIndex fieldParts) in
                    array ← getDotValueH obj (splitDot arrayPath);
                    len ← R_length array;
                    matchArrayIndexs ←
                      filterH (fun i =>
                                 ai ← getPropH array (keyOfIndex i);
                                 la ← halloc (HArr [ai]);
                                 ls ← halloc (HObj [(arrayPath, LRef la)]);
                                 lu ← halloc (HObj [("$set", LRef ls)]);
                                 nd ← modify fuel' obj (LRef lu) LUndefined;
                                 matchH fuel' nd query) (R_range len);
                    match matchArrayIndexs with
                    | [] =>
                        next ← getPropH el f0;
                        modifierFunctions fuel' modifier next
                          (List.filter (fun e => negb (e =? "$")%string)
                             (tl fieldParts))
                          value LUndefined
                    | _ =>
                        forEachH
                          (fun index =>
                             let thisFieldParts :=
                               <[dollarIndex := keyOfIndex index]> fieldParts in
                             next ← getPropH el (hd "undefined" thisFieldParts);
                             modifierFunctions fuel' modifier next
                               (tl thisFieldParts) value LUndefined)
                          matchArrayIndexs
                    end
              end
            else mret tt
        end in
      arr ← asArrayH obj;
      match arr with
      | Some (la, es) =>
          if parseIntIsNaN (hd "undefined" fieldParts)
          then forEachH (fun i => el ← elementNow la i; helper el)
                 (seq 0 (length es))
          else helper obj
      | None => helper obj
      end
  end
with modify (fuel : nat) (obj updateQuery query : val) {struct fuel} : M val :=
  match fuel with
  | O => liftR OutOfFuel
  | S fuel' =>
      keys ← keysH updateQuery;
      let dollarFirstChars := List.filter firstCharIsDollar keys in
      changesId ←
        (if existsb (String.eqb "_id") keys then
           uid ← getPropH updateQuery "_id";
           oid ← getPropH obj "_id";
           mret (negb (strictEqL uid oid))
         else mret false);
      if changesId : bool
      then throwM (Error "You cannot change a document's _id")
      else if negb (length dollarFirstChars =? 0)%nat
              && negb (length dollarFirstChars =? length keys)%nat
      then throwM (Error "You cannot mix modifiers and normal fields")
      else
        newDoc ←
          (if (length dollarFirstChars =? 0)%nat then
             newDoc ← deepCopy fuel' updateQuery false;
             oid ← getPropH obj "_id";
             _ ← setPropH newDoc "_id" oid;
             mret newDoc
           else
             newDoc ← deepCopy fuel' obj false;
             _ ← forEachH
                   (fun m =>
                      match lastStepModifierFunctionsH fuel' m with
                      | None => throwM (Error ("Unknown modifier " ++ m))
                      | Some _ =>
                          arg ← getPropH updateQuery m;
                          if negb (isRef arg || strictEqL arg LNull)
                          then throwM (Error ("Modifier " ++ m
                                              ++ "'s argument must be an object"))
                          else
                            ks ← keysH arg;
                            forEachH
                              (fun k =>
                                 x ← getPropH arg k;
                                 modifierFunctions fuel' m newDoc (splitDot k)
                                   x query) ks
                      end) (uniq keys);
             mret newDoc);
        _ ← checkObjectH fuel' newDoc;
        oid ← getPropH obj "_id";
        nid ← getPropH newDoc "_id";
        if negb (strictEqL oid nid)
        then throwM (Error "You can't change a document's _id")
        else mret newDoc
  end.

(** *** Protected objects

    The frame property of [modify] is stated for a set [P] of heap
    locations, the protected objects. A value is clean when it is not a
    reference into [P]. *)

Definition cleanVal (P : gset loc) (v : val) : Prop :=
  match v with
  | LRef l => l ∉ P
  | _ => True
  end.

Definition cleanObj (P : gset loc) (o : hobj) : Prop :=
  match o with
  | HDate _ => True
  | HArr es => Forall (cleanVal P) es
  | HObj ps => Forall (fun kv => cleanVal P (snd kv)) ps
  end.

Class Clean (A : Type) := clean : gset loc -> A -> Prop.

#[global] Instance clean_val : Clean val := cleanVal.
#[global] Instance clean_loc : Clean loc := fun P l => l ∉ P.
#[global] Instance clean_hobj : Clean hobj := cleanObj.
#[global] Instance clean_unit : Clean unit := fun _ _ => True.
#[global] Instance clean_bool : Clean bool := fun _ _ => True.
#[global] Instance clean_string : Clean string := fun _ _ => True.
#[global] Instance clean_Z : Clean Z := fun _ _ => True.
#[global] Instance clean_nat : Clean nat := fun _ _ => True.
#[global] Instance clean_value : Clean value := fun _ _ => True.
#[global] Instance clean_heap : Clean heap := fun _ _ => True.
#[global] Instance clean_list {A} `{Clean A} : Clean (list A) :=
  fun P l => Forall (clean P) l.
#[global] Instance clean_option {A} `{Clean A} : Clean (option A) :=
  fun P o => match o with Some a => clean P a | None => True end.
#[global] Instance clean_prod {A B} `{Clean A, Clean B} : Clean (A * B) :=
  fun P ab => clean P (fst ab) /\ clean P (snd ab).

(** The objects [deepCopy] returns by reference: dates and objects whose
    [_bsontype] is ['ObjectID']. *)
Definition sharedByCopy (o : hobj) : bool :=
  match o with
  | HDate _ => true
  | HObj ps => isObjectIDTagged ps
  | HArr _ => false
  end.

(** The protected set is well placed in a heap: its locations are
    allocated, no object outside it refers into it, and it holds no object
    that [deepCopy] shares. *)
Record Inv (P : gset loc) (h : heap) : Prop := {
  inv_dom : forall l, l ∈ P -> is_Some (h !! l);
  inv_clean : forall l o, h !! l = Some o -> l ∉ P -> cleanObj P o;
  inv_copied : forall l o, h !! l = Some o -> l ∈ P -> sharedByCopy o = false
}.

Definition unchangedOn (P : gset loc) (h h' : heap) : Prop :=
  forall l, l ∈ P -> h' !! l = h !! l.

(** [safeQ P Q m]: run in a heap where [P] is well placed, [m] leaves the
    objects of [P] as they are, keeps [P] well placed, and its result
    satisfies [Q]. *)
Definition safeQ {A} (P : gset loc) (Q : A -> Prop) (m : M A) : Prop :=
  forall h, Inv P h -> forall r h', m h = (r, h') ->
    Inv P h' /\ unchangedOn P h h' /\ forall a, r = Ok a -> Q a.

Definition safe {A} `{Clean A} (P : gset loc) (m : M A) : Prop :=
  safeQ P (clean P) m.

(** [framed P m]: [m] leaves the objects of [P] as they are. *)
Definition framed {A} (P : gset loc) (m : M A) : Prop :=
  forall h, Inv P h -> forall r h', m h = (r, h') -> unchangedOn P h h'.

Definition readonly {A} (m : M A) : Prop :=
  forall h r h', m h = (r, h') -> h' = h.

(** [within fuel P h v]: the objects of the tree of [v], read to depth
    [fuel], all belong to [P]. *)
Fixpoint within (fuel : nat) (P : gset loc) (h : heap) (v : val) : Prop :=
  match v with
  | LRef l =>
      match fuel with
      | O => True
      | S fuel' =>
          l ∈ P
          /\ match h !! l with
             | Some (HArr es) => Forall (within fuel' P h) es
             | Some (HObj ps) => Forall (fun kv => within fuel' P h (snd kv)) ps
             | _ => True
             end
      end
  | _ => True
  end.

(** A decision procedure for [Inv] on a given heap. *)
Definition cleanValb (P : gset loc) (v : val) : bool :=
  match v with
  | LRef l => bool_decide (l ∉ P)
  | _ => true
  end.

Definition cleanObjb (P : gset loc) (o : hobj) : bool :=
  match o with
  | HDate _ => true
  | HArr es => forallb (cleanValb P) es
  | HObj ps => forallb (fun kv => cleanValb P (snd kv)) ps
  end.

Definition invb (P : gset loc) (h : heap) : bool :=
  forallb (fun l => bool_decide (is_Some (h !! l))) (elements P)
  && forallb (fun lo : loc * hobj =>
                if bool_decide (fst lo ∈ P) then negb (sharedByCopy (snd lo))
                else cleanObjb P (snd lo)) (map_to_list h).

(** ** Definitions used to state further properties *)

(** Two computations end alike: the second throws the error the first
    throws, and returns when the first returns. *)
Definition sameOutcome {A B} (c : result A) (s : result B) : Prop :=
  match c with
  | Throw e => s = Throw e
  | Ok _ => exists j, s = Ok j
  | OutOfFuel | NotModelled => False
  end.

(** A value the comparator can order: it holds no [null], on which
    [isMongoId] throws, and no object with a [constructor] property of its
    own. *)
Fixpoint orderable (v : value) : bool :=
  match v with
  | VNull => false
  | VArr l => forallb orderable l
  | VObj kvs =>
      negb (hasOwn kvs "constructor")
      && forallb (fun kv => orderable (snd kv)) kvs
  | _ => true
  end.

(** The number [compareNSB] returns for an outcome of the relational
    comparison. *)
Definition signOf (c : comparison) : Z :=
  match c with Lt => -1 | Eq => 0 | Gt => 1 end.

(** [r] continues the chain [p <= 0], [q <= 0]: it is at most 0, and 0
    exactly when both are. *)
Definition chains (p q r : Z) : Prop :=
  r <= 0 /\ (r = 0 <-> p = 0 /\ q = 0).

(** ** [lib/storage.js]: crash-safe writing

    Directories are not represented: the directory of a path is taken to
    exist, so that flushing it succeeds, as writing a file in it does. *)

Definition storage_unlink (path : string) (fs : filesystem)
  : option error * filesystem :=
  match fs !! path with
  | Some _ => (None, delete path fs)
  | None => (Some (Error "ENOENT: no such file or directory, unlink"), fs)
  end.

Definition ensureFileDoesntExist (file : string) (fs : filesystem)
  : option error * filesystem :=
  if negb (storage_exists fs file) then (None, fs)
  else storage_unlink file fs.

(** The argument of [flushToStorage]: a file name, or a name with the
    [isDir] flag. *)
Inductive flushOptions : Type :=
| FlushName (filename : string)
| FlushOptions (filename : string) (isDir : bool).

(** [flushToStorage]: the file is opened ([r+], or [r] for a directory),
    synced and closed; opening a file that does not exist fails, and nothing
    is changed. *)
Definition flushToStorage (options : flushOptions) (fs : filesystem)
  : option error * filesystem :=
  match options with
  | FlushOptions _ true => (None, fs)
  | FlushName filename | FlushOptions filename false =>
      if storage_exists fs filename then (None, fs)
      else (Some (Error "ENOENT: no such file or directory, open"), fs)
  end.

(** [async.waterfall]: the tasks run in turn; the first error ends the
    series and is handed to the final callback. *)
Fixpoint waterfall (tasks : list (filesystem -> option error * filesystem))
    (fs : filesystem) : option error * filesystem :=
  match tasks with
  | [] => (None, fs)
  | task :: rest =>
      match task fs with
      | (None, fs') => waterfall rest fs'
      | (Some err, fs') => (Some err, fs')
      end
  end.

(** [path.dirname] is left abstract: its value is only flushed. *)
Definition crashSafeWriteFile_tasks (dirname : string -> string)
    (filename data : string)
  : list (filesystem -> option error * filesystem) :=
  let tempFilename := filename ++ "~" in
  [ flushToStorage (FlushOptions (dirname filename) true);
    (fun fs => if storage_exists fs filename
               then flushToStorage (FlushName filename) fs
               else (None, fs));
    storage_writeFile tempFilename data;
    flushToStorage (FlushName tempFilename);
    storage_rename tempFilename filename;
    flushToStorage (FlushOptions (dirname filename) true) ].

Definition crashSafeWriteFile (dirname : string -> string)
    (filename data : string) (fs : filesystem) : option error * filesystem :=
  waterfall (crashSafeWriteFile_tasks dirname filename data) fs.

(** ** [deepCopy] on a document given as a value

    What [deepCopy] computes, without the identity of the objects: the
    heap version above returns a value that reads as this one. *)

(** [obj._bsontype === 'ObjectID']. *)
Definition isObjectIDTaggedValue (kvs : list (string * value)) : bool :=
  match assoc "_bsontype" kvs with
  | Some (VStr s) => (s =? "ObjectID")%string
  | _ => false
  end.

(** [!strictKeys || (k[0] !== '$' && k.indexOf('.') === -1)]. *)
Definition copiedKey (strictKeys : bool) (k : string) : bool :=
  negb strictKeys || (negb (firstCharIsDollar k) && negb (containsDot k)).

Fixpoint deepCopyValue (obj : value) (strictKeys : bool) : value :=
  match obj with
  | VArr l => VArr (map (fun o => deepCopyValue o strictKeys) l)
  | VObj kvs =>
      if isObjectIDTaggedValue kvs then obj
      else
        VObj ((fix each (kvs : list (string * value))
                 : list (string * value) :=
                 match kvs with
                 | [] => []
                 | (k, v) :: r =>
                     if copiedKey strictKeys k
                     then (k, deepCopyValue v strictKeys) :: each r
                     else each r
                 end) kvs)
  | _ => obj
  end.

(** No object of the value is tagged [_bsontype: 'ObjectID']. *)
Fixpoint untagged (v : value) : bool :=
  match v with
  | VArr l => forallb untagged l
  | VObj kvs =>
      negb (isObjectIDTaggedValue kvs)
      && forallb (fun kv => untagged (snd kv)) kvs
  | _ => true
  end.

(** A query value that is a number, a string or a boolean. *)
Definition isNSB (v : value) : bool :=
  match v with VNum _ | VStr _ | VBool _ => true | _ => false end.

(** Two numbers, two strings or two dates. *)
Definition alike (a b : value) : bool :=
  match a, b with
  | VNum _, VNum _ | VStr _, VStr _ | VDate _, VDate _ => true
  | _, _ => false
  end.

(** ** [getObjDotValue] *)

(** [name in obj], for an object, an array or a date: own properties
    only. *)
Definition hasProperty (obj : value) (name : string) : bool :=
  match obj with
  | VObj kvs => hasOwn kvs name
  | VArr l =>
      (name =? "length")%string
      || match indexOfKey name with
         | Some i => (i <? length l)%nat
         | None => false
         end
  | _ => false
  end.

(** [R.pick([name])(obj)]: the object that holds the property [name] of
    [obj] when [name in obj]; that test is a [TypeError] on a value that
    is not an object. *)
Definition pick (name : string) (obj : value) : result value :=
  match obj with
  | VObj _ | VArr _ | VDate _ =>
      Ok (VObj (if hasProperty obj name then [(name, getProp obj name)]
                else []))
  | _ => NotModelled
  end.

Fixpoint getObjDotValueParts (obj : value) (fieldParts : list string)
    {struct fieldParts} : result value :=
  if negb (truthy obj) then Ok VUndefined
  else
    match fieldParts with
    | [] => Ok obj
    | firstFieldPart :: rest =>
        if isUndefined (getProp obj firstFieldPart) then Ok (VObj [])
        else
          match rest with
          | [] => pick firstFieldPart obj
          | k :: rest' =>
              match getProp obj firstFieldPart with
              | VArr l =>
                  match parseInt10 k with
                  | Some i => getObjDotValueParts (arrayAt l i) rest'
                  | None =>
                      returnArray ←
                        mapM (fun el => getObjDotValueParts el rest) l;
                      let hasContent :=
                        existsb (fun v => negb (isUndefined v)
                                          && (0 <? length (objectKeys v))%nat)
                          returnArray in
                      Ok (VObj [(firstFieldPart,
                                 VArr (if hasContent then returnArray
                                       else []))])
                  end
              | v =>
                  r ← getObjDotValueParts v rest;
                  Ok (VObj [(firstFieldPart, r)])
              end
          end
    end.

Definition getObjDotValue (obj : value) (field : string) : result value :=
  getObjDotValueParts obj (splitDot field).

(** No property met on the way to the last part of the path is an array. *)
Fixpoint noArrayOn (obj : value) (fieldParts : list string) : bool :=
  match fieldParts with
  | [] => true
  | f :: rest =>
      match rest with
      | [] => true
      | _ => negb (isArray (getProp obj f)) && noArrayOn (getProp obj f) rest
      end
  end.

(** ** [compoundCompareThings] *)

Definition compoundCompareThings (fields : list string) (a b : value)
  : result Z :=
  match a, b with
  | VUndefined, VUndefined => Ok 0
  | VUndefined, _ => Ok (-1)
  | _, VUndefined => Ok 1
  | VNull, VNull => Ok 0
  | VNull, _ => Ok (-1)
  | _, VNull => Ok 1
  | _, _ =>
      (fix loop (fields : list string) : result Z :=
         match fields with
         | [] => Ok 0
         | f :: r =>
             comparison ← compareThings (getProp a f) (getProp b f) None;
             if comparison =? 0 then loop r else Ok comparison
         end) fields
  end.

(** [r] is the outcome [r'], unless the recursion budget ran out first. *)
Definition upTo {A} (r r' : result A) : Prop := r = OutOfFuel \/ r = r'.

(** ** [uniq] with an iterator *)

(** [map.set(k, v)] on the entries of a [Map], in insertion order: an
    existing key keeps its place. *)
Fixpoint mapSet {V} (k : string) (v : V) (m : list (string * V))
  : list (string * V) :=
  match m with
  | [] => [(k, v)]
  | (k', v') :: r =>
      if (k' =? k)%string then (k', v) :: r else (k', v') :: mapSet k v r
  end.

(** [uniq(array, iterator)] for an iterator that returns strings:
    [[...new Map(array.map(x => [iterator(x), x])).values()]]. *)
Definition uniqBy {A} (iterator : A -> string) (array : list A) : list A :=
  map snd (fold_left (fun m x => mapSet (iterator x) x m) array []).

(** ** Objects as JavaScript has them: no property name twice *)

Fixpoint noRepeat (l : list string) : bool :=
  match l with
  | [] => true
  | x :: r => negb (existsb (String.eqb x) r) && noRepeat r
  end.

Fixpoint distinctKeys (v : value) : bool :=
  match v with
  | VArr l => forallb distinctKeys l
  | VObj kvs =>
      noRepeat (map fst kvs) && forallb (fun kv => distinctKeys (snd kv)) kvs
  | _ => true
  end.

(** No [undefined] in the value, at any depth. *)
Fixpoint noUndefined (v : value) : bool :=
  match v with
  | VUndefined => false
  | VArr l => forallb noUndefined l
  | VObj kvs => forallb (fun kv => noUndefined (snd kv)) kvs
  | _ => true
  end.

(** ** The integer a path component denotes

    What [parseInt(s, 10)] reads, said on the characters of [s] and with
    the decimal numerals of the standard library: white space, an optional
    sign, at least one decimal digit, and then anything that does not
    continue the digits. *)





(** ** Numbers that are not finite, dates that are not valid

    [value] holds no [NaN], no infinity and no invalid date. What
    [serialize] writes for them is modelled on [wide] values, which may
    hold one wherever a [value] holds a number or a date. *)

Inductive wide : Type :=
| WUndefined
| WNull
| WBool (b : bool)
| WNum (n : Z)
| WNaN
| WInfinity (negative : bool)
| WStr (s : string)
| WDate (t : Z)
| WInvalidDate
| WArr (l : list wide)
| WObj (kvs : list (string * wide)).

Module Wide.

Fixpoint ofValue (v : value) : wide :=
  match v with
  | VUndefined => WUndefined
  | VNull => WNull
  | VBool b => WBool b
  | VNum n => WNum n
  | VStr s => WStr s
  | VDate t => WDate t
  | VArr l => WArr (map ofValue l)
  | VObj kvs => WObj (map (fun kv => (fst kv, ofValue (snd kv))) kvs)
  end.

(** [typeof v === 'number']. *)
Definition isNumber (v : wide) : bool :=
  match v with WNum _ | WNaN | WInfinity _ => true | _ => false end.

Definition isTrue (v : wide) : bool :=
  match v with WBool true => true | _ => false end.

Definition dollarRejected (k : string) (v : wide) : bool :=
  firstCharIsDollar k
  && negb ((k =? "$$date")%string && isNumber v)
  && negb ((k =? "$$deleted")%string && isTrue v)
  && negb (k =? "$$indexCreated")%string
  && negb (k =? "$$indexRemoved")%string
  && negb (k =? "$numberDecimal")%string.

Definition checkKey (k : string) (v : wide) : result unit :=
  if dollarRejected k v
  then Throw (Error "Field names cannot begin with the $ character")
  else if containsDot k
  then Throw (Error "Field names cannot contain a .")
  else Ok tt.

(** The value handed to the replacer: [toJSON] of a date is its ISO string,
    and [null] when the date is not valid. *)
Definition afterToJSON (v : wide) : wide :=
  match v with
  | WDate t => WStr (toISOString t)
  | WInvalidDate => WNull
  | _ => v
  end.

(** The replacer of [serialize]; [getTime] of an invalid date is [NaN]. *)
Definition serialize_replacer (k : string) (held v : wide) : result wide :=
  _ ← checkKey k v;
  match v with
  | WUndefined => Ok WUndefined
  | WNull => Ok WNull
  | _ =>
      match held with
      | WDate t => Ok (WObj [("$$date", WNum t)])
      | WInvalidDate => Ok (WObj [("$$date", WNaN)])
      | _ => Ok v
      end
  end.

(** [JSON.stringify] writes a number that is not finite as [null]. *)
Definition stringify_body
    (rec : string -> wide -> result (option json))
    (replacer : string -> wide -> wide -> result wide)
    (k : string) (held : wide) : result (option json) :=
  v ← replacer k held (afterToJSON held);
  match v with
  | WUndefined => Ok None
  | WNull => Ok (Some JNull)
  | WBool b => Ok (Some (JBool b))
  | WNum n => Ok (Some (JNum n))
  | WNaN | WInfinity _ => Ok (Some JNull)
  | WStr s => Ok (Some (JStr s))
  | WDate _ | WInvalidDate => Ok (Some (JObj []))
  | WArr l =>
      elements ← mapM (fun ix : nat * wide =>
                         r ← rec (keyOfIndex (fst ix)) (snd ix);
                         Ok (default JNull r)) (indexed l);
      Ok (Some (JArr elements))
  | WObj kvs =>
      members ← mapM (fun kv : string * wide =>
                        r ← rec (fst kv) (snd kv);
                        Ok (option_map (fun j => (fst kv, j)) r)) kvs;
      Ok (Some (JObj (omap id members)))
  end.

Fixpoint stringify_fuel (fuel : nat)
    (replacer : string -> wide -> wide -> result wide)
    (k : string) (held : wide) : result (option json) :=
  match fuel with
  | O => OutOfFuel
  | S fuel' =>
      stringify_body (stringify_fuel fuel' replacer) replacer k held
  end.

Fixpoint depth (v : wide) : nat :=
  match v with
  | WArr l => S (list_max (map depth l))
  | WObj kvs => S (list_max (map (fun kv => depth (snd kv)) kvs))
  | _ => O
  end.

Definition serialize (obj : wide) : result (option json) :=
  stringify_fuel (depth obj + 2) serialize_replacer "" obj.

End Wide.

(** ** Where the embedding and the language agree on objects and sums

    Assigning to the name [__proto__] sets the prototype of an object and
    creates no property; the embedding, which has no prototypes, is used
    on values that have no own property of that name, at any depth. *)
Fixpoint noProto (v : value) : bool :=
  match v with
  | VArr l => forallb noProto l
  | VObj kvs =>
      negb (hasOwn kvs "__proto__")
      && forallb (fun kv => noProto (snd kv)) kvs
  | _ => true
  end.

(** [Number.isSafeInteger]: sums of such integers that are such integers
    are exact. *)
Definition isSafeInteger (n : Z) : bool := Z.abs n <=? 9007199254740991.

(** * Properties *)

(** ** Key validation *)

(** [KeyAt doc k v]: the object key [k], holding [v], occurs in [doc] at some
    nesting depth (inside objects and arrays). *)
Inductive KeyAt : value -> string -> value -> Prop :=
| KeyHere kvs k v : In (k, v) kvs -> KeyAt (VObj kvs) k v
| KeyInObj kvs k' v' k v :
    In (k', v') kvs -> KeyAt v' k v -> KeyAt (VObj kvs) k v
| KeyInArr l x k v : In x l -> KeyAt x k v -> KeyAt (VArr l) k v.

(** The reserved shapes as the specification lists them: a leading [$]
    other than [$$date] with a number, [$$deleted] with [true],
    [$$indexCreated], [$$indexRemoved]; or a dot anywhere. *)
Definition reservedBySpec (k : string) (v : value) : bool :=
  (firstCharIsDollar k
   && negb ((k =? "$$date")%string && isNumber v)
   && negb ((k =? "$$deleted")%string && isTrue v)
   && negb (k =? "$$indexCreated")%string
   && negb (k =? "$$indexRemoved")%string)
  || containsDot k.

(** The reserved shapes as [checkKey] tests them: [$numberDecimal] is
    admitted too. *)
Definition reservedByCode (k : string) (v : value) : bool :=
  dollarRejected k v || containsDot k.

Lemma checkKey_ok_iff k v : checkKey k v = Ok tt <-> reservedByCode k v = false.
Proof.
  unfold checkKey, reservedByCode.
  destruct (dollarRejected k v); simpl; [split; discriminate|].
  destruct (containsDot k); split; (discriminate || reflexivity).
Qed.

Lemma checkKey_throw_iff k v : throws (checkKey k v) <-> reservedByCode k v = true.
Proof.
  unfold throws, checkKey, reservedByCode.
  destruct (dollarRejected k v); simpl; [split; eauto|].
  destruct (containsDot k); split; eauto; try discriminate.
  intros [e He]; discriminate.
Qed.

Lemma checkKey_cases k v : checkKey k v = Ok tt \/ throws (checkKey k v).
Proof.
  unfold throws, checkKey.
  destruct (dollarRejected k v); [right; eauto|].
  destruct (containsDot k); [right; eauto | left; reflexivity].
Qed.

Lemma checkObject_cases doc : checkObject doc = Ok tt \/ throws (checkObject doc).
Proof.
  induction doc using value_nested_ind; simpl; try (left; reflexivity).
  - induction H as [|x r Hx _ IH]; [left; reflexivity|].
    destruct Hx as [-> | [e ->]]; simpl; [exact IH | right; eexists; reflexivity].
  - induction H as [|[k v] r Hx _ IH]; [left; reflexivity|]. simpl in Hx.
    destruct (checkKey_cases k v) as [-> | [e ->]]; simpl;
      [|right; eexists; reflexivity].
    destruct Hx as [-> | [e ->]]; simpl; [exact IH | right; eexists; reflexivity].
Qed.

Lemma checkObject_arr_ok l :
  checkObject (VArr l) = Ok tt <-> Forall (fun x => checkObject x = Ok tt) l.
Proof.
  simpl. induction l as [|x r IH]; [split; auto|].
  destruct (checkObject_cases x) as [Hx | [e Hx]]; rewrite Hx; simpl.
  - rewrite IH. split; [intros; constructor; auto | inversion 1; auto].
  - split; [discriminate | inversion 1; congruence].
Qed.

Lemma checkObject_obj_ok kvs :
  checkObject (VObj kvs) = Ok tt <->
  Forall (fun kv => checkKey (fst kv) (snd kv) = Ok tt
                    /\ checkObject (snd kv) = Ok tt) kvs.
Proof.
  simpl. induction kvs as [|[k v] r IH]; [split; auto|].
  destruct (checkKey_cases k v) as [Hk | [e Hk]]; rewrite Hk; simpl.
  - destruct (checkObject_cases v) as [Hx | [e Hx]]; rewrite Hx; simpl.
    + rewrite IH. split; [intros; constructor; auto | inversion 1; auto].
    + split; [discriminate | inversion 1; simpl in *; intuition congruence].
  - split; [discriminate | inversion 1; simpl in *; intuition congruence].
Qed.

Lemma checkObject_ok_iff doc :
  checkObject doc = Ok tt <->
  forall k v, KeyAt doc k v -> reservedByCode k v = false.
Proof.
  induction doc using value_nested_ind;
    try (split; [intros _ k v Hk; inversion Hk | reflexivity]).
  - rewrite checkObject_arr_ok. split.
    + intros Hall k v Hk. inversion Hk; subst.
      rewrite List.Forall_forall in H, Hall.
      apply (H x); auto.
    + intros Hk. rewrite List.Forall_forall in *. intros x Hx.
      apply H; auto. intros k v Hkv. apply Hk. econstructor; eauto.
  - rewrite checkObject_obj_ok. split.
    + intros Hall k v Hk. rewrite List.Forall_forall in H, Hall.
      inversion Hk; subst.
      * apply checkKey_ok_iff. apply (Hall (k, v)); auto.
      * apply (H (k', v')); auto; apply (Hall (k', v')); auto.
    + intros Hk. rewrite List.Forall_forall in *. intros [k v] Hx. simpl. split.
      * apply checkKey_ok_iff. apply Hk. constructor; auto.
      * apply (H (k, v)); auto. intros k0 v0 Hkv. apply Hk.
        eapply KeyInObj; eauto.
Qed.

Lemma checkObject_throw_key doc :
  throws (checkObject doc) ->
  exists k v, KeyAt doc k v /\ reservedByCode k v = true.
Proof.
  induction doc using value_nested_ind; simpl;
    try (intros [e He]; discriminate).
  - induction H as [|x r Hx _ IH]; [intros [e He]; discriminate|].
    destruct (checkObject_cases x) as [Hok | Hth].
    + rewrite Hok; simpl. intros Hr. destruct (IH Hr) as (k & v & Hk & Hres).
      exists k, v. split; [|exact Hres].
      inversion Hk; subst. econstructor; [right|]; eauto.
    + intros _. destruct (Hx Hth) as (k & v & Hk & Hres).
      exists k, v. split; [|exact Hres]. econstructor; [left|]; eauto.
  - induction H as [|[k0 v0] r Hx _ IH]; [intros [e He]; discriminate|].
    simpl in Hx.
    destruct (checkKey_cases k0 v0) as [Hkok | Hkth].
    + rewrite Hkok; simpl.
      destruct (checkObject_cases v0) as [Hok | Hth].
      * rewrite Hok; simpl. intros Hr. destruct (IH Hr) as (k & v & Hk & Hres).
        exists k, v. split; [|exact Hres].
        inversion Hk; subst;
          [apply KeyHere; right; auto | eapply KeyInObj; [right|]; eauto].
      * intros _. destruct (Hx Hth) as (k & v & Hk & Hres).
        exists k, v. split; [|exact Hres]. eapply KeyInObj; [left|]; eauto.
    + intros _. exists k0, v0. split; [apply KeyHere; left; auto|].
      apply checkKey_throw_iff; exact Hkth.
Qed.

(** C6, as the specification words it, fails: a key [$numberDecimal] begins
    with [$] and is none of the four listed forms, yet [checkObject] accepts
    the document. *)
Lemma checkObject_accepts_numberDecimal :
  let doc := VObj [("price", VObj [("$numberDecimal", VStr "12")])] in
  checkObject doc = Ok tt
  /\ KeyAt doc "$numberDecimal" (VStr "12")
  /\ reservedBySpec "$numberDecimal" (VStr "12") = true.
Proof.
  repeat split.
  eapply KeyInObj; [left; reflexivity|]. apply KeyHere. left; reflexivity.
Qed.

(** C6 (amended): [checkObject doc] throws exactly when some key of [doc], at
    any depth and also inside arrays, begins with [$] without being one of
    the admitted forms ([$$date] with a number, [$$deleted] with [true],
    [$$indexCreated], [$$indexRemoved], [$numberDecimal]) or contains a dot;
    it returns normally otherwise. *)
Theorem checkObject_throws_iff_reserved_key (doc : value) :
  (throws (checkObject doc) <->
   exists k v, KeyAt doc k v /\ reservedByCode k v = true)
  /\ (checkObject doc = Ok tt <->
      forall k v, KeyAt doc k v -> reservedByCode k v = false).
Proof.
  split; [|apply checkObject_ok_iff].
  split; [apply checkObject_throw_key|].
  intros (k & v & Hk & Hres).
  destruct (checkObject_cases doc) as [Hok | Hth]; [|exact Hth].
  rewrite checkObject_ok_iff in Hok. rewrite (Hok k v Hk) in Hres. discriminate.
Qed.

(** ** Datafile recovery *)

Lemma append_tilde_neq (s : string) : s ++ "~" <> s.
Proof.
  induction s as [|c s IH]; simpl; [discriminate|].
  intros H. injection H as H. exact (IH H).
Qed.

(** C7: [ensureDatafileIntegrity] reports no error and performs exactly one
    of three cases: if the datafile [F] exists the file system is unchanged;
    otherwise, if the temporary file [F~] exists it is renamed to [F], so
    that [F] holds its content, [F~] is gone and every other file is
    untouched; otherwise an empty [F] is created. In every case [F] exists
    afterwards. *)
Theorem ensureDatafileIntegrity_three_cases (F : string) (fs : filesystem) :
  let (err, fs') := ensureDatafileIntegrity F fs in
  err = None
  /\ is_Some (fs' !! F)
  /\ match fs !! F with
     | Some _ => fs' = fs
     | None =>
         match fs !! (F ++ "~") with
         | Some old =>
             fs' !! F = Some old
             /\ fs' !! (F ++ "~") = None
             /\ (forall p, p <> F -> p <> F ++ "~" -> fs' !! p = fs !! p)
         | None => fs' = <[F := ""]> fs
         end
     end.
Proof.
  unfold ensureDatafileIntegrity, storage_exists, storage_writeFile,
    storage_rename.
  pose proof (append_tilde_neq F) as Hne.
  destruct (fs !! F) as [c|] eqn:HF.
  - rewrite bool_decide_eq_true_2 by eauto.
    repeat split. rewrite HF; eauto.
  - rewrite bool_decide_eq_false_2 by (intros [x Hx]; discriminate).
    destruct (fs !! (F ++ "~")) as [old|] eqn:HT; simpl.
    + repeat split.
      * rewrite lookup_insert_eq. eauto.
      * apply lookup_insert_eq.
      * rewrite lookup_insert_ne by congruence. apply lookup_delete_eq.
      * intros p Hp Hp'. rewrite lookup_insert_ne by congruence.
        apply lookup_delete_ne. congruence.
    + repeat split. rewrite lookup_insert_eq. eauto.
Qed.

(** ** Dotted-path resolution *)

Lemma splitDot_nonempty s : splitDot s <> [].
Proof.
  destruct s as [|c s]; simpl; [discriminate|].
  destruct (Ascii.eqb c "."); [discriminate|].
  destruct (splitDot s); discriminate.
Qed.

Lemma splitDot_dotfree s : containsDot s = false -> splitDot s = [s].
Proof.
  induction s as [|c s IH]; simpl; [reflexivity|].
  destruct (Ascii.eqb c "."); simpl; [discriminate|].
  intros H. rewrite (IH H). reflexivity.
Qed.




(** *** [parseInt10] reads exactly the integers of [readsInteger] *)
















(** ** The comparator across types *)

(** Position of a value's type in the documented hierarchy
    undefined, null, number, string, boolean, date, array, object. *)
Definition rank (v : value) : nat :=
  match v with
  | VUndefined => 0
  | VNull => 1
  | VNum _ => 2
  | VStr _ => 3
  | VBool _ => 4
  | VDate _ => 5
  | VArr _ => 6
  | VObj _ => 7
  end.

Lemma mongoIdToString_plain a : isMongoId a = Ok false -> mongoIdToString a = Ok a.
Proof. unfold mongoIdToString. intros ->. reflexivity. Qed.

(** Where [isMongoId] answers [false] for both operands, the comparator
    orders values of different types by the hierarchy. *)
Lemma compareThings_cross_type a b cs :
  isMongoId a = Ok false -> isMongoId b = Ok false -> rank a <> rank b ->
  exists c, compareThings a b cs = Ok c
            /\ (c < 0 <-> (rank a < rank b)%nat)
            /\ (0 < c <-> (rank b < rank a)%nat).
Proof.
  intros Ha Hb Hr. unfold compareThings. simpl compareThings_fuel.
  unfold compareThings_body.
  rewrite (mongoIdToString_plain a Ha), (mongoIdToString_plain b Hb). simpl.
  destruct a, b; simpl in *; try congruence;
    (exists (-1); split; [reflexivity|split; split; intros; lia])
    || (exists 1; split; [reflexivity|split; split; intros; lia]).
Qed.

(** C3 (the input on which the code departs from it): comparing [null] with
    a value of another type throws instead of ordering the pair, because
    [isMongoId] reads [null.constructor]. *)
Theorem compareThings_null_throws :
  compareThings VNull (VNum 1) None
  = Throw (TypeError "Cannot read properties of null (reading 'constructor')")
  /\ compareThings (VStr "a") VNull None
     = Throw (TypeError "Cannot read properties of null (reading 'constructor')")
  /\ compareThings VUndefined VNull None
     = Throw (TypeError "Cannot read properties of null (reading 'constructor')").
Proof. repeat split. Qed.

(** ** Comparison operators on mismatched operands *)

Lemma areComparable_true_iff a b :
  areComparable a b = true <->
  (isString a = true /\ isString b = true)
  \/ (isNumber a = true /\ isNumber b = true)
  \/ (typeof a = TObject /\ typeof b = TObject
      /\ (isDate a = true \/ isDate b = true)).
Proof.
  destruct a, b; simpl; split; intros H; try discriminate; auto;
    repeat match goal with
      | H : _ \/ _ |- _ => destruct H
      | H : _ /\ _ |- _ => destruct H
      end; try discriminate; auto 10.
Qed.

(** The four operators answer [false] whenever [areComparable] does. *)
Lemma comparison_not_comparable_false a b :
  areComparable a b = false ->
  comparisonFunctions_lt a b = Ok false
  /\ comparisonFunctions_lte a b = Ok false
  /\ comparisonFunctions_gt a b = Ok false
  /\ comparisonFunctions_gte a b = Ok false.
Proof.
  unfold comparisonFunctions_lt, comparisonFunctions_lte,
    comparisonFunctions_gt, comparisonFunctions_gte.
  intros ->. auto.
Qed.

(** C8 (the input on which the code departs from it): a date and [null]
    both have [typeof] ['object'], so [areComparable] lets the pair through
    and the operators compare the date's time with [0]. *)
Theorem comparison_date_with_null_is_coerced :
  areComparable (VDate 5) VNull = true
  /\ comparisonFunctions_gt (VDate 5) VNull = Ok true
  /\ comparisonFunctions_gte (VDate 5) VNull = Ok true
  /\ comparisonFunctions_lt (VDate (-5)) VNull = Ok true
  /\ comparisonFunctions_lte (VDate (-5)) VNull = Ok true.
Proof. repeat split. Qed.

(** ** Serialization round trip *)

(** A key that is not reserved: no leading [$], no dot. *)
Definition validKey (k : string) : bool :=
  negb (firstCharIsDollar k) && negb (containsDot k).



Lemma digits_no_dot d : containsDot (NilEmpty.string_of_uint d) = false.
Proof. induction d; simpl; auto. Qed.

Lemma keyOfIndex_valid i : validKey (keyOfIndex i) = true.
Proof.
  unfold validKey, keyOfIndex, NilZero.string_of_uint.
  destruct (Nat.to_uint i) eqn:E; try reflexivity;
    simpl; rewrite digits_no_dot; reflexivity.
Qed.

Lemma validKey_checkKey k v : validKey k = true -> checkKey k v = Ok tt.
Proof.
  unfold validKey, checkKey, dollarRejected.
  destruct (firstCharIsDollar k); [discriminate|].
  destruct (containsDot k); [discriminate|]. reflexivity.
Qed.





Lemma depth_arr_elem l x : In x l -> (depth x < depth (VArr l))%nat.
Proof.
  intros Hin. simpl.
  assert (depth x <= list_max (map depth l))%nat; [|lia].
  induction l as [|y r IH]; [destruct Hin|]. simpl.
  destruct Hin as [->|Hin]; [lia|]. specialize (IH Hin). lia.
Qed.

Lemma depth_obj_elem kvs k x : In (k, x) kvs -> (depth x < depth (VObj kvs))%nat.
Proof.
  intros Hin. simpl.
  assert (depth x <= list_max (map (fun kv => depth (snd kv)) kvs))%nat; [|lia].
  induction kvs as [|y r IH]; [destruct Hin|]. simpl.
  destruct Hin as [->|Hin]; [simpl; lia|]. specialize (IH Hin). lia.
Qed.







(** *** Leaves that do not come back *)

Lemma ofValue_depth d : Wide.depth (Wide.ofValue d) = depth d.
Proof.
  induction d using value_nested_ind; try reflexivity; simpl; f_equal.
  - induction H as [|x r Hx _ IH]; [reflexivity|].
    simpl. rewrite Hx, IH. reflexivity.
  - induction H as [|x r Hx _ IH]; [reflexivity|].
    simpl. rewrite Hx, IH. reflexivity.
Qed.

Lemma ofValue_checkKey k v : Wide.checkKey k (Wide.ofValue v) = checkKey k v.
Proof. destruct v as [| |[|]| | | | |]; reflexivity. Qed.

Lemma ofValue_replacer k held :
  Wide.serialize_replacer k (Wide.ofValue held)
    (Wide.afterToJSON (Wide.ofValue held))
  = Wide.ofValue <$> serialize_replacer k held (afterToJSON held).
Proof.
  unfold Wide.serialize_replacer, serialize_replacer.
  replace (Wide.afterToJSON (Wide.ofValue held))
    with (Wide.ofValue (afterToJSON held)) by (destruct held; reflexivity).
  rewrite ofValue_checkKey.
  destruct (checkKey k (afterToJSON held)) as [[]| | |]; try reflexivity.
  destruct held; reflexivity.
Qed.

Lemma mapM_ext_in {A B} (f g : A -> result B) l :
  (forall x, In x l -> f x = g x) -> mapM f l = mapM g l.
Proof.
  induction l as [|x r IH]; intros H; [reflexivity|]. simpl.
  rewrite (H x (or_introl eq_refl)), IH; [reflexivity|].
  intros y Hy. apply H. right. exact Hy.
Qed.

Lemma mapM_map {A B C} (f : B -> result C) (g : A -> B) l :
  mapM f (map g l) = mapM (fun x => f (g x)) l.
Proof.
  induction l as [|x r IH]; [reflexivity|]. simpl. rewrite IH. reflexivity.
Qed.

Lemma indexed_map {A B} (g : A -> B) (l : list A) :
  indexed (map g l) = map (fun ix => (fst ix, g (snd ix))) (indexed l).
Proof.
  unfold indexed. rewrite length_map. generalize 0%nat.
  induction l as [|x r IH]; intros n; [reflexivity|]. simpl.
  rewrite IH. reflexivity.
Qed.

(** On the values of [value], the two serializers are one. *)
Lemma ofValue_stringify fuel : forall k held,
  Wide.stringify_fuel fuel Wide.serialize_replacer k (Wide.ofValue held)
  = stringify_fuel fuel serialize_replacer k held.
Proof.
  induction fuel as [|fuel IH]; intros k held; [reflexivity|].
  cbn [Wide.stringify_fuel stringify_fuel].
  unfold Wide.stringify_body, stringify_body.
  rewrite ofValue_replacer.
  destruct (serialize_replacer k held (afterToJSON held)) as [v| | |];
    try reflexivity.
  cbn [fmap result_fmap mbind result_bind].
  destruct v as [| | | | | |l|kvs]; try reflexivity; cbn [Wide.ofValue].
  - rewrite indexed_map, mapM_map.
    rewrite (mapM_ext_in _ (fun ix : nat * value =>
               r ← stringify_fuel fuel serialize_replacer
                     (keyOfIndex (fst ix)) (snd ix);
               Ok (default JNull r)))
      by (intros ix _; cbn [fst snd]; rewrite IH; reflexivity).
    reflexivity.
  - rewrite mapM_map.
    rewrite (mapM_ext_in _ (fun kv : string * value =>
               r ← stringify_fuel fuel serialize_replacer (fst kv) (snd kv);
               Ok (option_map (fun j => (fst kv, j)) r)))
      by (intros kv _; cbn [fst snd]; rewrite IH; reflexivity).
    reflexivity.
Qed.

Lemma ofValue_serialize d : Wide.serialize (Wide.ofValue d) = serialize d.
Proof.
  unfold Wide.serialize, serialize. rewrite ofValue_depth.
  apply ofValue_stringify.
Qed.


(** ** Array modifiers: [$addToSet] and [$pullAll] *)

Lemma assoc_replaceProp_same {A} k (x : A) kvs :
  hasOwn kvs k = true -> assoc k (replaceProp k x kvs) = Some x.
Proof.
  unfold hasOwn. induction kvs as [|[k' v'] r IH]; simpl; [discriminate|].
  destruct (String.eqb_spec k' k) as [->|Hne]; simpl.
  - rewrite String.eqb_refl. reflexivity.
  - destruct (String.eqb_spec k' k); [congruence|]. exact IH.
Qed.

Lemma assoc_replaceProp_other {A} k (x : A) kvs k0 :
  k0 <> k -> assoc k0 (replaceProp k x kvs) = assoc k0 kvs.
Proof.
  intros Hne. induction kvs as [|[k' v'] r IH]; simpl; [reflexivity|].
  destruct (String.eqb_spec k' k) as [->|Hne']; simpl.
  - destruct (String.eqb_spec k k0); [congruence|reflexivity].
  - rewrite IH. reflexivity.
Qed.

Lemma assoc_hasOwn {A} k kvs (x : A) : assoc k kvs = Some x -> hasOwn kvs k = true.
Proof. unfold hasOwn. intros ->. reflexivity. Qed.

(** Assigning an existing property changes that property only. *)
Lemma setOwn_existing {A} kvs k (x : A) :
  hasOwn kvs k = true ->
  assoc k (setOwn kvs k x) = Some x
  /\ (forall k0, k0 <> k -> assoc k0 (setOwn kvs k x) = assoc k0 kvs)
  /\ map fst (setOwn kvs k x) = map fst kvs.
Proof.
  intros H. unfold setOwn. rewrite H. split; [|split].
  - apply assoc_replaceProp_same; exact H.
  - intros k0 Hne. apply assoc_replaceProp_other; exact Hne.
  - clear H. induction kvs as [|[k' v'] r IH]; simpl; [reflexivity|].
    destruct (String.eqb_spec k' k) as [->|Hne]; simpl; [reflexivity|].
    rewrite IH. reflexivity.
Qed.

(** Does some element of [arr] compare equal to [v] under [compareThings]? *)
Definition comparesEqualToSome (arr : list value) (v : value) : bool :=
  existsb (fun e => match compareThings e v None with
                    | Ok c => c =? 0
                    | _ => false
                    end) arr.

Lemma addToSet_scan arr v init :
  Forall (fun e => exists c, compareThings e v None = Ok c) arr ->
  forEachM (fun (addToSet : bool) x =>
              c ← compareThings x v None;
              Ok (if c =? 0 then false else addToSet)) init arr
  = Ok (init && negb (comparesEqualToSome arr v)).
Proof.
  unfold comparesEqualToSome. intros H. revert init.
  induction H as [|e r [c Hc] _ IH]; intros init; simpl.
  - rewrite andb_true_r. reflexivity.
  - rewrite Hc. simpl. rewrite IH. destruct (c =? 0); simpl.
    + rewrite andb_false_r. reflexivity.
    + reflexivity.
Qed.

(** C4: [$addToSet] leaves out a value that is not in the array. [{b: 1}]
    is not deep-equal to the element [{a: 1}] ([areThingsEqual] answers
    [false]), yet [$addToSet] does not append it: it tests the elements
    with [compareThings], which compares two objects by the values under
    their sorted keys and by the number of keys, never by the keys
    themselves. The comment of the function says that the element is added
    when it is not already in the array. *)
Lemma addToSet_skips_value_not_deep_equal :
  lastStep_addToSet [("f", VArr [VObj [("a", VNum 1)]])] "f"
    (VObj [("b", VNum 1)])
  = Ok [("f", VArr [VObj [("a", VNum 1)]])]
  /\ areThingsEqual (VObj [("a", VNum 1)]) (VObj [("b", VNum 1)]) = Ok false.
Proof. split; reflexivity. Qed.

(** What [$addToSet] tests instead: on an object whose field [f] holds the
    array [arr], and for a value [v] that is not an [$each] request,
    [$addToSet] appends [v] to the array exactly when no element compares
    equal to [v] under [compareThings]; when some element compares equal,
    the object is left as it was. Every other field is untouched. This is
    stated for arrays whose elements the comparator can compare with [v]. *)
Theorem addToSet_appends_iff_no_element_compares_equal
    (obj : list (string * value)) (f : string) (arr : list value) (v : value) :
  assoc f obj = Some (VArr arr) ->
  isNonNullObject v && truthy (getProp v "$each") = false ->
  Forall (fun e => exists c, compareThings e v None = Ok c) arr ->
  exists obj',
    lastStep_addToSet obj f v = Ok obj'
    /\ (comparesEqualToSome arr v = true -> obj' = obj)
    /\ (comparesEqualToSome arr v = false ->
        assoc f obj' = Some (VArr (arr ++ [v]))
        /\ (forall k, k <> f -> assoc k obj' = assoc k obj)
        /\ map fst obj' = map fst obj).
Proof.
  intros Hf Heach Hcmp.
  pose proof (assoc_hasOwn _ _ _ Hf) as Hown.
  unfold lastStep_addToSet. simpl lastStep_addToSet_fuel.
  unfold lastStep_addToSet_body. rewrite Hown. simpl getProp. rewrite Hf.
  simpl default. rewrite Heach.
  rewrite (addToSet_scan arr v true Hcmp). simpl.
  destruct (comparesEqualToSome arr v); simpl.
  - exists obj. split; [reflexivity|]. split; [reflexivity|discriminate].
  - eexists. split; [reflexivity|]. split; [discriminate|]. intros _.
    apply setOwn_existing; exact Hown.
Qed.

Lemma addToSet_appends_iff_no_element_compares_equal_witness :
  exists obj',
    lastStep_addToSet [("_id", VStr "a"); ("tags", VArr [VStr "x"; VNum 2])]
      "tags" (VStr "y") = Ok obj'
    /\ (comparesEqualToSome [VStr "x"; VNum 2] (VStr "y") = true ->
        obj' = [("_id", VStr "a"); ("tags", VArr [VStr "x"; VNum 2])])
    /\ (comparesEqualToSome [VStr "x"; VNum 2] (VStr "y") = false ->
        assoc "tags" obj' = Some (VArr ([VStr "x"; VNum 2] ++ [VStr "y"]))
        /\ (forall k, k <> "tags" ->
              assoc k obj'
              = assoc k [("_id", VStr "a"); ("tags", VArr [VStr "x"; VNum 2])])
        /\ map fst obj' = map fst [("_id", VStr "a"); ("tags", VArr [VStr "x"; VNum 2])]).
Proof.
  apply (addToSet_appends_iff_no_element_compares_equal
           [("_id", VStr "a"); ("tags", VArr [VStr "x"; VNum 2])]
           "tags" [VStr "x"; VNum 2] (VStr "y")).
  - reflexivity.
  - reflexivity.
  - repeat constructor; eexists; reflexivity.
Defined.









(** ** The frame of [modify] *)

Section frame.
Context (P : gset loc).

Lemma unchangedOn_refl h : unchangedOn P h h.
Proof. intros l _. reflexivity. Qed.

Lemma unchangedOn_trans h1 h2 h3 :
  unchangedOn P h1 h2 -> unchangedOn P h2 h3 -> unchangedOn P h1 h3.
Proof. intros H12 H23 l Hl. rewrite (H23 l Hl). apply H12; exact Hl. Qed.

Lemma safeQ_ret {A} (Q : A -> Prop) a : Q a -> safeQ P Q (mret a).
Proof.
  intros Ha h Hinv r h' Hrun. injection Hrun as <- <-.
  split; [exact Hinv|]. split; [apply unchangedOn_refl|].
  intros a' Heq. injection Heq as <-. exact Ha.
Qed.

Lemma safeQ_liftR {A} (Q : A -> Prop) (r : result A) :
  (forall a, r = Ok a -> Q a) -> safeQ P Q (liftR r).
Proof.
  intros Ha h Hinv r' h' Hrun. injection Hrun as <- <-.
  split; [exact Hinv|]. split; [apply unchangedOn_refl|exact Ha].
Qed.

Lemma safeQ_throw {A} (Q : A -> Prop) e : safeQ P Q (throwM e).
Proof. apply safeQ_liftR. intros a Ha. discriminate. Qed.

Lemma safeQ_bind {A B} (Q1 : A -> Prop) (Q2 : B -> Prop) (m : M A) (f : A -> M B) :
  safeQ P Q1 m -> (forall a, Q1 a -> safeQ P Q2 (f a)) -> safeQ P Q2 (m ≫= f).
Proof.
  intros Hm Hf h Hinv r h' Hrun. unfold mbind, M_bind in Hrun.
  destruct (m h) as [r1 h1] eqn:E1.
  destruct (Hm h Hinv r1 h1 E1) as (Hinv1 & Hun1 & HQ1).
  destruct r1 as [a|e| |].
  - destruct (Hf a (HQ1 a eq_refl) h1 Hinv1 r h' Hrun) as (Hinv2 & Hun2 & HQ2).
    split; [exact Hinv2|]. split; [|exact HQ2].
    eapply unchangedOn_trans; eassumption.
  - injection Hrun as <- <-.
    split; [exact Hinv1|]. split; [exact Hun1|]. intros a Ha; discriminate.
  - injection Hrun as <- <-.
    split; [exact Hinv1|]. split; [exact Hun1|]. intros a Ha; discriminate.
  - injection Hrun as <- <-.
    split; [exact Hinv1|]. split; [exact Hun1|]. intros a Ha; discriminate.
Qed.

Lemma safeQ_conseq {A} (Q1 Q2 : A -> Prop) (m : M A) :
  safeQ P Q1 m -> (forall a, Q1 a -> Q2 a) -> safeQ P Q2 m.
Proof.
  intros Hm Himp h Hinv r h' Hrun.
  destruct (Hm h Hinv r h' Hrun) as (H1 & H2 & H3).
  split; [exact H1|]. split; [exact H2|]. auto.
Qed.

Lemma safe_ret {A} `{Clean A} (a : A) : clean P a -> safe P (mret a).
Proof. apply safeQ_ret. Qed.

Lemma safe_bind {A B} `{Clean A, Clean B} (m : M A) (f : A -> M B) :
  safe P m -> (forall a, clean P a -> safe P (f a)) -> safe P (m ≫= f).
Proof. apply safeQ_bind. Qed.

Lemma safe_throw {A} `{Clean A} e : safe P (throwM e : M A).
Proof. apply safeQ_throw. Qed.

Lemma safe_liftR {A} `{Clean A} (r : result A) :
  (forall a, clean P a) -> safe P (liftR r).
Proof. intros Ha. apply safeQ_liftR. auto. Qed.

Lemma safe_liftR_fail {A} `{Clean A} (r : result A) :
  (forall a, r <> Ok a) -> safe P (liftR r).
Proof. intros Ha. apply safeQ_liftR. intros a Hr. destruct (Ha a Hr). Qed.

(** Reading any object: what is known of it depends on where it lives. *)
Lemma safeQ_hread_any l :
  safeQ P (fun o => (l ∉ P -> cleanObj P o)
                    /\ (l ∈ P -> sharedByCopy o = false)) (hread l).
Proof.
  intros h Hinv r h' Hrun. unfold hread in Hrun.
  destruct (h !! l) as [o|] eqn:E; injection Hrun as <- <-;
    (split; [exact Hinv|]); (split; [apply unchangedOn_refl|]);
    intros a Ha; [|discriminate].
  injection Ha as <-. split; intros Hl.
  - eapply inv_clean; eassumption.
  - eapply inv_copied; eassumption.
Qed.

Lemma safe_hread l : l ∉ P -> safe P (hread l).
Proof.
  intros Hl. eapply safeQ_conseq; [apply safeQ_hread_any|].
  intros o [Hc _]. apply Hc; exact Hl.
Qed.

Lemma Inv_insert h l o :
  Inv P h -> l ∉ P -> cleanObj P o -> Inv P (<[l := o]> h).
Proof.
  intros [Hd Hc Hs] Hl Ho. split.
  - intros l' Hl'. rewrite lookup_insert_ne by (intros ->; contradiction).
    apply Hd; exact Hl'.
  - intros l' o' Hlook Hl'.
    destruct (decide (l = l')) as [<-|Hne].
    + rewrite lookup_insert_eq in Hlook. injection Hlook as <-. exact Ho.
    + rewrite lookup_insert_ne in Hlook by exact Hne. eapply Hc; eassumption.
  - intros l' o' Hlook Hl'.
    rewrite lookup_insert_ne in Hlook by (intros ->; contradiction).
    eapply Hs; eassumption.
Qed.

Lemma unchangedOn_insert h l o : l ∉ P -> unchangedOn P h (<[l := o]> h).
Proof.
  intros Hl l' Hl'. apply lookup_insert_ne. intros ->; contradiction.
Qed.

Lemma safe_hwrite l o : l ∉ P -> cleanObj P o -> safe P (hwrite l o).
Proof.
  intros Hl Ho h Hinv r h' Hrun. unfold hwrite in Hrun. injection Hrun as <- <-.
  split; [apply Inv_insert; assumption|].
  split; [apply unchangedOn_insert; exact Hl|]. intros; exact I.
Qed.

Lemma fresh_not_protected h : Inv P h -> fresh (dom h) ∉ P.
Proof.
  intros Hinv Hin. apply (inv_dom _ _ Hinv) in Hin.
  apply elem_of_dom in Hin. exact (is_fresh (dom h) Hin).
Qed.

Lemma safe_halloc o : cleanObj P o -> safe P (halloc o).
Proof.
  intros Ho h Hinv r h' Hrun. unfold halloc in Hrun. injection Hrun as <- <-.
  pose proof (fresh_not_protected h Hinv) as Hf.
  split; [apply Inv_insert; assumption|].
  split; [apply unchangedOn_insert; exact Hf|].
  intros a Ha. injection Ha as <-. exact Hf.
Qed.

Lemma safe_reifyM fuel v : safe P (reifyM fuel v).
Proof.
  intros h Hinv r h' Hrun. unfold reifyM in Hrun.
  destruct (reify fuel h v); injection Hrun as <- <-;
    (split; [exact Hinv|]); (split; [apply unchangedOn_refl|]); intros; exact I.
Qed.

Lemma safe_forEachH {A} `{Clean A} (f : A -> M unit) (l : list A) :
  (forall x, clean P x -> safe P (f x)) -> clean P l -> safe P (forEachH f l).
Proof.
  intros Hf Hl. induction Hl as [|x r Hx _ IH]; simpl.
  - apply safe_ret. exact I.
  - apply safe_bind; [apply Hf; exact Hx|]. intros _ _. exact IH.
Qed.

Lemma safe_mapH {A B} `{Clean A, Clean B} (f : A -> M B) (l : list A) :
  (forall x, clean P x -> safe P (f x)) -> clean P l -> safe P (mapH f l).
Proof.
  intros Hf Hl. induction Hl as [|x r Hx _ IH]; simpl.
  - apply safe_ret. constructor.
  - apply safe_bind; [apply Hf; exact Hx|]. intros y Hy.
    apply safe_bind; [exact IH|]. intros ys Hys.
    apply safe_ret. constructor; assumption.
Qed.

Lemma safe_filterH {A} `{Clean A} (f : A -> M bool) (l : list A) :
  (forall x, clean P x -> safe P (f x)) -> clean P l -> safe P (filterH f l).
Proof.
  intros Hf Hl. induction Hl as [|x r Hx _ IH]; simpl.
  - apply safe_ret. constructor.
  - apply safe_bind; [apply Hf; exact Hx|]. intros keep _.
    apply safe_bind; [exact IH|]. intros ys Hys.
    apply safe_ret. destruct keep; [constructor|]; assumption.
Qed.

Lemma clean_nats (l : list nat) : clean P l.
Proof. induction l; constructor; auto. exact I. Qed.

Lemma clean_strings (l : list string) : clean P l.
Proof. induction l; constructor; auto. exact I. Qed.

End frame.

(** One step of a frame proof: follow the shape of the computation. *)
Ltac safe_step :=
  lazymatch goal with
  | |- safe _ (mret _) => eapply safe_ret
  | |- safe _ (throwM _) => eapply safe_throw
  | |- safe _ (liftR NotModelled) =>
      eapply safe_liftR_fail; intros ?; discriminate
  | |- safe _ (liftR OutOfFuel) =>
      eapply safe_liftR_fail; intros ?; discriminate
  | |- safe _ (reifyM _ _) => eapply safe_reifyM
  | |- safe _ (_ ≫= _) => eapply safe_bind; [|intros ? ?]
  | |- safe _ (match ?x with _ => _ end) => destruct x eqn:?
  end.

(** Unfold what [clean] means at each type. *)
Ltac clean_unfold :=
  cbv beta iota delta
    [clean clean_val clean_loc clean_hobj clean_unit clean_bool
     clean_string clean_Z clean_nat clean_value clean_heap clean_list
     clean_option clean_prod fst snd] in *;
  simpl in *;
  repeat match goal with
    | H : _ /\ _ |- _ => destruct H
    end.

Section frame_properties.
Context (P : gset loc).

Lemma clean_assoc (ps : list (string * val)) k :
  Forall (fun kv => cleanVal P (snd kv)) ps ->
  cleanVal P (default LUndefined (assoc k ps)).
Proof.
  induction 1 as [|[k' v] r Hv _ IH]; simpl; [exact I|].
  destruct (k' =? k)%string; [exact Hv|exact IH].
Qed.

Lemma clean_nth (es : list val) i :
  Forall (cleanVal P) es -> cleanVal P (nth i es LUndefined).
Proof.
  intros H. revert i. induction H as [|x r Hx _ IH]; intros [|i]; simpl; auto.
Qed.

Lemma clean_objProp o k : cleanObj P o -> cleanVal P (objProp o k).
Proof.
  destruct o as [t|es|ps]; simpl; intros H.
  - exact I.
  - destruct (k =? "length")%string; [exact I|].
    destruct (indexOfKey k); [apply clean_nth; exact H|exact I].
  - apply clean_assoc; exact H.
Qed.

Lemma clean_primOfValue v : cleanVal P (primOfValue v).
Proof. destruct v; exact I. Qed.

Lemma clean_replaceProp (ps : list (string * val)) k x :
  Forall (fun kv => cleanVal P (snd kv)) ps -> cleanVal P x ->
  Forall (fun kv => cleanVal P (snd kv)) (replaceProp k x ps).
Proof.
  intros H Hx. induction H as [|[k' v] r Hv Hr IH]; simpl; [constructor|].
  destruct (k' =? k)%string; constructor; auto.
Qed.

Lemma clean_insertIndexProp (ps : list (string * val)) i k x :
  Forall (fun kv => cleanVal P (snd kv)) ps -> cleanVal P x ->
  Forall (fun kv => cleanVal P (snd kv)) (insertIndexProp i k x ps).
Proof.
  intros H Hx. induction H as [|[k' v] r Hv Hr IH]; simpl.
  - constructor; [exact Hx|constructor].
  - destruct (isArrayIndexName k') as [j|].
    + destruct (j <? i)%nat; repeat (constructor; auto).
    + repeat (constructor; auto).
Qed.

Lemma clean_setOwn (ps : list (string * val)) k x :
  Forall (fun kv => cleanVal P (snd kv)) ps -> cleanVal P x ->
  Forall (fun kv => cleanVal P (snd kv)) (setOwn ps k x).
Proof.
  intros H Hx. unfold setOwn. destruct (hasOwn ps k).
  - apply clean_replaceProp; assumption.
  - destruct (isArrayIndexName k).
    + apply clean_insertIndexProp; assumption.
    + apply Forall_app. split; [exact H|]. constructor; [exact Hx|constructor].
Qed.

Lemma clean_removeProp (ps : list (string * val)) k :
  Forall (fun kv => cleanVal P (snd kv)) ps ->
  Forall (fun kv => cleanVal P (snd kv)) (removeProp k ps).
Proof.
  induction 1 as [|[k' v] r Hv Hr IH]; simpl; [constructor|].
  destruct (k' =? k)%string; [exact Hr|constructor; auto].
Qed.

Lemma safe_getPropH v k : cleanVal P v -> safe P (getPropH v k).
Proof.
  intros Hv. destruct v; simpl; repeat safe_step; try exact I.
  - apply clean_primOfValue.
  - eapply safe_hread; exact Hv.
  - apply clean_objProp; assumption.
Qed.

Lemma safe_setPropH v k x :
  cleanVal P v -> cleanVal P x -> safe P (setPropH v k x).
Proof.
  intros Hv Hx. destruct v; simpl; repeat safe_step; try exact I.
  - eapply safe_hread; exact Hv.
  - eapply safe_hwrite; [exact Hv|]. apply Forall_insert; assumption.
  - eapply safe_hwrite; [exact Hv|]. apply Forall_app. split; [assumption|].
    constructor; [exact Hx|constructor].
  - eapply safe_hwrite; [exact Hv|]. apply clean_setOwn; assumption.
Qed.

Lemma safe_deletePropH v k : cleanVal P v -> safe P (deletePropH v k).
Proof.
  intros Hv. destruct v; simpl; repeat safe_step; try exact I.
  - eapply safe_hread; exact Hv.
  - eapply safe_hwrite; [exact Hv|]. apply clean_removeProp; assumption.
Qed.

Lemma safe_hasOwnH v k : cleanVal P v -> safe P (hasOwnH v k).
Proof.
  intros Hv. destruct v; simpl; repeat safe_step; try exact I.
  eapply safe_hread; exact Hv.
Qed.

Lemma safe_keysH v : cleanVal P v -> safe P (keysH v).
Proof.
  intros Hv. destruct v; simpl; repeat safe_step; try apply clean_strings.
  eapply safe_hread; exact Hv.
Qed.

Lemma safe_asArrayH v : cleanVal P v -> safe P (asArrayH v).
Proof.
  intros Hv. destruct v; simpl; repeat safe_step; try exact I.
  - eapply safe_hread; exact Hv.
  - destruct a; try exact I. split; assumption.
Qed.

Lemma safe_elementNow l i : l ∉ P -> safe P (elementNow l i).
Proof.
  intros Hl. unfold elementNow. repeat safe_step.
  - eapply safe_hread; exact Hl.
  - destruct a; try exact I. apply clean_nth; assumption.
Qed.

Lemma safe_pushH target v :
  cleanVal P target -> cleanVal P v -> safe P (pushH target v).
Proof.
  intros Ht Hv. unfold pushH. safe_step; [eapply safe_asArrayH; exact Ht|].
  destruct a as [[la es]|]; [|eapply safe_throw].
  match goal with H : clean _ _ |- _ => destruct H as [Hla Hes] end.
  eapply safe_hwrite; [exact Hla|].
  apply Forall_app. split; [exact Hes|]. constructor; [exact Hv|constructor].
Qed.

Lemma safe_createArrayIfMissing obj field :
  cleanVal P obj -> safe P (createArrayIfMissing obj field).
Proof.
  intros Ho. unfold createArrayIfMissing.
  safe_step; [eapply safe_hasOwnH; exact Ho|].
  destruct a; [eapply safe_ret; exact I|].
  safe_step; [eapply safe_halloc; constructor|].
  eapply safe_setPropH; assumption.
Qed.

Lemma safe_R_length v : cleanVal P v -> safe P (R_length v).
Proof.
  intros Hv. destruct v; simpl; repeat safe_step; try exact I.
  - eapply safe_hread; exact Hv.
  - destruct a; try exact I. destruct (assoc "length" props) as [[]|]; exact I.
Qed.

Lemma clean_arrayAtL es i : Forall (cleanVal P) es -> cleanVal P (arrayAtL es i).
Proof.
  intros H. unfold arrayAtL. destruct (i <? 0); [exact I|]. apply clean_nth; exact H.
Qed.

Lemma getDotValueH_unfold obj parts :
  getDotValueH obj parts =
  if negb (truthyL obj) then mret LUndefined
  else
    match parts with
    | [] => mret obj
    | [f] => getPropH obj f
    | f :: ((k :: rest) as tl) =>
        first ← getPropH obj f;
        arr ← asArrayH first;
        match arr with
        | Some (_, es) =>
            match parseInt10 k with
            | Some i => getDotValueH (arrayAtL es i) rest
            | None =>
                xs ← mapH (fun el => getDotValueH el tl) es;
                l ← halloc (HArr xs);
                mret (LRef l)
            end
        | None => getDotValueH first tl
        end
    end.
Proof. destruct parts as [|f [|k rest]]; reflexivity. Qed.

Lemma safe_getDotValueH_bounded n : forall parts obj,
  (length parts <= n)%nat ->
  cleanVal P obj -> safe P (getDotValueH obj parts).
Proof.
  induction n as [|n IH]; intros parts obj Hlen Ho;
    rewrite getDotValueH_unfold;
    (destruct (negb (truthyL obj)); [eapply safe_ret; exact I|]).
  - destruct parts; [|simpl in Hlen; lia]. eapply safe_ret; exact Ho.
  - destruct parts as [|f [|k rest]].
    + eapply safe_ret; exact Ho.
    + eapply safe_getPropH; exact Ho.
    + safe_step; [eapply safe_getPropH; exact Ho|].
      safe_step; [eapply safe_asArrayH; assumption|].
      simpl in Hlen.
      destruct a0 as [[la es]|]; [|apply IH; [simpl; lia|assumption]].
      match goal with H : clean _ (Some _) |- _ => destruct H as [Hla Hes] end.
      simpl in Hes.
      destruct (parseInt10 k) as [i|].
      * apply IH; [lia|]. apply clean_arrayAtL; exact Hes.
      * safe_step.
        -- eapply safe_mapH; [|exact Hes]. intros x Hx.
           apply IH; [simpl; lia|exact Hx].
        -- safe_step; [eapply safe_halloc; assumption|].
           eapply safe_ret. assumption.
Qed.

Lemma safe_getDotValueH parts obj :
  cleanVal P obj -> safe P (getDotValueH obj parts).
Proof. apply (safe_getDotValueH_bounded (length parts)). lia. Qed.

Lemma safe_matchH fuel obj query : safe P (matchH fuel obj query).
Proof.
  unfold matchH. repeat safe_step. eapply safe_liftR. intros; exact I.
Qed.

Lemma safe_compareThingsH fuel a b : safe P (compareThingsH fuel a b).
Proof.
  unfold compareThingsH. repeat safe_step. eapply safe_liftR. intros; exact I.
Qed.

Lemma safe_checkObjectH fuel obj : safe P (checkObjectH fuel obj).
Proof.
  unfold checkObjectH. repeat safe_step. eapply safe_liftR. intros; exact I.
Qed.

Lemma safe_mapH_any {A B} `{Clean B} (f : A -> M B) (l : list A) :
  (forall x, safe P (f x)) -> safe P (mapH f l).
Proof.
  intros Hf. induction l as [|x r IH]; simpl.
  - eapply safe_ret. constructor.
  - eapply safe_bind; [apply Hf|]. intros y Hy.
    eapply safe_bind; [exact IH|]. intros ys Hys.
    eapply safe_ret. constructor; assumption.
Qed.

Lemma shared_not_protected l o :
  (l ∈ P -> sharedByCopy o = false) -> sharedByCopy o = true -> l ∉ P.
Proof. intros H Hs Hl. rewrite (H Hl) in Hs. discriminate. Qed.

(** [deepCopy] may read protected objects; what it returns is clean. *)
Lemma safe_deepCopy fuel : forall obj strictKeys,
  safe P (deepCopy fuel obj strictKeys).
Proof.
  induction fuel as [|fuel IH]; intros obj strictKeys; simpl.
  - eapply safe_liftR_fail. intros a; discriminate.
  - destruct obj; try (eapply safe_ret; exact I).
    eapply safeQ_bind; [apply safeQ_hread_any|]. intros o [Hclean Hcopied].
    destruct o as [t|es|ps].
    + eapply safe_ret. apply (shared_not_protected l (HDate t)); auto.
    + eapply safe_bind; [eapply safe_mapH_any; intros x; apply IH|].
      intros es' Hes'.
      eapply safe_bind; [eapply safe_halloc; exact Hes'|].
      intros l' Hl'. eapply safe_ret. exact Hl'.
    + destruct (isObjectIDTagged ps) eqn:Htag.
      * eapply safe_ret. apply (shared_not_protected l (HObj ps)); auto.
      * eapply safe_bind.
        -- eapply safe_mapH_any. intros kv.
           eapply safe_bind; [apply IH|]. intros x Hx.
           eapply safe_ret. split; [exact I|exact Hx].
        -- intros ps' Hps'.
           eapply safe_bind.
           ++ eapply safe_halloc. simpl.
              eapply Forall_impl; [exact Hps'|]. intros kv [_ Hkv]; exact Hkv.
           ++ intros l' Hl'. eapply safe_ret. exact Hl'.
Qed.

Lemma Forall_removelast {A} (Q : A -> Prop) (l : list A) :
  Forall Q l -> Forall Q (removelast l).
Proof.
  induction 1 as [|x r Hx Hr IH]; simpl; [constructor|].
  destruct r; [constructor|]. constructor; assumption.
Qed.

Lemma Forall_tl {A} (Q : A -> Prop) (l : list A) : Forall Q l -> Forall Q (tl l).
Proof. destruct 1; simpl; [constructor|assumption]. Qed.

Lemma Forall_sliceList {A} (Q : A -> Prop) (l : list A) a b :
  Forall Q l -> Forall Q (sliceList a b l).
Proof. intros H. unfold sliceList. apply Forall_take, Forall_drop, H. Qed.

Lemma Forall_removeAt {A} (Q : A -> Prop) (l : list A) i :
  Forall Q l -> Forall Q (removeAt i l).
Proof.
  intros H. unfold removeAt. apply Forall_app.
  split; [apply Forall_take|apply Forall_drop]; exact H.
Qed.

Lemma Forall_list_filter {A} (Q : A -> Prop) (f : A -> bool) (l : list A) :
  Forall Q l -> Forall Q (List.filter f l).
Proof.
  induction 1 as [|x r Hx Hr IH]; simpl; [constructor|].
  destruct (f x); [constructor|]; assumption.
Qed.

(** The frame steps that the library of heap operations provides. *)
Ltac safe_leaf :=
  first
    [ eapply safe_getPropH | eapply safe_setPropH | eapply safe_deletePropH
    | eapply safe_hasOwnH | eapply safe_keysH | eapply safe_asArrayH
    | eapply safe_elementNow | eapply safe_pushH
    | eapply safe_createArrayIfMissing | eapply safe_R_length
    | eapply safe_getDotValueH | eapply safe_matchH
    | eapply safe_compareThingsH | eapply safe_checkObjectH
    | eapply safe_halloc | eapply safe_hwrite
    | eapply safe_forEachH; [intros ? ?|]
    | eapply safe_mapH; [intros ? ?|]
    | eapply safe_filterH; [intros ? ?|]
    | eapply safe_liftR; intros; exact I ].

Ltac clean_side :=
  clean_unfold; simpl in *;
  try solve
    [ exact I | assumption | constructor
    | eapply safe_hread; assumption
    | apply Forall_true; intros; exact I
    | repeat (constructor; try assumption; try exact I)
    | apply Forall_app; split;
      [assumption | repeat (constructor; try assumption; try exact I)]
    | apply Forall_sliceList; assumption
    | apply Forall_removeAt; assumption
    | apply Forall_list_filter; assumption
    | match goal with
      | |- Forall _ (if ?b then _ else _) =>
          destruct b; [apply Forall_removelast|apply Forall_tl]; assumption
      end ].

Ltac safe_auto :=
  repeat (lazymatch goal with
          | |- safe _ _ => first [ safe_step | safe_leaf ]
          end);
  clean_side.

Lemma safe_lastStep_setH obj field value :
  cleanVal P obj -> cleanVal P value -> safe P (lastStep_setH obj field value).
Proof.
  intros Ho Hv. unfold lastStep_setH. safe_auto.
Qed.

Lemma safe_lastStep_unsetH obj field value :
  cleanVal P obj -> cleanVal P value -> safe P (lastStep_unsetH obj field value).
Proof. intros Ho Hv. unfold lastStep_unsetH. safe_auto. Qed.

Lemma safe_lastStep_incH obj field value :
  cleanVal P obj -> cleanVal P value -> safe P (lastStep_incH obj field value).
Proof. intros Ho Hv. unfold lastStep_incH. safe_auto. Qed.

Lemma safe_lastStep_maxH fuel obj field value :
  cleanVal P obj -> cleanVal P value -> safe P (lastStep_maxH fuel obj field value).
Proof. intros Ho Hv. unfold lastStep_maxH. safe_auto. Qed.

Lemma safe_lastStep_minH fuel obj field value :
  cleanVal P obj -> cleanVal P value -> safe P (lastStep_minH fuel obj field value).
Proof. intros Ho Hv. unfold lastStep_minH. safe_auto. Qed.

Lemma safe_lastStep_popH obj field value :
  cleanVal P obj -> cleanVal P value -> safe P (lastStep_popH obj field value).
Proof. intros Ho Hv. unfold lastStep_popH. safe_auto. Qed.

Lemma safe_lastStep_pushH obj field value :
  cleanVal P obj -> cleanVal P value -> safe P (lastStep_pushH obj field value).
Proof. intros Ho Hv. unfold lastStep_pushH. safe_auto. Qed.

Lemma safe_lastStep_pushAllH obj field value :
  cleanVal P obj -> cleanVal P value -> safe P (lastStep_pushAllH obj field value).
Proof.
  intros Ho Hv. unfold lastStep_pushAllH.
  eapply safe_bind; [eapply safe_asArrayH; exact Hv|]. intros arr Harr.
  destruct arr; [|eapply safe_throw].
  eapply safe_bind; [eapply safe_halloc; repeat constructor; exact Hv|].
  intros l Hl. apply safe_lastStep_pushH; [exact Ho|exact Hl].
Qed.

Lemma safe_lastStep_pullH fuel obj field value :
  cleanVal P obj -> cleanVal P value -> safe P (lastStep_pullH fuel obj field value).
Proof. intros Ho Hv. unfold lastStep_pullH. safe_auto. Qed.

Lemma safe_lastStep_pullAllH fuel obj field value :
  cleanVal P obj -> cleanVal P value ->
  safe P (lastStep_pullAllH fuel obj field value).
Proof.
  intros Ho Hv. unfold lastStep_pullAllH.
  eapply safe_bind; [eapply safe_getPropH; exact Ho|]. intros cur Hcur.
  eapply safe_bind; [eapply safe_asArrayH; exact Hcur|]. intros arr Harr.
  destruct arr as [[la es]|]; [|eapply safe_throw].
  eapply safe_bind; [eapply safe_asArrayH; exact Hv|]. intros varr Hvarr.
  destruct varr as [[lv vs]|]; [|eapply safe_throw].
  destruct Harr as [_ Hes]. simpl in Hes.
  eapply safe_bind.
  - eapply safe_filterH; [|exact Hes]. intros e He.
    eapply safe_bind; [|intros hit _; eapply safe_ret; exact I].
    clear. induction vs as [|v r IH]; [eapply safe_ret; exact I|].
    eapply safe_bind; [eapply safe_matchH|]. intros m _.
    destruct m; [eapply safe_ret; exact I|exact IH].
  - intros kept Hkept.
    eapply safe_bind; [eapply safe_halloc; exact Hkept|]. intros l Hl.
    eapply safe_setPropH; [exact Ho|exact Hl].
Qed.

Lemma safe_lastStep_addToSetH fuel : forall obj field value,
  cleanVal P obj -> cleanVal P value ->
  safe P (lastStep_addToSetH fuel obj field value).
Proof.
  induction fuel as [|fuel IH]; intros obj field value Ho Hv; simpl.
  - eapply safe_liftR_fail. intros a; discriminate.
  - eapply safe_bind; [eapply safe_createArrayIfMissing; exact Ho|]. intros _ _.
    eapply safe_bind; [eapply safe_getPropH; exact Ho|]. intros cur Hcur.
    eapply safe_bind; [eapply safe_asArrayH; exact Hcur|]. intros arr Harr.
    destruct arr as [[la es]|]; [|eapply safe_throw].
    destruct Harr as [_ Hes]. simpl in Hes.
    eapply safe_bind.
    { destruct (isRef value); [eapply safe_getPropH; exact Hv|].
      eapply safe_ret; exact I. }
    intros each Heach.
    destruct (isRef value && truthyL each).
    + eapply safe_bind; [eapply safe_keysH; exact Hv|]. intros ks _.
      destruct (1 <? length ks)%nat; [eapply safe_throw|].
      eapply safe_bind; [eapply safe_asArrayH; exact Heach|]. intros earr Hearr.
      destruct earr as [[le es0]|]; [|eapply safe_throw].
      destruct Hearr as [Hle _].
      eapply safe_forEachH; [|apply clean_nats]. intros i _.
      eapply safe_bind; [eapply safe_elementNow; exact Hle|]. intros v Hv'.
      apply IH; assumption.
    + eapply safe_bind.
      * eapply safe_mapH; [|exact Hes]. intros v Hv'.
        eapply safe_compareThingsH.
      * intros cs _. destruct (existsb (fun c => c =? 0) cs);
          [eapply safe_ret; exact I|].
        eapply safe_bind; [eapply safe_getPropH; exact Ho|]. intros t Ht.
        eapply safe_pushH; assumption.
Qed.

Lemma safe_lastStepModifierFunctionsH fuel modifier lastStep :
  lastStepModifierFunctionsH fuel modifier = Some lastStep ->
  forall obj field value,
    cleanVal P obj -> cleanVal P value -> safe P (lastStep obj field value).
Proof.
  unfold lastStepModifierFunctionsH.
  repeat match goal with
    | |- (if ?b then _ else _) = _ -> _ => destruct b
    end;
    intros Heq; try discriminate; injection Heq as <-; intros obj field value.
  - apply safe_lastStep_setH.
  - apply safe_lastStep_unsetH.
  - apply safe_lastStep_pushH.
  - apply safe_lastStep_pushAllH.
  - apply safe_lastStep_addToSetH.
  - apply safe_lastStep_popH.
  - apply safe_lastStep_pullH.
  - apply safe_lastStep_pullAllH.
  - apply safe_lastStep_incH.
  - apply safe_lastStep_maxH.
  - apply safe_lastStep_minH.
Qed.

(** On a document that is not protected, [modifierFunctions] and [modify]
    keep the protected objects as they are, in either form of the update. *)
Lemma safe_modifierFunctions_modify fuel :
  (forall modifier obj fieldParts value query,
      cleanVal P obj -> cleanVal P value ->
      safe P (modifierFunctions fuel modifier obj fieldParts value query))
  /\ (forall obj updateQuery query,
         cleanVal P obj -> cleanVal P updateQuery ->
         safe P (modify fuel obj updateQuery query)).
Proof.
  induction fuel as [|fuel [IHmf IHmod]].
  - split; intros; simpl; eapply safe_liftR_fail; intros a; discriminate.
  - split.
    + intros modifier obj fieldParts value query Ho Hv. simpl.
      repeat (lazymatch goal with
              | |- safe _ _ =>
                  first
                    [ eapply IHmf
                    | eapply IHmod
                    | eapply safe_lastStepModifierFunctionsH; [eassumption|..]
                    | safe_step
                    | safe_leaf ]
              end);
        clean_side.
    + intros obj updateQuery query Ho Hu. simpl.
      repeat (lazymatch goal with
              | |- safe _ _ =>
                  first
                    [ eapply IHmf
                    | eapply safe_deepCopy
                    | safe_step
                    | safe_leaf ]
              end);
        clean_side.
Qed.

Lemma framed_safeQ {A} (Q : A -> Prop) (m : M A) : safeQ P Q m -> framed P m.
Proof. intros Hm h Hinv r h' Hrun. apply (Hm h Hinv r h' Hrun). Qed.

Lemma framed_bind {A B} (Q : A -> Prop) (m : M A) (f : A -> M B) :
  safeQ P Q m -> (forall a, Q a -> framed P (f a)) -> framed P (m ≫= f).
Proof.
  intros Hm Hf h Hinv r h' Hrun. unfold mbind, M_bind in Hrun.
  destruct (m h) as [r1 h1] eqn:E1.
  destruct (Hm h Hinv r1 h1 E1) as (Hinv1 & Hun1 & HQ1).
  destruct r1 as [a|e| |]; try (injection Hrun as <- <-; exact Hun1).
  eapply unchangedOn_trans; [exact Hun1|].
  exact (Hf a (HQ1 a eq_refl) h1 Hinv1 r h' Hrun).
Qed.

Lemma framed_bind_readonly {A B} (m : M A) (f : A -> M B) :
  framed P m -> (forall a, readonly (f a)) -> framed P (m ≫= f).
Proof.
  intros Hm Hf h Hinv r h' Hrun. unfold mbind, M_bind in Hrun.
  destruct (m h) as [r1 h1] eqn:E1.
  pose proof (Hm h Hinv r1 h1 E1) as Hun1.
  destruct r1 as [a|e| |]; try (injection Hrun as <- <-; exact Hun1).
  rewrite (Hf a h1 r h' Hrun). exact Hun1.
Qed.

Lemma readonly_ret {A} (a : A) : readonly (mret a).
Proof. intros h r h' Hrun. injection Hrun as <- <-. reflexivity. Qed.

Lemma readonly_liftR {A} (r : result A) : readonly (liftR r).
Proof. intros h r' h' Hrun. injection Hrun as <- <-. reflexivity. Qed.

Lemma readonly_bind {A B} (m : M A) (f : A -> M B) :
  readonly m -> (forall a, readonly (f a)) -> readonly (m ≫= f).
Proof.
  intros Hm Hf h r h' Hrun. unfold mbind, M_bind in Hrun.
  destruct (m h) as [r1 h1] eqn:E1. pose proof (Hm h r1 h1 E1) as ->.
  destruct r1 as [a|e| |]; try (injection Hrun as <- <-; reflexivity).
  exact (Hf a h r h' Hrun).
Qed.

Lemma readonly_hread l : readonly (hread l).
Proof.
  intros h r h' Hrun. unfold hread in Hrun.
  destruct (h !! l); injection Hrun as <- <-; reflexivity.
Qed.

Lemma readonly_getPropH v k : readonly (getPropH v k).
Proof.
  destruct v; simpl; try apply readonly_ret; try apply readonly_liftR.
  apply readonly_bind; [apply readonly_hread|]. intros o. apply readonly_ret.
Qed.

Lemma readonly_reifyM fuel v : readonly (reifyM fuel v).
Proof.
  intros h r h' Hrun. unfold reifyM in Hrun.
  destruct (reify fuel h v); injection Hrun as <- <-; reflexivity.
Qed.

Lemma readonly_checkObjectH fuel v : readonly (checkObjectH fuel v).
Proof.
  unfold checkObjectH. apply readonly_bind; [apply readonly_reifyM|].
  intros t. apply readonly_liftR.
Qed.

(** Reading a property of any value, protected or not. *)
Lemma safeQ_getPropH_any v k : safeQ P (fun _ => True) (getPropH v k).
Proof.
  intros h Hinv r h' Hrun. rewrite (readonly_getPropH v k h r h' Hrun).
  split; [exact Hinv|]. split; [apply unchangedOn_refl|]. intros; exact I.
Qed.

(** Assigning to an object that is not protected leaves the protected ones
    as they are, whatever is assigned. *)
Lemma framed_setPropH v k x : cleanVal P v -> framed P (setPropH v k x).
Proof.
  intros Hv h Hinv r h' Hrun. destruct v; simpl in Hrun;
    try (injection Hrun as <- <-; apply unchangedOn_refl).
  unfold mbind, M_bind, hread in Hrun.
  destruct (h !! l) as [o|]; [|injection Hrun as <- <-; apply unchangedOn_refl].
  destruct o as [t|es|ps]; simpl in Hrun.
  - injection Hrun as <- <-. apply unchangedOn_refl.
  - destruct (indexOfKey k) as [i|];
      [|injection Hrun as <- <-; apply unchangedOn_refl].
    destruct (i <? length es)%nat;
      [injection Hrun as <- <-; apply unchangedOn_insert; exact Hv|].
    destruct (i =? length es)%nat; injection Hrun as <- <-;
      [apply unchangedOn_insert; exact Hv|apply unchangedOn_refl].
  - injection Hrun as <- <-. apply unchangedOn_insert; exact Hv.
Qed.

(** [modify] on any document, protected or not: the protected objects are
    left as they are. *)
Lemma framed_modify fuel obj updateQuery query :
  cleanVal P updateQuery -> framed P (modify fuel obj updateQuery query).
Proof.
  intros Hu. destruct fuel as [|fuel]; simpl.
  - apply (framed_safeQ (fun _ => True)). apply safeQ_liftR. auto.
  - destruct (safe_modifierFunctions_modify fuel) as [Hmf _].
    eapply framed_bind; [eapply safe_keysH; exact Hu|]. intros keys _.
    eapply (framed_bind (fun _ => True)).
    { match goal with
      | |- safeQ _ _ (if ?b then _ else _) =>
          destruct b; [|apply safeQ_ret; exact I]
      end.
      eapply safeQ_bind; [eapply safe_getPropH; exact Hu|]. intros uid _.
      eapply safeQ_bind; [apply safeQ_getPropH_any|]. intros oid _.
      apply safeQ_ret; exact I. }
    intros changesId _.
    destruct changesId; [apply (framed_safeQ (fun _ => True)), safeQ_throw|].
    match goal with
    | |- framed _ (if ?b then _ else _) =>
        destruct b; [apply (framed_safeQ (fun _ => True)), safeQ_throw|]
    end.
    apply framed_bind_readonly.
    + match goal with
      | |- framed _ (if ?b then _ else _) => destruct b
      end.
      * eapply framed_bind; [apply safe_deepCopy|]. intros nd Hnd.
        eapply framed_bind; [apply safeQ_getPropH_any|]. intros oid _.
        apply framed_bind_readonly; [apply framed_setPropH; exact Hnd|].
        intros _. apply readonly_ret.
      * apply (framed_safeQ (clean P)).
        eapply safe_bind; [apply safe_deepCopy|]. intros nd Hnd.
        eapply safe_bind; [|intros _ _; eapply safe_ret; exact Hnd].
        eapply safe_forEachH; [|apply clean_strings]. intros m _.
        destruct (lastStepModifierFunctionsH fuel m); [|eapply safe_throw].
        eapply safe_bind; [eapply safe_getPropH; exact Hu|]. intros arg Harg.
        match goal with
        | |- safe _ (if ?b then _ else _) => destruct b; [eapply safe_throw|]
        end.
        eapply safe_bind; [eapply safe_keysH; exact Harg|]. intros ks _.
        eapply safe_forEachH; [|apply clean_strings]. intros k _.
        eapply safe_bind; [eapply safe_getPropH; exact Harg|]. intros x Hx.
        apply Hmf; assumption.
    + intros newDoc.
      apply readonly_bind; [apply readonly_checkObjectH|]. intros _.
      apply readonly_bind; [apply readonly_getPropH|]. intros oid.
      apply readonly_bind; [apply readonly_getPropH|]. intros nid.
      match goal with
      | |- readonly (if ?b then _ else _) =>
          destruct b; [apply readonly_liftR|apply readonly_ret]
      end.
Qed.

End frame_properties.

Lemma cleanValb_spec P v : cleanValb P v = true -> cleanVal P v.
Proof.
  destruct v; simpl; try (intros; exact I).
  intros H. apply bool_decide_eq_true in H. exact H.
Qed.

Lemma cleanObjb_spec P o : cleanObjb P o = true -> cleanObj P o.
Proof.
  destruct o as [t|es|ps]; simpl; intros H; [exact I| |].
  - apply List.Forall_forall. intros x Hx. apply cleanValb_spec.
    rewrite forallb_forall in H. apply H; exact Hx.
  - apply List.Forall_forall. intros x Hx. apply cleanValb_spec.
    rewrite forallb_forall in H. apply (H x); exact Hx.
Qed.

Lemma invb_Inv P h : invb P h = true -> Inv P h.
Proof.
  unfold invb. intros H. apply andb_prop in H as [Hdom Hobj].
  rewrite forallb_forall in Hdom. rewrite forallb_forall in Hobj.
  assert (Hentry : forall l o, h !! l = Some o ->
            (if bool_decide (l ∈ P) then negb (sharedByCopy o)
             else cleanObjb P o) = true).
  { intros l o Hl. apply (Hobj (l, o)).
    apply list_elem_of_In, elem_of_map_to_list. exact Hl. }
  split.
  - intros l Hl. eapply bool_decide_eq_true. apply Hdom.
    apply list_elem_of_In, elem_of_elements. exact Hl.
  - intros l o Hl Hnot. specialize (Hentry l o Hl).
    rewrite bool_decide_eq_false_2 in Hentry by exact Hnot.
    apply cleanObjb_spec; exact Hentry.
  - intros l o Hl Hin. specialize (Hentry l o Hl).
    rewrite bool_decide_eq_true_2 in Hentry by exact Hin.
    apply negb_true_iff; exact Hentry.
Qed.

Lemma reify_within P h h' fuel : forall v,
  unchangedOn P h h' -> within fuel P h v -> reify fuel h' v = reify fuel h v.
Proof.
  induction fuel as [|fuel IH]; intros v Hun Hw; destruct v; try reflexivity.
  simpl in Hw. destruct Hw as [Hl Hw]. simpl.
  rewrite (Hun l Hl). destruct (h !! l) as [[t|es|ps]|]; try reflexivity.
  - f_equal. induction Hw as [|e r He _ IHr]; [reflexivity|].
    rewrite (IH e Hun He), IHr. reflexivity.
  - f_equal. induction Hw as [|[k e] r He _ IHr]; [reflexivity|].
    simpl in He. rewrite (IH e Hun He), IHr. reflexivity.
Qed.

(** C9, as stated, fails: [deepCopy] returns an object tagged
    [_bsontype: 'ObjectID'] by reference, so the copy of
    [{_id: 'a', o: {_bsontype: 'ObjectID', x: 0}}] shares [o] with the
    document, and [{$set: {'o.x': 1}}] sets [x] in the document itself. *)
Lemma modify_alters_shared_object_of_doc :
  let h : heap :=
    <[1%positive := HObj [("_id", LStr "a"); ("o", LRef 2%positive)]]>
      (<[2%positive := HObj [("_bsontype", LStr "ObjectID"); ("x", LNum 0)]]>
         (<[3%positive := HObj [("$set", LRef 4%positive)]]>
            (<[4%positive := HObj [("o.x", LNum 1)]]> ∅))) in
  let doc := LRef 1%positive in
  let '(r, h') := modify 10 doc (LRef 3%positive) LUndefined h in
  reify 5 h doc
  = Some (VObj [("_id", VStr "a");
                ("o", VObj [("_bsontype", VStr "ObjectID"); ("x", VNum 0)])])
  /\ (exists newDoc, r = Ok newDoc)
  /\ reify 5 h' doc
     = Some (VObj [("_id", VStr "a");
                   ("o", VObj [("_bsontype", VStr "ObjectID"); ("x", VNum 1)])]).
Proof. vm_compute. repeat split. eexists; reflexivity. Qed.

(** C9 (amended): let [P] be a set of objects that are referenced only from
    within [P], that the update query is not part of, and that holds no
    date and no object tagged [_bsontype: 'ObjectID'] (the objects
    [deepCopy] returns by reference). Then [modify(doc, u, q)], whether it
    returns a document, throws or exhausts its budget, leaves every object
    of [P] as it was; in particular a document whose objects all belong to
    [P] reads the same before and after. *)
Theorem modify_leaves_protected_objects_unchanged
    (P : gset loc) (fuel : nat) (doc u q : val) (h h' : heap)
    (r : result val) :
  Inv P h ->
  cleanVal P u ->
  modify fuel doc u q h = (r, h') ->
  (forall l, l ∈ P -> h' !! l = h !! l)
  /\ (forall n, within n P h doc -> reify n h' doc = reify n h doc).
Proof.
  intros Hinv Hu Hrun.
  pose proof (framed_modify P fuel doc u q Hu h Hinv r h' Hrun) as Hun.
  split; [exact Hun|]. intros n Hw. apply (reify_within P); assumption.
Qed.

Lemma modify_leaves_protected_objects_unchanged_witness :
  let h : heap :=
    <[1%positive := HObj [("_id", LStr "a"); ("n", LRef 2%positive)]]>
      (<[2%positive := HArr [LNum 1; LNum 2]]>
         (<[3%positive := HObj [("$push", LRef 4%positive)]]>
            (<[4%positive := HObj [("n", LNum 3)]]> ∅))) in
  let P : gset loc := {[1%positive; 2%positive]} in
  let doc := LRef 1%positive in
  (forall l, l ∈ P ->
     snd (modify 10 doc (LRef 3%positive) LUndefined h) !! l = h !! l)
  /\ (forall n, within n P h doc ->
        reify n (snd (modify 10 doc (LRef 3%positive) LUndefined h)) doc
        = reify n h doc).
Proof.
  intros h P doc.
  apply (modify_leaves_protected_objects_unchanged P 10 doc (LRef 3%positive)
           LUndefined h _ (fst (modify 10 doc (LRef 3%positive) LUndefined h))).
  - apply invb_Inv. vm_compute. reflexivity.
  - subst P. simpl. intros H. apply elem_of_union in H as [H|H];
      apply elem_of_singleton in H; discriminate H.
  - apply surjective_pairing.
Defined.

Lemma bind_Ok {A B} (m : M A) (f : A -> M B) h b h' :
  (m ≫= f) h = (Ok b, h') ->
  exists a h1, m h = (Ok a, h1) /\ f a h1 = (Ok b, h').
Proof.
  unfold mbind, M_bind. destruct (m h) as [[a|e| |] h1]; intros H;
    try discriminate H.
  exists a, h1. split; [reflexivity|exact H].
Qed.

Lemma existsb_assoc {A} k (ps : list (string * A)) v :
  assoc k ps = Some v -> existsb (String.eqb k) (map fst ps) = true.
Proof.
  induction ps as [|[k' x] r IH]; [discriminate|]. cbn [assoc map fst existsb].
  rewrite (String.eqb_sym k k').
  destruct (k' =? k)%string; [reflexivity|]. exact IH.
Qed.

Lemma getPropH_ref l k h o :
  h !! l = Some o -> getPropH (LRef l) k h = (Ok (objProp o k), h).
Proof.
  intros Hl. unfold getPropH, mbind, M_bind, hread. rewrite Hl. reflexivity.
Qed.

Lemma getPropH_ref_inv l k h v h' :
  getPropH (LRef l) k h = (Ok v, h') ->
  exists o, h !! l = Some o /\ v = objProp o k /\ h' = h.
Proof.
  unfold getPropH, mbind, M_bind, hread. destruct (h !! l) as [o|]; [|discriminate].
  intros H. injection H as <- <-. exists o. auto.
Qed.

Lemma modify_throws_on_other_id fuel doc u q h ld od lu ps uid :
  doc = LRef ld -> h !! ld = Some od ->
  u = LRef lu -> h !! lu = Some (HObj ps) -> assoc "_id" ps = Some uid ->
  strictEqL uid (objProp od "_id") = false ->
  modify (S fuel) doc u q h
  = (Throw (Error "You cannot change a document's _id"), h).
Proof.
  intros -> Hd -> Hu Hid Hne. cbn [modify].
  unfold mbind at 1, M_bind at 1. 
  replace (keysH (LRef lu) h) with (@Ok (list string) (map fst ps), h)
    by (unfold keysH, mbind, M_bind, hread; rewrite Hu; reflexivity).
  unfold mbind at 1, M_bind at 1.
  rewrite (existsb_assoc _ _ _ Hid).
  unfold mbind at 1, M_bind at 1.
  rewrite (getPropH_ref _ _ _ _ Hu).
  unfold mbind at 1, M_bind at 1.
  rewrite (getPropH_ref _ _ _ _ Hd).
  cbn [objProp]. rewrite Hid. cbn [default from_option id]. 
  unfold mret, M_ret. rewrite Hne. reflexivity.
Qed.

Lemma modify_Ok_id fuel doc u q h newDoc h' :
  modify fuel doc u q h = (Ok newDoc, h') ->
  exists oid nid,
    getPropH doc "_id" h' = (Ok oid, h')
    /\ getPropH newDoc "_id" h' = (Ok nid, h')
    /\ strictEqL oid nid = true.
Proof.
  intros Hrun. destruct fuel as [|fuel]; [discriminate Hrun|].
  cbn [modify] in Hrun.
  apply bind_Ok in Hrun as (keys & h1 & _ & Hrun).
  apply bind_Ok in Hrun as (changesId & h2 & _ & Hrun).
  destruct changesId; [discriminate Hrun|].
  match type of Hrun with
  | (if ?b then _ else _) _ = _ => destruct b; [discriminate Hrun|]
  end.
  apply bind_Ok in Hrun as (nd & h3 & _ & Hrun).
  apply bind_Ok in Hrun as ([] & h4 & _ & Hrun).
  apply bind_Ok in Hrun as (oid & h5 & Hoid & Hrun).
  apply bind_Ok in Hrun as (nid & h6 & Hnid & Hrun).
  destruct (strictEqL oid nid) eqn:Heq; [|discriminate Hrun].
  cbn [negb] in Hrun. injection Hrun as <- <-.
  pose proof (readonly_getPropH _ _ _ _ _ Hnid) as ->.
  pose proof (readonly_getPropH _ _ _ _ _ Hoid) as ->.
  exists oid, nid. auto.
Qed.

(** C2, as stated, fails on a document that [deepCopy] returns by
    reference: on [{_id: 'a', _bsontype: 'ObjectID'}] the update
    [{$set: {_id: 'b'}}] has no key [_id] of its own, the copy is the
    document itself, [$set] writes [_id] in it, the last check compares the
    document with itself, and the document returned has [_id] ['b']. *)
Lemma modify_changes_id_of_tagged_document :
  let h : heap :=
    <[1%positive := HObj [("_id", LStr "a"); ("_bsontype", LStr "ObjectID")]]>
      (<[2%positive := HObj [("$set", LRef 3%positive)]]>
         (<[3%positive := HObj [("_id", LStr "b")]]> ∅)) in
  let doc := LRef 1%positive in
  let '(r, h') := modify 10 doc (LRef 2%positive) LUndefined h in
  fst (getPropH doc "_id" h) = Ok (LStr "a")
  /\ exists newDoc,
       r = Ok newDoc /\ fst (getPropH newDoc "_id" h') = Ok (LStr "b").
Proof. vm_compute. split; [reflexivity|]. eexists; split; reflexivity. Qed.

(** C2 (amended): let [doc] be an object. When the update [u] is an object
    with an own key [_id] whose value is not strictly equal to [doc._id],
    [modify(doc, u, q)] throws "You cannot change a document's _id" and
    changes nothing. Whenever [modify(doc, u, q)] returns a document, that
    document's [_id] is strictly equal to [doc._id] as it reads after the
    call; and it is strictly equal to [doc._id] as it was before the call
    when [doc] belongs to a set [P] of objects that are referenced only from
    within [P], that [u] is not part of, and that holds no date and no
    object tagged [_bsontype: 'ObjectID']. *)
Theorem modify_throws_on_other_id_and_keeps_id
    (fuel : nat) (doc u q : val) (h : heap) (ld : loc) (od : hobj) :
  doc = LRef ld ->
  h !! ld = Some od ->
  (forall lu ps uid,
     u = LRef lu -> h !! lu = Some (HObj ps) -> assoc "_id" ps = Some uid ->
     strictEqL uid (objProp od "_id") = false ->
     modify (S fuel) doc u q h
     = (Throw (Error "You cannot change a document's _id"), h))
  /\ (forall newDoc h',
        modify fuel doc u q h = (Ok newDoc, h') ->
        exists od' nid,
          h' !! ld = Some od'
          /\ getPropH newDoc "_id" h' = (Ok nid, h')
          /\ strictEqL (objProp od' "_id") nid = true
          /\ (forall P, Inv P h -> ld ∈ P -> cleanVal P u ->
                strictEqL (objProp od "_id") nid = true)).
Proof.
  intros Hdoc Hd. split.
  - intros lu ps uid Hu Hlu Hid Hne.
    exact (modify_throws_on_other_id fuel doc u q h ld od lu ps uid
             Hdoc Hd Hu Hlu Hid Hne).
  - intros newDoc h' Hrun.
    destruct (modify_Ok_id _ _ _ _ _ _ _ Hrun) as (oid & nid & Hoid & Hnid & Heq).
    subst doc. apply getPropH_ref_inv in Hoid as (od' & Hd' & -> & _).
    exists od', nid. split; [exact Hd'|]. split; [exact Hnid|].
    split; [exact Heq|]. intros P Hinv HP Hu.
    pose proof (framed_modify P fuel (LRef ld) u q Hu h Hinv _ _ Hrun ld HP)
      as Hsame.
    rewrite Hd', Hd in Hsame. injection Hsame as <-. exact Heq.
Qed.

Lemma modify_throws_on_other_id_and_keeps_id_witness :
  let h : heap :=
    <[1%positive := HObj [("_id", LStr "a"); ("n", LNum 1)]]>
      (<[2%positive := HObj [("_id", LStr "b"); ("n", LNum 2)]]>
         (<[3%positive := HObj [("$inc", LRef 4%positive)]]>
            (<[4%positive := HObj [("n", LNum 5)]]> ∅))) in
  let doc := LRef 1%positive in
  modify 10 doc (LRef 2%positive) LUndefined h
  = (Throw (Error "You cannot change a document's _id"), h)
  /\ (exists newDoc nid,
        fst (modify 10 doc (LRef 3%positive) LUndefined h) = Ok newDoc
        /\ fst (getPropH newDoc "_id"
                  (snd (modify 10 doc (LRef 3%positive) LUndefined h)))
           = Ok nid
        /\ strictEqL (LStr "a") nid = true).
Proof.
  intros h doc.
  assert (Inv {[1%positive]} h) as Hinv
    by (apply invb_Inv; vm_compute; reflexivity).
  assert (1%positive ∈ ({[1%positive]} : gset loc)) as Hin
    by (apply elem_of_singleton; reflexivity).
  assert (cleanVal {[1%positive]} (LRef 3%positive)) as Hclean
    by (intros H; apply elem_of_singleton in H; discriminate H).
  split.
  - destruct (modify_throws_on_other_id_and_keeps_id 9 doc (LRef 2%positive)
                LUndefined h 1%positive
                (HObj [("_id", LStr "a"); ("n", LNum 1)])
                eq_refl eq_refl) as [Hthrow _].
    apply (Hthrow 2%positive [("_id", LStr "b"); ("n", LNum 2)] (LStr "b"));
      reflexivity.
  - destruct (modify_throws_on_other_id_and_keeps_id 10 doc (LRef 3%positive)
                LUndefined h 1%positive
                (HObj [("_id", LStr "a"); ("n", LNum 1)])
                eq_refl eq_refl) as [_ Hkeep].
    assert (exists newDoc,
               fst (modify 10 doc (LRef 3%positive) LUndefined h) = Ok newDoc)
      as [newDoc HnewDoc] by (vm_compute; eexists; reflexivity).
    assert (modify 10 doc (LRef 3%positive) LUndefined h
            = (Ok newDoc, snd (modify 10 doc (LRef 3%positive) LUndefined h)))
      as Hrun by (rewrite <- HnewDoc; apply surjective_pairing).
    destruct (Hkeep newDoc _ Hrun) as (od' & nid & _ & Hnid & _ & Hpre).
    exists newDoc, nid. split; [exact HnewDoc|].
    split; [rewrite Hnid; reflexivity|].
    exact (Hpre {[1%positive]} Hinv Hin Hclean).
Defined.

(** ** [serialize] and [checkObject] *)

Lemma checkKey_afterToJSON k v : checkKey k (afterToJSON v) = checkKey k v.
Proof. destruct v; reflexivity. Qed.

Lemma serialize_replacer_held k held :
  serialize_replacer k held (afterToJSON held)
  = (_ ← checkKey k held;
     Ok (match held with
         | VDate t => VObj [("$$date", VNum t)]
         | _ => held
         end)).
Proof.
  unfold serialize_replacer. rewrite checkKey_afterToJSON.
  destruct held; reflexivity.
Qed.

Lemma checkKey_keyOfIndex i v : checkKey (keyOfIndex i) v = Ok tt.
Proof. apply validKey_checkKey, keyOfIndex_valid. Qed.

Lemma stringify_elements fuel l :
  (forall x, In x l -> forall k,
     sameOutcome (_ ← checkKey k x; checkObject x)
       (stringify_fuel fuel serialize_replacer k x)) ->
  forall s,
  sameOutcome (checkObject (VArr l))
    (mapM (fun ix : nat * value =>
             r ← stringify_fuel fuel serialize_replacer
                   (keyOfIndex (fst ix)) (snd ix);
             Ok (default JNull r)) (combine (seq s (length l)) l)).
Proof.
  induction l as [|x r IH]; intros H s; [eexists; reflexivity|].
  change (checkObject (VArr (x :: r)))
    with (_ ← checkObject x; checkObject (VArr r)).
  cbn [length seq combine mapM fst snd].
  pose proof (H x (or_introl eq_refl) (keyOfIndex s)) as Hx.
  rewrite checkKey_keyOfIndex in Hx. cbn [mbind result_bind] in Hx.
  specialize (IH (fun y Hy => H y (or_intror Hy)) (S s)).
  unfold sameOutcome in *.
  destruct (checkObject_cases x) as [Hc | [e Hc]]; rewrite Hc in *;
    cbn [mbind result_bind]; [|rewrite Hx; reflexivity].
  destruct Hx as [j ->]. cbn [mbind result_bind].
  destruct (checkObject_cases (VArr r)) as [Hr | [e Hr]]; rewrite Hr in *.
  - destruct IH as [js ->]. eexists; reflexivity.
  - rewrite IH. reflexivity.
Qed.

Lemma stringify_members fuel kvs :
  (forall k x, In (k, x) kvs ->
     sameOutcome (_ ← checkKey k x; checkObject x)
       (stringify_fuel fuel serialize_replacer k x)) ->
  sameOutcome (checkObject (VObj kvs))
    (mapM (fun kv : string * value =>
             r ← stringify_fuel fuel serialize_replacer (fst kv) (snd kv);
             Ok (option_map (fun j => (fst kv, j)) r)) kvs).
Proof.
  induction kvs as [|[k x] r IH]; intros H; [eexists; reflexivity|].
  change (checkObject (VObj ((k, x) :: r)))
    with (_ ← checkKey k x; _ ← checkObject x; checkObject (VObj r)).
  cbn [mapM fst snd].
  pose proof (H k x (or_introl eq_refl)) as Hx.
  specialize (IH (fun k' y Hy => H k' y (or_intror Hy))).
  unfold sameOutcome in *.
  destruct (checkKey_cases k x) as [Hc | [e Hc]]; rewrite Hc in *;
    cbn [mbind result_bind] in *; [|rewrite Hx; reflexivity].
  destruct (checkObject_cases x) as [Hc' | [e Hc']]; rewrite Hc' in *;
    cbn [mbind result_bind] in *; [|rewrite Hx; reflexivity].
  destruct Hx as [j ->]. cbn [mbind result_bind].
  destruct (checkObject_cases (VObj r)) as [Hr | [e Hr]]; rewrite Hr in *.
  - destruct IH as [js ->]. eexists; reflexivity.
  - rewrite IH. reflexivity.
Qed.

(** [stringify] visits the keys in the order of [checkObject] and applies
    [checkKey] to each of them before it descends. *)
Lemma stringify_agrees_with_checkObject held :
  forall fuel k, (depth held + 2 <= fuel)%nat ->
  sameOutcome (_ ← checkKey k held; checkObject held)
    (stringify_fuel fuel serialize_replacer k held).
Proof.
  induction held using value_nested_ind; intros fuel k Hn;
    (destruct fuel as [|fuel]; [lia|]);
    simpl stringify_fuel; unfold stringify_body;
    rewrite serialize_replacer_held;
    (match goal with
     | |- context [checkKey k ?v] =>
         destruct (checkKey_cases k v) as [Hk | [e Hk]]; rewrite Hk;
         [|reflexivity]
     end);
    cbn [mbind result_bind];
    try (eexists; reflexivity).
  - (* a date *)
    destruct fuel as [|fuel]; [simpl in Hn; lia|]. eexists; reflexivity.
  - (* an array *)
    pose proof (stringify_elements fuel l) as Hel.
    rewrite List.Forall_forall in H.
    specialize (Hel (fun x Hx k' =>
      H x Hx fuel k' ltac:(pose proof (depth_arr_elem l x Hx); lia)) O).
    unfold indexed, sameOutcome in *.
    destruct (checkObject_cases (VArr l)) as [Hr | [e Hr]]; rewrite Hr in *.
    + destruct Hel as [js ->]. eexists; reflexivity.
    + rewrite Hel. reflexivity.
  - (* an object *)
    pose proof (stringify_members fuel kvs) as Hel.
    rewrite List.Forall_forall in H.
    specialize (Hel (fun k' x Hx =>
      H (k', x) Hx fuel k' ltac:(simpl; pose proof (depth_obj_elem kvs k' x Hx); lia))).
    unfold sameOutcome in *.
    destruct (checkObject_cases (VObj kvs)) as [Hr | [e Hr]]; rewrite Hr in *.
    + destruct Hel as [js ->]. eexists; reflexivity.
    + rewrite Hel. reflexivity.
Qed.

(** [serialize(obj)] throws exactly when [checkObject(obj)] throws, and then
    with the same error; otherwise it returns the serialized value. *)
Theorem serialize_throws_as_checkObject (obj : value) :
  (forall e, serialize obj = Throw e <-> checkObject obj = Throw e)
  /\ ((exists j, serialize obj = Ok j) <-> checkObject obj = Ok tt).
Proof.
  pose proof (stringify_agrees_with_checkObject obj (depth obj + 2) ""
                ltac:(lia)) as H.
  change (checkKey "" obj) with (@Ok unit tt) in H.
  cbn [mbind result_bind] in H. fold (serialize obj) in H.
  unfold sameOutcome in H.
  destruct (checkObject_cases obj) as [Hc | [e Hc]]; rewrite Hc in *.
  - destruct H as [j Hj]. split.
    + intros e. rewrite Hj. split; discriminate.
    + split; [reflexivity|]. intros _. exists j. exact Hj.
  - rewrite H. split.
    + intros e'. split; intros E; injection E as <-; reflexivity.
    + split; [intros [j Hj]; discriminate Hj | discriminate].
Qed.

(** ** The comparator as an order *)

Lemma compareNSB_relational a b c :
  relational a b = Ok (Some c) -> compareNSB a b = Ok (signOf c).
Proof.
  intros H. unfold compareNSB, jsLt, jsGt. rewrite H. destruct c; reflexivity.
Qed.

Lemma signOf_CompOpp c : signOf (CompOpp c) = - signOf c.
Proof. destruct c; reflexivity. Qed.

Lemma compareNSB_num x y : compareNSB (VNum x) (VNum y) = Ok (signOf (x ?= y)).
Proof. apply compareNSB_relational. reflexivity. Qed.

Lemma compareNSB_str x y :
  compareNSB (VStr x) (VStr y) = Ok (signOf (String.compare x y)).
Proof. apply compareNSB_relational. reflexivity. Qed.

Lemma compareNSB_bool x y :
  compareNSB (VBool x) (VBool y)
  = Ok (signOf ((if x then 1 else 0) ?= (if y then 1 else 0))).
Proof. apply compareNSB_relational. reflexivity. Qed.

Lemma signOf_range c : signOf c = -1 \/ signOf c = 0 \/ signOf c = 1.
Proof. destruct c; simpl; auto. Qed.

Lemma signOf_antisym_Z x y : signOf (y ?= x) = - signOf (x ?= y).
Proof. rewrite (Z.compare_antisym x y). apply signOf_CompOpp. Qed.

Lemma signOf_antisym_string x y :
  signOf (String.compare y x) = - signOf (String.compare x y).
Proof. rewrite (String.compare_antisym y x). apply signOf_CompOpp. Qed.

Lemma string_compare_refl x : String.compare x x = Eq.
Proof.
  destruct (String.compare x x) eqn:E; [reflexivity| |];
    pose proof (String.compare_antisym x x) as H; rewrite E in H;
    discriminate H.
Qed.

(** The loop shared by [compareArrays] and the object case of
    [compareThings]: compare position by position, stop at the first
    difference, else return [last]. *)
Section pairwise.
Context {K : Type}.

Lemma pairwise_antisym (f g : K -> K -> result Z) (last last' : result Z) :
  (forall c, last = Ok c -> last' = Ok (- c)) ->
  forall xs ys c,
  (forall x y c, In x xs -> f x y = Ok c -> g y x = Ok (- c)) ->
  (fix loop (xs ys : list K) : result Z :=
     match xs, ys with
     | x :: xs', y :: ys' =>
         comp ← f x y; if comp =? 0 then loop xs' ys' else Ok comp
     | _, _ => last
     end) xs ys = Ok c ->
  (fix loop (xs ys : list K) : result Z :=
     match xs, ys with
     | x :: xs', y :: ys' =>
         comp ← g x y; if comp =? 0 then loop xs' ys' else Ok comp
     | _, _ => last'
     end) ys xs = Ok (- c).
Proof.
  intros Hlast. induction xs as [|x xs IH]; intros ys c Hf H.
  - destruct ys; apply Hlast; exact H.
  - destruct ys as [|y ys]; [apply Hlast; exact H|].
    destruct (f x y) as [comp| | |] eqn:E; try discriminate H.
    rewrite (Hf x y comp (or_introl eq_refl) E). cbn [mbind result_bind] in *.
    destruct (Z.eqb_spec comp 0) as [->|Hne].
    + simpl. apply IH; [|exact H]. intros; eapply Hf; eauto. right; assumption.
    + destruct (Z.eqb_spec (- comp) 0) as [E0|_]; [lia|].
      injection H as <-. reflexivity.
Qed.

Lemma pairwise_ext (f g : K -> K -> result Z) (last : result Z) :
  forall xs ys c,
  (forall x y c, In x xs -> f x y = Ok c -> g x y = Ok c) ->
  (fix loop (xs ys : list K) : result Z :=
     match xs, ys with
     | x :: xs', y :: ys' =>
         comp ← f x y; if comp =? 0 then loop xs' ys' else Ok comp
     | _, _ => last
     end) xs ys = Ok c ->
  (fix loop (xs ys : list K) : result Z :=
     match xs, ys with
     | x :: xs', y :: ys' =>
         comp ← g x y; if comp =? 0 then loop xs' ys' else Ok comp
     | _, _ => last
     end) xs ys = Ok c.
Proof.
  induction xs as [|x xs IH]; intros ys c Hf H; [exact H|].
  destruct ys as [|y ys]; [exact H|].
  destruct (f x y) as [comp| | |] eqn:E; try discriminate H.
  rewrite (Hf x y comp (or_introl eq_refl) E). cbn [mbind result_bind] in *.
  destruct (comp =? 0); [|exact H].
  apply IH; [|exact H]. intros; eapply Hf; eauto. right; assumption.
Qed.

Lemma pairwise_total (f : K -> K -> result Z) (last : result Z) :
  (exists c, last = Ok c /\ (c = -1 \/ c = 0 \/ c = 1)) ->
  forall xs ys,
  (forall x y, In x xs -> In y ys ->
     exists c, f x y = Ok c /\ (c = -1 \/ c = 0 \/ c = 1)) ->
  exists c,
    (fix loop (xs ys : list K) : result Z :=
       match xs, ys with
       | x :: xs', y :: ys' =>
           comp ← f x y; if comp =? 0 then loop xs' ys' else Ok comp
       | _, _ => last
       end) xs ys = Ok c
    /\ (c = -1 \/ c = 0 \/ c = 1).
Proof.
  intros Hlast. induction xs as [|x xs IH]; intros ys Hf; [exact Hlast|].
  destruct ys as [|y ys]; [exact Hlast|].
  destruct (Hf x y (or_introl eq_refl) (or_introl eq_refl)) as (comp & E & Hr).
  rewrite E. cbn [mbind result_bind].
  destruct (comp =? 0).
  - apply IH. intros; apply Hf; right; assumption.
  - exists comp. split; [reflexivity|exact Hr].
Qed.

Lemma pairwise_refl (f : K -> K -> result Z) (last : result Z) :
  last = Ok 0 ->
  forall xs,
  (forall x, In x xs -> f x x = Ok 0) ->
  (fix loop (xs ys : list K) : result Z :=
     match xs, ys with
     | x :: xs', y :: ys' =>
         comp ← f x y; if comp =? 0 then loop xs' ys' else Ok comp
     | _, _ => last
     end) xs xs = Ok 0.
Proof.
  intros Hlast. induction xs as [|x xs IH]; intros Hf; [exact Hlast|].
  rewrite (Hf x (or_introl eq_refl)). cbn [mbind result_bind]. simpl.
  apply IH. intros; apply Hf; right; assumption.
Qed.

End pairwise.

Lemma depth_getProp_obj kvs k :
  (depth (getProp (VObj kvs) k) < depth (VObj kvs))%nat.
Proof.
  cbn [getProp]. destruct (assoc k kvs) as [x|] eqn:E; [|simpl; lia].
  cbn [default from_option id]. apply (depth_obj_elem kvs k).
  induction kvs as [|[k' v] r IH]; [discriminate E|]. simpl in E.
  destruct (String.eqb_spec k' k) as [->|_].
  - injection E as ->. left; reflexivity.
  - right. apply IH. exact E.
Qed.

Lemma mongoIdToString_cases a a' :
  mongoIdToString a = Ok a' -> a' = a \/ exists s, a' = VStr s.
Proof.
  unfold mongoIdToString. destruct (isMongoId a) as [[|]| | |]; simpl;
    try discriminate; [|intros H; injection H as <-; auto].
  destruct a; try (intros H; injection H as <-; auto).
  destruct (assoc "toString" kvs); [discriminate|].
  intros H; injection H as <-. right. eexists; reflexivity.
Qed.

(** Swapping the operands negates the result, under the same budget. *)
Lemma compareThings_fuel_antisym n : forall a b cs c,
  match cs with
  | Some f => forall x y, f y x = - f x y
  | None => True
  end ->
  compareThings_fuel n a b cs = Ok c ->
  compareThings_fuel n b a cs = Ok (- c).
Proof.
  induction n as [|n IH]; intros a b cs c Hcs H; [discriminate H|].
  cbn [compareThings_fuel] in *. unfold compareThings_body in *.
  destruct (mongoIdToString a) as [a'| | |] eqn:Ea; try discriminate H.
  cbn [mbind result_bind] in H.
  destruct (mongoIdToString b) as [b'| | |] eqn:Eb; try discriminate H.
  cbn [mbind result_bind] in *.
  destruct a', b'; try (injection H as <-; reflexivity).
  - rewrite compareNSB_bool in *. injection H as <-.
    rewrite signOf_antisym_Z. reflexivity.
  - rewrite compareNSB_num in *. injection H as <-.
    rewrite signOf_antisym_Z. reflexivity.
  - destruct cs as [f|]; cbn [compareStringsWith] in *.
    + injection H as <-. rewrite Hcs. reflexivity.
    + rewrite compareNSB_str in *. injection H as <-.
      rewrite signOf_antisym_string. reflexivity.
  - rewrite compareNSB_num in *. injection H as <-.
    rewrite signOf_antisym_Z. reflexivity.
  - unfold compareArrays in *.
    eapply (pairwise_antisym
              (fun x y => compareThings_fuel n x y None)
              (fun x y => compareThings_fuel n x y None)); [| |exact H].
    + rewrite !compareNSB_num. intros c0 E. injection E as <-.
      rewrite signOf_antisym_Z. reflexivity.
    + intros x y c0 _ E. apply IH; [exact I|exact E].
  - cbv zeta in *.
    eapply (pairwise_antisym
              (fun ak bk => compareThings_fuel n (getProp (VObj kvs) ak)
                              (getProp (VObj kvs0) bk) None)
              (fun bk ak => compareThings_fuel n (getProp (VObj kvs0) bk)
                              (getProp (VObj kvs) ak) None)); [| |exact H].
    + rewrite !compareNSB_num. intros c0 E. injection E as <-.
      rewrite signOf_antisym_Z. reflexivity.
    + intros x y c0 _ E. apply IH; [exact I|exact E].
Qed.

(** A result does not depend on the budget, once the budget covers the
    depth of the first operand. *)
Lemma compareThings_fuel_enough n : forall a b cs c,
  compareThings_fuel n a b cs = Ok c ->
  forall m, (depth a < m)%nat -> compareThings_fuel m a b cs = Ok c.
Proof.
  induction n as [|n IH]; intros a b cs c H m Hm; [discriminate H|].
  destruct m as [|m]; [lia|].
  cbn [compareThings_fuel] in *. unfold compareThings_body in *.
  destruct (mongoIdToString a) as [a'| | |] eqn:Ea; try discriminate H.
  cbn [mbind result_bind] in *.
  destruct (mongoIdToString b) as [b'| | |]; try discriminate H.
  cbn [mbind result_bind] in *.
  destruct a', b'; try exact H.
  - destruct (mongoIdToString_cases _ _ Ea) as [<-|[s Hs]]; [|discriminate Hs].
    unfold compareArrays in *.
    eapply (pairwise_ext (fun x y => compareThings_fuel n x y None)
              (fun x y => compareThings_fuel m x y None)); [|exact H].
    intros x y c0 Hx E. apply (IH _ _ _ _ E).
    pose proof (depth_arr_elem l x Hx). lia.
  - destruct (mongoIdToString_cases _ _ Ea) as [<-|[s Hs]]; [|discriminate Hs].
    cbv zeta in *.
    eapply (pairwise_ext
              (fun ak bk => compareThings_fuel n (getProp (VObj kvs) ak)
                              (getProp (VObj kvs0) bk) None)
              (fun ak bk => compareThings_fuel m (getProp (VObj kvs) ak)
                              (getProp (VObj kvs0) bk) None)); [|exact H].
    intros x y c0 _ E. apply (IH _ _ _ _ E).
    pose proof (depth_getProp_obj kvs x). lia.
Qed.

Lemma orderable_isMongoId a : orderable a = true -> mongoIdToString a = Ok a.
Proof.
  intros H. apply mongoIdToString_plain.
  destruct a; try reflexivity; [discriminate H|].
  simpl in H. apply andb_prop in H as [H _]. unfold hasOwn in H. simpl.
  destruct (assoc "constructor" kvs); [discriminate H|reflexivity].
Qed.

Lemma orderable_getProp_obj kvs k :
  orderable (VObj kvs) = true -> orderable (getProp (VObj kvs) k) = true.
Proof.
  simpl. intros H. apply andb_prop in H as [_ H].
  induction kvs as [|[k' v] r IH]; [reflexivity|].
  simpl in H. apply andb_prop in H as [Hv Hr]. simpl.
  destruct (k' =? k)%string; [exact Hv|]. apply IH; exact Hr.
Qed.

Lemma compareThings_fuel_total n : forall a b,
  orderable a = true -> orderable b = true -> (depth a < n)%nat ->
  exists c, compareThings_fuel n a b None = Ok c
            /\ (c = -1 \/ c = 0 \/ c = 1).
Proof.
  induction n as [|n IH]; intros a b Ha Hb Hn; [lia|].
  cbn [compareThings_fuel]. unfold compareThings_body.
  rewrite (orderable_isMongoId a Ha), (orderable_isMongoId b Hb).
  cbn [mbind result_bind].
  destruct a, b; try discriminate Ha; try discriminate Hb;
    try (eexists; split; [reflexivity|auto; fail]).
  - rewrite compareNSB_bool. eexists; split; [reflexivity|apply signOf_range].
  - rewrite compareNSB_num. eexists; split; [reflexivity|apply signOf_range].
  - cbn [compareStringsWith]. rewrite compareNSB_str.
    eexists; split; [reflexivity|apply signOf_range].
  - rewrite compareNSB_num. eexists; split; [reflexivity|apply signOf_range].
  - unfold compareArrays.
    apply (pairwise_total (fun x y => compareThings_fuel n x y None)).
    + rewrite compareNSB_num. eexists; split; [reflexivity|apply signOf_range].
    + intros x y Hx Hy. simpl in Ha, Hb.
      rewrite forallb_forall in Ha, Hb. apply IH; auto.
      pose proof (depth_arr_elem l x Hx). lia.
  - cbv zeta.
    apply (pairwise_total
             (fun ak bk => compareThings_fuel n (getProp (VObj kvs) ak)
                             (getProp (VObj kvs0) bk) None)).
    + rewrite compareNSB_num. eexists; split; [reflexivity|apply signOf_range].
    + intros x y _ _. apply IH.
      * apply orderable_getProp_obj; exact Ha.
      * apply orderable_getProp_obj; exact Hb.
      * pose proof (depth_getProp_obj kvs x). lia.
Qed.

Lemma compareThings_fuel_refl n : forall a,
  orderable a = true -> (depth a < n)%nat ->
  compareThings_fuel n a a None = Ok 0.
Proof.
  induction n as [|n IH]; intros a Ha Hn; [lia|].
  cbn [compareThings_fuel]. unfold compareThings_body.
  rewrite (orderable_isMongoId a Ha). cbn [mbind result_bind].
  destruct a; try discriminate Ha; try reflexivity.
  - rewrite compareNSB_bool, Z.compare_refl. reflexivity.
  - rewrite compareNSB_num, Z.compare_refl. reflexivity.
  - cbn [compareStringsWith]. rewrite compareNSB_str, string_compare_refl.
    reflexivity.
  - rewrite compareNSB_num, Z.compare_refl. reflexivity.
  - unfold compareArrays.
    apply (pairwise_refl (fun x y => compareThings_fuel n x y None)).
    + rewrite compareNSB_num, Z.compare_refl. reflexivity.
    + intros x Hx. simpl in Ha. rewrite forallb_forall in Ha. apply IH; auto.
      pose proof (depth_arr_elem l x Hx). lia.
  - cbv zeta.
    apply (pairwise_refl
             (fun ak bk => compareThings_fuel n (getProp (VObj kvs) ak)
                             (getProp (VObj kvs) bk) None)).
    + rewrite compareNSB_num, Z.compare_refl. reflexivity.
    + intros x _. apply IH.
      * apply orderable_getProp_obj; exact Ha.
      * pose proof (depth_getProp_obj kvs x). lia.
Qed.

(** Whenever [compareThings(a, b)] returns [c], [compareThings(b, a)]
    returns [-c]; with a string comparator of the caller's, provided that
    comparator is antisymmetric itself. *)
Theorem compareThings_antisymmetric (a b : value)
    (cs : option (string -> string -> Z)) (c : Z) :
  match cs with
  | Some f => forall x y, f y x = - f x y
  | None => True
  end ->
  compareThings a b cs = Ok c ->
  compareThings b a cs = Ok (- c).
Proof.
  unfold compareThings. intros Hcs H.
  apply (compareThings_fuel_enough (S (depth a))); [|lia].
  apply compareThings_fuel_antisym; assumption.
Qed.

Lemma compareThings_antisymmetric_witness :
  let a := VObj [("n", VNum 1); ("tags", VArr [VStr "a"; VStr "b"])] in
  let b := VObj [("tags", VArr [VStr "a"; VStr "c"]); ("n", VNum 1)] in
  compareThings a b None = Ok (-1) /\ compareThings b a None = Ok (- -1).
Proof.
  intros a b. split; [reflexivity|].
  apply (compareThings_antisymmetric a b None (-1) I). reflexivity.
Defined.

(** On values without [null] and without a [constructor] property,
    [compareThings] returns, and returns -1, 0 or 1. *)
Theorem compareThings_returns_sign (a b : value) :
  orderable a = true -> orderable b = true ->
  exists c, compareThings a b None = Ok c /\ (c = -1 \/ c = 0 \/ c = 1).
Proof.
  intros Ha Hb. apply compareThings_fuel_total; [exact Ha|exact Hb|lia].
Qed.

Lemma compareThings_returns_sign_witness :
  exists c,
    compareThings (VArr [VNum 1; VObj [("a", VDate 5)]])
      (VArr [VNum 1; VObj [("b", VStr "x")]]) None = Ok c
    /\ (c = -1 \/ c = 0 \/ c = 1).
Proof.
  apply (compareThings_returns_sign (VArr [VNum 1; VObj [("a", VDate 5)]])
           (VArr [VNum 1; VObj [("b", VStr "x")]])); reflexivity.
Defined.

(** On a value without [null] and without a [constructor] property,
    [compareThings(a, a)] is 0. *)
Theorem compareThings_reflexive (a : value) :
  orderable a = true -> compareThings a a None = Ok 0.
Proof.
  intros Ha. apply compareThings_fuel_refl; [exact Ha|lia].
Qed.

Lemma compareThings_reflexive_witness :
  compareThings (VObj [("a", VArr [VNum 1; VStr "x"]); ("d", VDate 3)])
    (VObj [("a", VArr [VNum 1; VStr "x"]); ("d", VDate 3)]) None = Ok 0.
Proof.
  apply (compareThings_reflexive
           (VObj [("a", VArr [VNum 1; VStr "x"]); ("d", VDate 3)])).
  reflexivity.
Defined.

Lemma chains_Z x y z :
  signOf (x ?= y) <= 0 -> signOf (y ?= z) <= 0 ->
  chains (signOf (x ?= y)) (signOf (y ?= z)) (signOf (x ?= z)).
Proof.
  unfold chains.
  destruct (Z.compare_spec x y), (Z.compare_spec y z), (Z.compare_spec x z);
    simpl; lia.
Qed.

Lemma chains_string x : forall y z,
  signOf (String.compare x y) <= 0 -> signOf (String.compare y z) <= 0 ->
  chains (signOf (String.compare x y)) (signOf (String.compare y z))
    (signOf (String.compare x z)).
Proof.
  induction x as [|a x IH]; intros [|b y] [|c z]; simpl;
    try (unfold chains; simpl; lia).
  unfold Ascii.compare.
  destruct (N.compare_spec (N_of_ascii a) (N_of_ascii b)),
           (N.compare_spec (N_of_ascii b) (N_of_ascii c)),
           (N.compare_spec (N_of_ascii a) (N_of_ascii c));
    try apply IH; try (unfold chains; simpl; lia).
Qed.

Section pairwise_chains.
Context {K : Type}.

Lemma pairwise_chains (f g h : K -> K -> result Z) (la lb lc : Z) :
  forall xs ys zs p q,
  (exists k, la = k + lengthZ xs /\ lb = k + lengthZ ys
             /\ lc = k + lengthZ zs) ->
  (forall x y z p q, In x xs -> f x y = Ok p -> g y z = Ok q ->
     p <= 0 -> q <= 0 -> exists r, h x z = Ok r /\ chains p q r) ->
  (fix loop (xs ys : list K) : result Z :=
     match xs, ys with
     | x :: xs', y :: ys' =>
         comp ← f x y; if comp =? 0 then loop xs' ys' else Ok comp
     | _, _ => Ok (signOf (la ?= lb))
     end) xs ys = Ok p ->
  (fix loop (xs ys : list K) : result Z :=
     match xs, ys with
     | x :: xs', y :: ys' =>
         comp ← g x y; if comp =? 0 then loop xs' ys' else Ok comp
     | _, _ => Ok (signOf (lb ?= lc))
     end) ys zs = Ok q ->
  p <= 0 -> q <= 0 ->
  exists r,
    (fix loop (xs ys : list K) : result Z :=
       match xs, ys with
       | x :: xs', y :: ys' =>
           comp ← h x y; if comp =? 0 then loop xs' ys' else Ok comp
       | _, _ => Ok (signOf (la ?= lc))
       end) xs zs = Ok r
    /\ chains p q r.
Proof.
  induction xs as [|x xs IH]; intros ys zs p q (k & Ha & Hb & Hc) Hh Hp Hq Hp0 Hq0.
  - (* the first list is exhausted *)
    injection Hp as <-.
    destruct ys as [|y ys].
    + injection Hq as <-. exists (signOf (la ?= lc)).
      split; [destruct zs; reflexivity|]. apply chains_Z; assumption.
    + destruct zs as [|z zs].
      * injection Hq as <-. exfalso. unfold lengthZ in *. simpl length in *.
        destruct (Z.compare_spec lb lc); simpl in Hq0; lia.
      * exists (signOf (la ?= lc)). split; [reflexivity|].
        unfold chains, lengthZ in *. simpl length in *.
        destruct (Z.compare_spec la lb), (Z.compare_spec la lc);
          simpl in *; lia.
  - destruct ys as [|y ys].
    + injection Hp as <-. exfalso. unfold lengthZ in *. simpl length in *.
      destruct (Z.compare_spec la lb); simpl in Hp0; lia.
    + destruct zs as [|z zs].
      * injection Hq as <-. exfalso. unfold lengthZ in *. simpl length in *.
        destruct (Z.compare_spec lb lc); simpl in Hq0; lia.
      * destruct (f x y) as [p0| | |] eqn:Ef; try discriminate Hp.
        destruct (g y z) as [q0| | |] eqn:Eg; try discriminate Hq.
        cbn [mbind result_bind] in Hp, Hq.
        assert (Hp0' : p0 <= 0).
        { destruct (Z.eqb_spec p0 0); [lia|]. injection Hp as <-. exact Hp0. }
        assert (Hq0' : q0 <= 0).
        { destruct (Z.eqb_spec q0 0); [lia|]. injection Hq as <-. exact Hq0. }
        destruct (Hh x y z p0 q0 (or_introl eq_refl) Ef Eg Hp0' Hq0')
          as (r0 & Eh & Hr0 & Hr0z).
        rewrite Eh. cbn [mbind result_bind].
        destruct (Z.eqb_spec p0 0) as [->|Hpn].
        -- destruct (Z.eqb_spec q0 0) as [->|Hqn].
           ++ destruct (Z.eqb_spec r0 0) as [_|Hrn]; [|tauto].
              apply (IH ys zs p q); try assumption.
              ** exists (k + 1). unfold lengthZ in *. simpl length in *.
                 repeat split; lia.
              ** intros; eapply Hh; eauto. right; assumption.
           ++ injection Hq as <-.
              destruct (Z.eqb_spec r0 0) as [Hrz|Hrn]; [tauto|].
              exists r0. split; [reflexivity|]. unfold chains. split; [lia|].
              split; [lia|]. intros [_ ?]; lia.
        -- injection Hp as <-.
           destruct (Z.eqb_spec r0 0) as [Hrz|Hrn]; [tauto|].
           exists r0. split; [reflexivity|]. unfold chains. split; [lia|].
           split; [lia|]. intros [? _]; lia.
Qed.

End pairwise_chains.

Lemma mongoIdToString_not_null a : mongoIdToString a <> Ok VNull.
Proof.
  intros H. destruct (mongoIdToString_cases _ _ H) as [<-|[s Hs]];
    discriminate.
Qed.

Lemma compareThings_fuel_lower n a b a' b' cs :
  mongoIdToString a = Ok a' -> mongoIdToString b = Ok b' ->
  (rank a' < rank b')%nat ->
  compareThings_fuel (S n) a b cs = Ok (-1).
Proof.
  intros Ea Eb Hr. cbn [compareThings_fuel]. unfold compareThings_body.
  rewrite Ea, Eb. cbn [mbind result_bind].
  destruct a', b'; simpl in Hr; try lia; reflexivity.
Qed.

Lemma compareThings_fuel_higher n a b a' b' cs :
  mongoIdToString a = Ok a' -> mongoIdToString b = Ok b' ->
  (rank b' < rank a')%nat ->
  compareThings_fuel (S n) a b cs = Ok 1.
Proof.
  intros Ea Eb Hr. cbn [compareThings_fuel]. unfold compareThings_body.
  rewrite Ea, Eb. cbn [mbind result_bind].
  destruct a', b'; simpl in Hr; try lia; reflexivity.
Qed.

(** [compareThings] chains, under a common budget. *)
Lemma compareThings_fuel_chains n : forall a b c p q,
  compareThings_fuel n a b None = Ok p ->
  compareThings_fuel n b c None = Ok q ->
  p <= 0 -> q <= 0 ->
  exists r, compareThings_fuel n a c None = Ok r /\ chains p q r.
Proof.
  induction n as [|n IH]; intros a b c p q Hp Hq Hp0 Hq0; [discriminate Hp|].
  destruct (mongoIdToString a) as [a'| | |] eqn:Ea;
    try (cbn [compareThings_fuel] in Hp; unfold compareThings_body in Hp;
         rewrite Ea in Hp; discriminate Hp).
  destruct (mongoIdToString b) as [b'| | |] eqn:Eb;
    try (cbn [compareThings_fuel] in Hq; unfold compareThings_body in Hq;
         rewrite Eb in Hq; discriminate Hq).
  destruct (mongoIdToString c) as [c'| | |] eqn:Ec;
    try (cbn [compareThings_fuel] in Hq; unfold compareThings_body in Hq;
         rewrite Eb, Ec in Hq; discriminate Hq).
  destruct (lt_eq_lt_dec (rank a') (rank b')) as [[Hab|Hab]|Hab];
    [rewrite (compareThings_fuel_lower n a b a' b' None Ea Eb Hab) in Hp
    | |rewrite (compareThings_fuel_higher n a b a' b' None Ea Eb Hab) in Hp;
       injection Hp as <-; lia];
    (destruct (lt_eq_lt_dec (rank b') (rank c')) as [[Hbc|Hbc]|Hbc];
     [rewrite (compareThings_fuel_lower n b c b' c' None Eb Ec Hbc) in Hq
     | |rewrite (compareThings_fuel_higher n b c b' c' None Eb Ec Hbc) in Hq;
        injection Hq as <-; lia]);
    try (rewrite (compareThings_fuel_lower n a c a' c' None Ea Ec) by lia;
         exists (-1); split; [reflexivity|];
         try (injection Hp as <-); try (injection Hq as <-);
         unfold chains; lia).
  (* the three operands have the same type *)
  cbn [compareThings_fuel] in *. unfold compareThings_body in *.
  rewrite Ea, Eb in Hp. rewrite Eb, Ec in Hq. rewrite Ea, Ec.
  cbn [mbind result_bind] in *.
  destruct a'; destruct b'; try discriminate Hab;
    destruct c'; try discriminate Hbc;
    cbn [compareStringsWith] in *;
    rewrite ?compareNSB_num, ?compareNSB_str, ?compareNSB_bool in *;
    try (injection Hp as <-); try (injection Hq as <-).
  - exists 0. split; [reflexivity|]. unfold chains; lia.
  - exfalso. exact (mongoIdToString_not_null _ Ea).
  - eexists; split; [reflexivity|]. apply chains_Z; assumption.
  - eexists; split; [reflexivity|]. apply chains_Z; assumption.
  - eexists; split; [reflexivity|]. apply chains_string; assumption.
  - eexists; split; [reflexivity|]. apply chains_Z; assumption.
  - (* three arrays *)
    unfold compareArrays in *. rewrite ?compareNSB_num in *.
    eapply (pairwise_chains
              (fun x y => compareThings_fuel n x y None)
              (fun x y => compareThings_fuel n x y None)
              (fun x y => compareThings_fuel n x y None));
      [exists 0; repeat split; lia | | exact Hp | exact Hq | exact Hp0 | exact Hq0].
    intros x y z p' q' _ Hx Hy Hp' Hq'. eapply IH; eauto.
  - (* three objects *)
    cbv zeta in *. rewrite ?compareNSB_num in *.
    eapply (pairwise_chains
              (fun ak bk => compareThings_fuel n (getProp (VObj kvs) ak)
                              (getProp (VObj kvs0) bk) None)
              (fun bk ck => compareThings_fuel n (getProp (VObj kvs0) bk)
                              (getProp (VObj kvs1) ck) None)
              (fun ak ck => compareThings_fuel n (getProp (VObj kvs) ak)
                              (getProp (VObj kvs1) ck) None));
      [exists 0; repeat split; lia | | exact Hp | exact Hq | exact Hp0 | exact Hq0].
    intros x y z p' q' _ Hx Hy Hp' Hq'. eapply IH; eauto.
Qed.

(** [compareThings] is transitive on the values of the embedding, whose
    numbers are integers (no [NaN]) and whose dates are valid: when
    [compareThings(a, b)] and [compareThings(b, c)] return numbers that are
    at most 0, so does [compareThings(a, c)], and it returns 0 exactly when
    both did. *)
Theorem compareThings_transitive (a b c : value) (p q : Z) :
  compareThings a b None = Ok p ->
  compareThings b c None = Ok q ->
  p <= 0 -> q <= 0 ->
  exists r, compareThings a c None = Ok r
            /\ r <= 0 /\ (r = 0 <-> p = 0 /\ q = 0).
Proof.
  unfold compareThings. intros Hp Hq Hp0 Hq0.
  pose (n := S (Nat.max (depth a) (depth b))).
  apply (compareThings_fuel_enough _ _ _ _ _) with (m := n) in Hp; [|lia].
  apply (compareThings_fuel_enough _ _ _ _ _) with (m := n) in Hq; [|lia].
  destruct (compareThings_fuel_chains n a b c p q Hp Hq Hp0 Hq0)
    as (r & Hr & Hch).
  exists r. split; [|exact Hch].
  apply (compareThings_fuel_enough n); [exact Hr|lia].
Qed.

Lemma compareThings_transitive_witness :
  let a := VArr [VNum 1; VStr "a"] in
  let b := VArr [VNum 1; VStr "b"] in
  let c := VObj [("k", VBool true)] in
  exists r, compareThings a c None = Ok r
            /\ r <= 0 /\ (r = 0 <-> -1 = 0 /\ -1 = 0).
Proof.
  intros a b c.
  apply (compareThings_transitive a b c (-1) (-1));
    [reflexivity | reflexivity | lia | lia].
Defined.

(** ** [uniq] *)

Lemma existsb_eqb_In x (l : list string) :
  existsb (String.eqb x) l = true <-> In x l.
Proof.
  rewrite existsb_exists. split.
  - intros (y & Hy & E). apply String.eqb_eq in E. subst. exact Hy.
  - intros H. exists x. split; [exact H|apply String.eqb_refl].
Qed.

Lemma uniqFrom_spec l : forall seen,
  List.NoDup (uniqFrom seen l)
  /\ (forall x, In x (uniqFrom seen l) <-> In x l /\ ~ In x seen)
  /\ sublist (uniqFrom seen l) l.
Proof.
  induction l as [|y l IH]; intros seen; simpl.
  - split; [constructor|]. split; [intros x; tauto|constructor].
  - destruct (existsb (String.eqb y) seen) eqn:E.
    + apply existsb_eqb_In in E.
      destruct (IH seen) as (Hnd & Hin & Hsub).
      split; [exact Hnd|]. split; [|apply sublist_cons; exact Hsub].
      intros x. rewrite Hin. split; [tauto|].
      intros [[->|Hx] Hs]; [contradiction|tauto].
    + assert (Hy : ~ In y seen).
      { intros H. apply existsb_eqb_In in H. congruence. }
      destruct (IH (y :: seen)) as (Hnd & Hin & Hsub).
      split; [|split; [|apply sublist_skip; exact Hsub]].
      * constructor; [|exact Hnd]. rewrite Hin. simpl. tauto.
      * intros x. simpl. rewrite Hin. simpl.
        destruct (String.eqb_spec y x) as [->|Hne]; tauto.
Qed.

Lemma uniqFrom_snoc l k : forall seen,
  uniqFrom seen (l ++ [k])%list
  = (uniqFrom seen l
     ++ (if existsb (String.eqb k) seen || existsb (String.eqb k) l
         then [] else [k]))%list.
Proof.
  induction l as [|x r IH]; intros seen; simpl.
  - rewrite orb_false_r. destruct (existsb (String.eqb k) seen); reflexivity.
  - destruct (existsb (String.eqb x) seen) eqn:E.
    + rewrite IH. f_equal.
      destruct (String.eqb_spec k x) as [->|_]; [|reflexivity].
      rewrite E. reflexivity.
    + rewrite IH. simpl. f_equal. f_equal.
      destruct (k =? x)%string, (existsb (String.eqb k) seen); reflexivity.
Qed.

(** [uniq(array)] keeps the first occurrence of every element, in the order
    of the array: an element appended to the array is appended to the
    result when it does not occur in the array, and changes nothing when
    it does. So the result has no duplicates, has the elements of the
    array, is a subsequence of it, and is the array itself when that has
    no duplicates. *)
Theorem uniq_keeps_first_occurrences (l : list string) :
  uniq [] = []
  /\ (forall x, uniq (l ++ [x])%list
                = (uniq l ++ (if existsb (String.eqb x) l then [] else [x]))%list)
  /\ List.NoDup (uniq l)
  /\ (forall x, In x (uniq l) <-> In x l)
  /\ sublist (uniq l) l
  /\ (List.NoDup l -> uniq l = l).
Proof.
  split; [reflexivity|].
  split; [intros x; unfold uniq; rewrite uniqFrom_snoc; reflexivity|].
  unfold uniq. destruct (uniqFrom_spec l []) as (Hnd & Hin & Hsub).
  split; [exact Hnd|]. split; [intros x; rewrite Hin; simpl; tauto|].
  split; [exact Hsub|].
  intros Hl. assert (Hgen : forall seen,
    (forall x, In x l -> ~ In x seen) -> uniqFrom seen l = l).
  { clear Hnd Hin Hsub. induction Hl as [|y l Hy Hl IH]; intros seen Hs;
      [reflexivity|]. simpl.
    destruct (existsb (String.eqb y) seen) eqn:E.
    - apply existsb_eqb_In in E. exfalso. apply (Hs y); [left; reflexivity|exact E].
    - f_equal. apply IH. intros x Hx [<-|Hin]; [contradiction|].
      apply (Hs x); [right; exact Hx|exact Hin]. }
  apply Hgen. intros x _ [].
Qed.

(** ** Crash-safe writing *)

(** [ensureFileDoesntExist] reports no error; afterwards the file does not
    exist and every other file is as before. *)
Theorem ensureFileDoesntExist_removes_only_the_file
    (file : string) (fs : filesystem) :
  ensureFileDoesntExist file fs = (None, delete file fs).
Proof.
  unfold ensureFileDoesntExist, storage_exists, storage_unlink.
  destruct (fs !! file) as [c|] eqn:E.
  - rewrite bool_decide_eq_true_2 by eauto. reflexivity.
  - rewrite bool_decide_eq_false_2 by (intros [x Hx]; discriminate).
    simpl. rewrite delete_id by exact E. reflexivity.
Qed.

Lemma storage_exists_insert fs p c : storage_exists (<[p := c]> fs) p = true.
Proof.
  unfold storage_exists. apply bool_decide_eq_true_2.
  rewrite lookup_insert_eq. eauto.
Qed.

(** [crashSafeWriteFile] reports no error; afterwards the datafile holds
    the data, the temporary file is gone and every other file is as
    before. *)
Theorem crashSafeWriteFile_writes_the_datafile
    (dirname : string -> string) (F data : string) (fs : filesystem) :
  crashSafeWriteFile dirname F data fs
  = (None, <[F := data]> (delete (F ++ "~") fs)).
Proof.
  unfold crashSafeWriteFile, crashSafeWriteFile_tasks.
  cbn [waterfall flushToStorage].
  assert (Hflush : (if storage_exists fs F
                    then if storage_exists fs F then (None, fs)
                         else (Some (Error "ENOENT: no such file or directory, open"), fs)
                    else (None, fs)) = (@None error, fs))
    by (destruct (storage_exists fs F); reflexivity).
  rewrite Hflush. unfold storage_writeFile.
  rewrite storage_exists_insert.
  unfold storage_rename. rewrite lookup_insert_eq.
  rewrite delete_insert_eq. reflexivity.
Qed.

Lemma storage_exists_true fs p c : fs !! p = Some c -> storage_exists fs p = true.
Proof. intros H. apply bool_decide_eq_true_2. rewrite H. eauto. Qed.

Lemma storage_exists_false fs p : fs !! p = None -> storage_exists fs p = false.
Proof.
  intros H. apply bool_decide_eq_false_2. rewrite H. intros [x Hx]. discriminate.
Qed.

(** The datafile after recovery, for a file system in which the temporary
    file holds [data]. *)
Lemma ensureDatafileIntegrity_with_temp F data fs :
  let fs1 := <[F ++ "~" := data]> fs in
  (ensureDatafileIntegrity F fs1).1 = None
  /\ ((ensureDatafileIntegrity F fs1).2 !! F = Some data
      \/ (ensureDatafileIntegrity F fs1).2 !! F
         = (ensureDatafileIntegrity F fs).2 !! F)
  /\ (forall p, p <> F -> p <> F ++ "~" ->
        (ensureDatafileIntegrity F fs1).2 !! p = fs !! p).
Proof.
  intros fs1. pose proof (append_tilde_neq F) as Hne.
  unfold ensureDatafileIntegrity, fs1.
  destruct (fs !! F) as [c|] eqn:HF.
  - rewrite (storage_exists_true _ F c)
      by (rewrite lookup_insert_ne by exact Hne; exact HF).
    rewrite (storage_exists_true fs F c) by exact HF. simpl.
    split; [reflexivity|]. split; [right; rewrite lookup_insert_ne by exact Hne; reflexivity|].
    intros p _ Hp. apply lookup_insert_ne. congruence.
  - rewrite (storage_exists_false _ F)
      by (rewrite lookup_insert_ne by exact Hne; exact HF).
    rewrite storage_exists_insert. cbn [negb].
    unfold storage_rename. rewrite lookup_insert_eq. simpl.
    split; [reflexivity|]. split; [left; apply lookup_insert_eq|].
    intros p Hp Hp'. rewrite lookup_insert_ne by congruence.
    rewrite lookup_delete_ne by congruence.
    apply lookup_insert_ne. congruence.
Qed.

(** A crash between two steps of [crashSafeWriteFile] loses nothing: run
    on the file system the first [n] steps leave, [ensureDatafileIntegrity]
    reports no error and leaves in the datafile either the data being
    written or what it would have left there before the write; the files
    other than the datafile and its temporary file are as before. *)
Theorem crashSafeWriteFile_interrupted_then_recovered
    (dirname : string -> string) (F data : string) (fs : filesystem)
    (n : nat) :
  let fs1 := (waterfall (firstn n (crashSafeWriteFile_tasks dirname F data))
                fs).2 in
  let recovered := (ensureDatafileIntegrity F fs1).2 in
  (ensureDatafileIntegrity F fs1).1 = None
  /\ (recovered !! F = Some data
      \/ recovered !! F = (ensureDatafileIntegrity F fs).2 !! F)
  /\ (forall p, p <> F -> p <> F ++ "~" -> recovered !! p = fs !! p).
Proof.
  pose proof (append_tilde_neq F) as Hne.
  assert (Hflush : (if storage_exists fs F
                    then if storage_exists fs F then (None, fs)
                         else (Some (Error "ENOENT: no such file or directory, open"), fs)
                    else (None, fs)) = (@None error, fs))
    by (destruct (storage_exists fs F); reflexivity).
  assert (Hstart :
    (ensureDatafileIntegrity F fs).1 = None
    /\ ((ensureDatafileIntegrity F fs).2 !! F = Some data
        \/ (ensureDatafileIntegrity F fs).2 !! F
           = (ensureDatafileIntegrity F fs).2 !! F)
    /\ (forall p, p <> F -> p <> F ++ "~" ->
          (ensureDatafileIntegrity F fs).2 !! p = fs !! p)).
  { split; [|split; [right; reflexivity|]]; unfold ensureDatafileIntegrity.
    - destruct (storage_exists fs F); [reflexivity|].
      destruct (fs !! (F ++ "~")) as [old|] eqn:HT.
      + rewrite (storage_exists_true fs _ old HT). unfold storage_rename.
        rewrite HT. reflexivity.
      + rewrite (storage_exists_false fs _ HT). reflexivity.
    - intros p Hp Hp'. destruct (storage_exists fs F); [reflexivity|].
      destruct (fs !! (F ++ "~")) as [old|] eqn:HT.
      + rewrite (storage_exists_true fs _ old HT). unfold storage_rename.
        rewrite HT. cbn [negb snd]. rewrite lookup_insert_ne by congruence.
        apply lookup_delete_ne. congruence.
      + rewrite (storage_exists_false fs _ HT). cbn [negb].
        unfold storage_writeFile. cbn [snd].
        apply lookup_insert_ne. congruence. }
  assert (Hdone :
    let fs1 := <[F := data]> (delete (F ++ "~") fs) in
    (ensureDatafileIntegrity F fs1).1 = None
    /\ ((ensureDatafileIntegrity F fs1).2 !! F = Some data
        \/ (ensureDatafileIntegrity F fs1).2 !! F
           = (ensureDatafileIntegrity F fs).2 !! F)
    /\ (forall p, p <> F -> p <> F ++ "~" ->
          (ensureDatafileIntegrity F fs1).2 !! p = fs !! p)).
  { intros fs1. set (before := ensureDatafileIntegrity F fs).
    unfold ensureDatafileIntegrity, fs1.
    rewrite storage_exists_insert. simpl.
    split; [reflexivity|]. split; [left; apply lookup_insert_eq|].
    intros p Hp Hp'. rewrite lookup_insert_ne by congruence.
    apply lookup_delete_ne. congruence. }
  unfold crashSafeWriteFile_tasks.
  do 3 (destruct n as [|n];
        [cbn [firstn waterfall flushToStorage snd]; rewrite ?Hflush;
         exact Hstart|]).
  do 2 (destruct n as [|n];
        [cbn [firstn waterfall flushToStorage snd]; rewrite ?Hflush;
         unfold storage_writeFile; rewrite ?storage_exists_insert;
         apply ensureDatafileIntegrity_with_temp|]).
  destruct n as [|n];
    [|cbn [firstn]; replace (firstn n []) with (@nil (filesystem -> option error * filesystem))
        by (destruct n; reflexivity)];
    cbn [firstn waterfall flushToStorage snd]; rewrite ?Hflush;
    unfold storage_writeFile; rewrite ?storage_exists_insert;
    unfold storage_rename; rewrite lookup_insert_eq, delete_insert_eq;
    cbn [waterfall flushToStorage snd]; exact Hdone.
Qed.

(** ** [deepCopy] *)

(** A copy without [strictKeys] is the value itself. *)
Lemma deepCopyValue_all_keys obj : deepCopyValue obj false = obj.
Proof.
  induction obj using value_nested_ind; try reflexivity; simpl.
  - f_equal. induction H as [|x r Hx _ IH]; [reflexivity|].
    simpl. rewrite Hx, IH. reflexivity.
  - destruct (isObjectIDTaggedValue kvs); [reflexivity|]. f_equal.
    induction H as [|[k x] r Hx _ IH]; [reflexivity|].
    simpl in *. rewrite Hx, IH. reflexivity.
Qed.

Lemma copiedKey_checkKey k v : copiedKey true k = true -> checkKey k v = Ok tt.
Proof. intros H. apply validKey_checkKey. exact H. Qed.

(** [deepCopy(obj, true)] drops the keys that begin with [$] or contain a
    dot, at every depth outside the objects tagged [_bsontype: 'ObjectID'],
    which it returns as they are: when [obj] holds no such object,
    [checkObject] accepts the copy. *)
Theorem deepCopy_strictKeys_passes_checkObject (obj : value) :
  untagged obj = true -> checkObject (deepCopyValue obj true) = Ok tt.
Proof.
  induction obj using value_nested_ind; intros Hu; try reflexivity.
  - cbn [deepCopyValue]. apply checkObject_arr_ok.
    simpl in Hu. rewrite forallb_forall in Hu.
    rewrite List.Forall_forall in H. apply List.Forall_forall.
    intros y Hy. apply in_map_iff in Hy as (x & <- & Hx). auto.
  - simpl in Hu. apply andb_prop in Hu as [Ht Hu].
    apply negb_true_iff in Ht. cbn [deepCopyValue]. rewrite Ht.
    apply checkObject_obj_ok. clear Ht.
    induction H as [|[k x] r Hx _ IH]; [constructor|].
    simpl in Hu. apply andb_prop in Hu as [Hux Hur]. simpl in Hx.
    destruct (copiedKey true k) eqn:Hk; [|apply IH; exact Hur].
    constructor; [|apply IH; exact Hur]. simpl. split.
    + apply copiedKey_checkKey; exact Hk.
    + apply Hx; exact Hux.
Qed.

Lemma deepCopy_strictKeys_passes_checkObject_witness :
  let obj := VObj [("$set", VNum 1); ("a.b", VNum 2);
                   ("c", VArr [VObj [("$x", VNull); ("d", VDate 7)]])] in
  deepCopyValue obj true = VObj [("c", VArr [VObj [("d", VDate 7)]])]
  /\ checkObject (deepCopyValue obj true) = Ok tt.
Proof.
  intros obj. split; [reflexivity|].
  apply (deepCopy_strictKeys_passes_checkObject obj). reflexivity.
Defined.

(** *** The heap version reads as the value version *)

Lemma reify_ref_arr n h l es t :
  h !! l = Some (HArr es) ->
  (reify (S n) h (LRef l) = Some t
   <-> exists ts, t = VArr ts
                  /\ Forall2 (fun e x => reify n h e = Some x) es ts).
Proof.
  intros Hl. cbn [reify]. rewrite Hl. clear Hl.
  match goal with
  | |- context [VArr <$> ?each es] =>
      assert (Hloop : forall ts, each es = Some ts
                <-> Forall2 (fun e x => reify n h e = Some x) es ts)
  end.
  { induction es as [|e r IH]; intros ts.
    - split; [intros H; injection H as <-; constructor|].
      intros H; inversion H; reflexivity.
    - split.
      + intros H. destruct (reify n h e) as [x|] eqn:Ex; [|discriminate H].
        cbn [mbind option_bind] in H.
        match type of H with
        | context [?each r] => destruct (each r) as [xs|] eqn:Er
        end; [|discriminate H].
        injection H as <-. constructor; [exact Ex|]. apply IH. reflexivity.
      + intros H. inversion H as [|? x ? xs Hx Hr]; subst.
        rewrite Hx. cbn [mbind option_bind].
        apply IH in Hr.
        match type of Hr with ?lhs = _ => change lhs with lhs in Hr end.
        rewrite Hr. reflexivity. }
  split.
  - match goal with
    | |- context [VArr <$> ?each es] => destruct (each es) as [ts|] eqn:E
    end; [|discriminate].
    intros H. injection H as <-. exists ts. split; [reflexivity|].
    apply Hloop. reflexivity.
  - intros (ts & -> & H). apply Hloop in H.
    match type of H with ?lhs = _ => change lhs with lhs in H end.
    rewrite H. reflexivity.
Qed.

Lemma reify_ref_obj n h l ps t :
  h !! l = Some (HObj ps) ->
  (reify (S n) h (LRef l) = Some t
   <-> exists kvs, t = VObj kvs
         /\ Forall2 (fun (p : string * val) (kv : string * value) =>
                       fst p = fst kv /\ reify n h (snd p) = Some (snd kv))
              ps kvs).
Proof.
  intros Hl. cbn [reify]. rewrite Hl. clear Hl.
  match goal with
  | |- context [VObj <$> ?each ps] =>
      assert (Hloop : forall kvs, each ps = Some kvs
                <-> Forall2 (fun (p : string * val) (kv : string * value) =>
                       fst p = fst kv /\ reify n h (snd p) = Some (snd kv))
                      ps kvs)
  end.
  { induction ps as [|[k e] r IH]; intros kvs.
    - split; [intros H; injection H as <-; constructor|].
      intros H; inversion H; reflexivity.
    - split.
      + intros H. destruct (reify n h e) as [x|] eqn:Ex; [|discriminate H].
        cbn [mbind option_bind] in H.
        match type of H with
        | context [?each r] => destruct (each r) as [xs|] eqn:Er
        end; [|discriminate H].
        injection H as <-. constructor; [split; [reflexivity|exact Ex]|].
        apply IH. reflexivity.
      + intros H. inversion H as [|? [k' x] ? xs [Hk Hx] Hr]; subst.
        simpl in Hk, Hx. subst k'. rewrite Hx. cbn [mbind option_bind].
        apply IH in Hr.
        match type of Hr with ?lhs = _ => change lhs with lhs in Hr end.
        rewrite Hr. reflexivity. }
  split.
  - match goal with
    | |- context [VObj <$> ?each ps] => destruct (each ps) as [kvs|] eqn:E
    end; [|discriminate].
    intros H. injection H as <-. exists kvs. split; [reflexivity|].
    apply Hloop. reflexivity.
  - intros (kvs & -> & H). apply Hloop in H.
    match type of H with ?lhs = _ => change lhs with lhs in H end.
    rewrite H. reflexivity.
Qed.

(** Allocating objects does not change what a value reads as. *)
Lemma reify_mono n : forall (h h' : heap) v t,
  h ⊆ h' -> reify n h v = Some t -> reify n h' v = Some t.
Proof.
  induction n as [|n IH]; intros h h' v t Hsub H; destruct v; try exact H.
  destruct (h !! l) as [o|] eqn:Hl; [|cbn [reify] in H; rewrite Hl in H; discriminate H].
  pose proof (lookup_weaken _ _ _ _ Hl Hsub) as Hl'.
  destruct o as [d|es|ps].
  - cbn [reify] in *. rewrite Hl in H. rewrite Hl'. exact H.
  - destruct (proj1 (reify_ref_arr n h l es t Hl) H) as (ts & Ht & Hall).
    apply (reify_ref_arr n h' l es _ Hl'). exists ts. split; [exact Ht|].
    eapply Forall2_impl; [exact Hall|]. intros e x Hx. eapply IH; eauto.
  - destruct (proj1 (reify_ref_obj n h l ps t Hl) H) as (kvs & Ht & Hall).
    apply (reify_ref_obj n h' l ps _ Hl'). exists kvs. split; [exact Ht|].
    eapply Forall2_impl; [exact Hall|]. intros p kv [Hk Hx].
    split; [exact Hk|]. eapply IH; eauto.
Qed.

Lemma halloc_fresh o (h : heap) :
  exists l, halloc o h = (Ok l, <[l := o]> h) /\ h !! l = None
            /\ h ⊆ <[l := o]> h.
Proof.
  exists (fresh (dom h)). split; [reflexivity|].
  assert (Hf : h !! fresh (dom h) = None)
    by (apply not_elem_of_dom, is_fresh).
  split; [exact Hf|]. apply insert_subseteq. exact Hf.
Qed.

Lemma reify_ref_not_string n h l x :
  reify n h (LRef l) = Some x -> isString x = false.
Proof.
  destruct n as [|n]; [discriminate|]. intros H.
  destruct (h !! l) as [[d|es|ps]|] eqn:Hl.
  - cbn [reify] in H. rewrite Hl in H. injection H as <-. reflexivity.
  - destruct (proj1 (reify_ref_arr n h l es x Hl) H) as (ts & -> & _).
    reflexivity.
  - destruct (proj1 (reify_ref_obj n h l ps x Hl) H) as (kvs & -> & _).
    reflexivity.
  - cbn [reify] in H. rewrite Hl in H. discriminate H.
Qed.

Lemma tagged_reify n h ps kvs :
  Forall2 (fun (p : string * val) (kv : string * value) =>
             fst p = fst kv /\ reify n h (snd p) = Some (snd kv)) ps kvs ->
  isObjectIDTaggedValue kvs = isObjectIDTagged ps.
Proof.
  unfold isObjectIDTaggedValue, isObjectIDTagged.
  induction 1 as [|[k e] [k' x] ps kvs [Hk Hx] _ IH]; [reflexivity|].
  simpl in Hk, Hx. subst k'. cbn [assoc].
  destruct (k =? "_bsontype")%string; [|exact IH].
  destruct e;
    try (destruct n; simpl in Hx; injection Hx as <-; reflexivity).
  apply reify_ref_not_string in Hx. destruct x; try reflexivity.
  discriminate Hx.
Qed.

Lemma bind_run {A B} (m : M A) (k : A -> M B) h a h1 :
  m h = (Ok a, h1) -> (m ≫= k) h = k a h1.
Proof. intros H. unfold mbind, M_bind. rewrite H. reflexivity. Qed.

Lemma mapH_copy {A B X} (f : A -> M B)
    (R : heap -> A -> X -> Prop) (Q : heap -> B -> X -> Prop) :
  (forall (h h' : heap) a x, h ⊆ h' -> R h a x -> R h' a x) ->
  (forall (h h' : heap) b x, h ⊆ h' -> Q h b x -> Q h' b x) ->
  (forall a x (h : heap), R h a x ->
     exists b (h' : heap), f a h = (Ok b, h') /\ h ⊆ h' /\ Q h' b x) ->
  forall l xs (h : heap), Forall2 (R h) l xs ->
  exists bs (h' : heap),
    mapH f l h = (Ok bs, h') /\ h ⊆ h' /\ Forall2 (Q h') bs xs.
Proof.
  intros HR HQ Hf. induction l as [|a l IH]; intros xs h Hall.
  - inversion Hall; subst. exists [], h. split; [reflexivity|].
    split; [reflexivity|constructor].
  - inversion Hall as [|? x ? xs' Ha Hl]; subst.
    destruct (Hf a x h Ha) as (b & h1 & Eb & Hsub1 & Hb).
    destruct (IH xs' h1) as (bs & h2 & Ebs & Hsub2 & Hbs).
    { eapply Forall2_impl; [exact Hl|]. intros; eapply HR; eauto. }
    exists (b :: bs), h2. cbn [mapH].
    rewrite (bind_run _ _ _ _ _ Eb), (bind_run _ _ _ _ _ Ebs).
    split; [reflexivity|]. split; [etrans; eauto|].
    constructor; [eapply HQ; eauto|exact Hbs].
Qed.

Lemma deepCopyValue_obj kvs strictKeys :
  isObjectIDTaggedValue kvs = false ->
  deepCopyValue (VObj kvs) strictKeys
  = VObj (map (fun kv : string * value =>
                 (fst kv, deepCopyValue (snd kv) strictKeys))
            (List.filter (fun kv : string * value =>
                            copiedKey strictKeys (fst kv)) kvs)).
Proof.
  intros Ht. cbn [deepCopyValue]. rewrite Ht. f_equal. clear Ht.
  induction kvs as [|[k v] r IH]; [reflexivity|].
  cbn [List.filter fst]. destruct (copiedKey strictKeys k); [|exact IH].
  cbn [map fst snd]. f_equal. exact IH.
Qed.

Lemma Forall2_filter_keys {A B} (R : string * A -> string * B -> Prop)
    (keep : string -> bool) ps kvs :
  (forall p kv, R p kv -> fst p = fst kv) ->
  Forall2 R ps kvs ->
  Forall2 R (List.filter (fun p => keep (fst p)) ps)
    (List.filter (fun kv => keep (fst kv)) kvs).
Proof.
  intros Hk. induction 1 as [|p kv ps kvs Hp _ IH]; [constructor|].
  cbn [List.filter]. rewrite <- (Hk p kv Hp).
  destruct (keep (fst p)); [constructor; assumption|exact IH].
Qed.

(** [deepCopy] allocates and changes no object; its result reads as the
    value [deepCopyValue] gives. *)
Lemma deepCopy_reads_as_value n : forall fuel v strictKeys (h : heap) t,
  reify n h v = Some t -> (n < fuel)%nat ->
  exists c (h' : heap),
    deepCopy fuel v strictKeys h = (Ok c, h')
    /\ h ⊆ h'
    /\ reify n h' c = Some (deepCopyValue t strictKeys)
    /\ (forall l o, v = LRef l -> h !! l = Some o -> sharedByCopy o = false ->
          exists l', c = LRef l' /\ h !! l' = None).
Proof.
  induction n as [|n IH]; intros fuel v sk h t Hr Hn;
    (destruct fuel as [|fuel]; [lia|]);
    destruct v; try (cbn [reify] in Hr; discriminate Hr);
    try (cbn [reify] in Hr; injection Hr as <-; eexists; exists h;
         split; [reflexivity|]; split; [reflexivity|];
         split; [reflexivity|intros ? ? E; discriminate E]).
  destruct (h !! l) as [o|] eqn:Hl;
    [|cbn [reify] in Hr; rewrite Hl in Hr; discriminate Hr].
  cbn [deepCopy].
  rewrite (bind_run (hread l) _ h o h)
    by (unfold hread; rewrite Hl; reflexivity).
  destruct o as [d|es|ps].
  - (* a date is returned as it is *)
    cbn [reify] in Hr. rewrite Hl in Hr. injection Hr as <-.
    exists (LRef l), h. split; [reflexivity|]. split; [reflexivity|].
    split; [cbn [reify]; rewrite Hl; reflexivity|].
    intros l0 o E Hl0 Hs. injection E as <-. rewrite Hl in Hl0.
    injection Hl0 as <-. discriminate Hs.
  - (* an array *)
    destruct (proj1 (reify_ref_arr n h l es t Hl) Hr) as (ts & -> & Hall).
    destruct (mapH_copy (fun e => deepCopy fuel e sk)
                (fun h e x => reify n h e = Some x)
                (fun h c x => reify n h c = Some (deepCopyValue x sk)))
      with (l := es) (xs := ts) (h := h)
      as (cs & h1 & Ecs & Hsub1 & Hcs).
    { intros; eapply reify_mono; eauto. }
    { intros; eapply reify_mono; eauto. }
    { intros e x h0 Hx.
      destruct (IH fuel e sk h0 x Hx ltac:(lia)) as (c & h' & ? & ? & ? & _).
      eauto. }
    { exact Hall. }
    rewrite (bind_run _ _ _ _ _ Ecs).
    destruct (halloc_fresh (HArr cs) h1) as (l' & El' & Hfresh & Hsub2).
    rewrite (bind_run _ _ _ _ _ El').
    exists (LRef l'), (<[l' := HArr cs]> h1).
    split; [reflexivity|]. split; [etrans; eauto|]. split.
    + apply (reify_ref_arr n _ l' cs); [apply lookup_insert_eq|].
      exists (map (fun o => deepCopyValue o sk) ts). split; [reflexivity|].
      apply Forall2_fmap_r.
      eapply Forall2_impl; [exact Hcs|]. intros; eapply reify_mono; eauto.
    + intros _ _ _ _ _. exists l'. split; [reflexivity|].
      eapply lookup_weaken_None; eauto.
  - (* an object *)
    destruct (proj1 (reify_ref_obj n h l ps t Hl) Hr) as (kvs & -> & Hall).
    pose proof (tagged_reify n h ps kvs Hall) as Htag.
    destruct (isObjectIDTagged ps) eqn:Hps.
    + exists (LRef l), h. split; [reflexivity|]. split; [reflexivity|].
      split; [cbn [deepCopyValue]; rewrite Htag; exact Hr|].
      intros l0 o E Hl0 Hs. injection E as <-. rewrite Hl in Hl0.
      injection Hl0 as <-. simpl in Hs. congruence.
    + rewrite (deepCopyValue_obj kvs sk Htag).
      destruct (mapH_copy
                  (fun kv : string * val =>
                     x ← deepCopy fuel (snd kv) sk; mret (fst kv, x))
                  (fun h (p : string * val) (kv : string * value) =>
                     fst p = fst kv /\ reify n h (snd p) = Some (snd kv))
                  (fun h (p : string * val) (kv : string * value) =>
                     fst p = fst kv
                     /\ reify n h (snd p) = Some (deepCopyValue (snd kv) sk)))
        with (l := List.filter
                     (fun kv : string * val =>
                        negb sk || (negb (firstCharIsDollar (fst kv))
                                    && negb (containsDot (fst kv)))) ps)
             (xs := List.filter
                      (fun kv : string * value => copiedKey sk (fst kv)) kvs)
             (h := h)
        as (cs & h1 & Ecs & Hsub1 & Hcs).
      { intros ? ? ? ? ? [? ?]; split; [assumption|]. eapply reify_mono; eauto. }
      { intros ? ? ? ? ? [? ?]; split; [assumption|]. eapply reify_mono; eauto. }
      { intros [k e] [k' x] h0 [Hk Hx]. simpl in Hk, Hx. subst k'.
        destruct (IH fuel e sk h0 x Hx ltac:(lia)) as (c & h' & Ec & ? & ? & _).
        exists (k, c), h'. cbn [fst snd].
        rewrite (bind_run _ _ _ _ _ Ec). split; [reflexivity|]. auto. }
      { apply (Forall2_filter_keys _ (copiedKey sk)); [|exact Hall].
        intros p kv [Hk _]; exact Hk. }
      rewrite (bind_run _ _ _ _ _ Ecs).
      destruct (halloc_fresh (HObj cs) h1) as (l' & El' & Hfresh & Hsub2).
      rewrite (bind_run _ _ _ _ _ El').
      exists (LRef l'), (<[l' := HObj cs]> h1).
      split; [reflexivity|]. split; [etrans; eauto|]. split.
      * apply (reify_ref_obj n _ l' cs); [apply lookup_insert_eq|].
        eexists. split; [reflexivity|].
        apply Forall2_fmap_r.
        eapply Forall2_impl; [exact Hcs|]. intros p kv [Hk Hx].
        split; [exact Hk|]. eapply reify_mono; eauto.
      * intros _ _ _ _ _. exists l'. split; [reflexivity|].
        eapply lookup_weaken_None; eauto.
Qed.

(** [deepCopy(obj, strictKeys)] on a value that reads as the tree [t],
    which has no own property named [__proto__]: it returns, it only
    allocates (every object of the heap is as before), the copy reads as
    [deepCopyValue t strictKeys] and [obj] still reads as [t]; and when
    [obj] is an array, or an object that is not tagged
    [_bsontype: 'ObjectID'], the copy is a new object. *)
Theorem deepCopy_returns_an_equal_new_object
    (n fuel : nat) (obj : val) (strictKeys : bool) (h : heap) (t : value) :
  reify n h obj = Some t -> noProto t = true -> (n < fuel)%nat ->
  exists c (h' : heap),
    deepCopy fuel obj strictKeys h = (Ok c, h')
    /\ h ⊆ h'
    /\ reify n h' c = Some (deepCopyValue t strictKeys)
    /\ reify n h' obj = Some t
    /\ (forall l o, obj = LRef l -> h !! l = Some o ->
          sharedByCopy o = false -> exists l', c = LRef l' /\ h !! l' = None).
Proof.
  intros Hr _ Hn.
  destruct (deepCopy_reads_as_value n fuel obj strictKeys h t Hr Hn)
    as (c & h' & Ec & Hsub & Hc & Hnew).
  exists c, h'. split; [exact Ec|]. split; [exact Hsub|].
  split; [exact Hc|]. split; [eapply reify_mono; eauto|exact Hnew].
Qed.

Lemma deepCopy_returns_an_equal_new_object_witness :
  let h : heap :=
    <[1%positive := HObj [("a", LRef 2%positive); ("$b", LNum 1)]]>
      (<[2%positive := HArr [LStr "x"; LRef 3%positive]]>
         (<[3%positive := HDate 7]> ∅)) in
  let t := VObj [("a", VArr [VStr "x"; VDate 7]); ("$b", VNum 1)] in
  exists c (h' : heap),
    deepCopy 4 (LRef 1%positive) true h = (Ok c, h')
    /\ h ⊆ h'
    /\ reify 3 h' c = Some (deepCopyValue t true)
    /\ reify 3 h' (LRef 1%positive) = Some t
    /\ (forall l o, LRef 1%positive = LRef l -> h !! l = Some o ->
          sharedByCopy o = false -> exists l', c = LRef l' /\ h !! l' = None).
Proof.
  intros h t.
  apply (deepCopy_returns_an_equal_new_object 3 4 (LRef 1%positive) true h t);
    [reflexivity | reflexivity | lia].
Defined.

(** ** What [modify] returns and rejects *)

(** Every document [modify] returns is one [checkObject] accepts. *)
Theorem modify_returns_a_document_checkObject_accepts
    (fuel : nat) (doc u q newDoc : val) (h h' : heap) :
  modify fuel doc u q h = (Ok newDoc, h') ->
  exists t, reify (fuel - 1) h' newDoc = Some t /\ checkObject t = Ok tt.
Proof.
  intros Hrun. destruct fuel as [|fuel]; [discriminate Hrun|].
  cbn [modify] in Hrun.
  apply bind_Ok in Hrun as (keys & h1 & _ & Hrun).
  apply bind_Ok in Hrun as (changesId & h2 & _ & Hrun).
  destruct changesId; [discriminate Hrun|].
  match type of Hrun with
  | (if ?b then _ else _) _ = _ => destruct b; [discriminate Hrun|]
  end.
  apply bind_Ok in Hrun as (nd & h3 & _ & Hrun).
  apply bind_Ok in Hrun as ([] & h4 & Hcheck & Hrun).
  apply bind_Ok in Hrun as (oid & h5 & Hoid & Hrun).
  apply bind_Ok in Hrun as (nid & h6 & Hnid & Hrun).
  destruct (strictEqL oid nid); [|discriminate Hrun].
  cbn [negb] in Hrun. injection Hrun as <- <-.
  pose proof (readonly_getPropH _ _ _ _ _ Hnid) as ->.
  pose proof (readonly_getPropH _ _ _ _ _ Hoid) as ->.
  pose proof (readonly_checkObjectH _ _ _ _ _ Hcheck) as ->.
  unfold checkObjectH in Hcheck.
  apply bind_Ok in Hcheck as (t & h7 & Ht & Hc).
  unfold reifyM in Ht. replace (S fuel - 1)%nat with fuel by lia.
  destruct (reify fuel h3 nd) as [t'|]; [|discriminate Ht].
  injection Ht as <- <-. exists t'. split; [reflexivity|].
  unfold liftR in Hc. injection Hc as Hc. exact Hc.
Qed.

Lemma modify_returns_a_document_checkObject_accepts_witness :
  let h : heap :=
    <[1%positive := HObj [("_id", LStr "a"); ("n", LNum 1)]]>
      (<[3%positive := HObj [("$inc", LRef 4%positive)]]>
         (<[4%positive := HObj [("n", LNum 5)]]> ∅)) in
  exists newDoc t,
    (modify 10 (LRef 1%positive) (LRef 3%positive) LUndefined h).1
    = Ok newDoc
    /\ reify 9 (modify 10 (LRef 1%positive) (LRef 3%positive) LUndefined h).2
         newDoc = Some t
    /\ checkObject t = Ok tt.
Proof.
  intros h.
  assert (exists newDoc,
             (modify 10 (LRef 1%positive) (LRef 3%positive) LUndefined h).1
             = Ok newDoc)
    as [newDoc HnewDoc] by (vm_compute; eexists; reflexivity).
  assert (modify 10 (LRef 1%positive) (LRef 3%positive) LUndefined h
          = (Ok newDoc,
             (modify 10 (LRef 1%positive) (LRef 3%positive) LUndefined h).2))
    as Hrun by (rewrite <- HnewDoc; apply surjective_pairing).
  destruct (modify_returns_a_document_checkObject_accepts 10 _ _ _ _ _ _ Hrun)
    as (t & Ht & Hc).
  exists newDoc, t. split; [exact HnewDoc|]. split; [exact Ht|exact Hc].
Defined.

Lemma filter_length_bounds {A} (f : A -> bool) (l : list A) :
  (length (List.filter f l) <= length l)%nat
  /\ ((exists x, In x l /\ f x = true) -> length (List.filter f l) <> O)
  /\ ((exists x, In x l /\ f x = false) ->
      length (List.filter f l) <> length l).
Proof.
  induction l as [|y l (Hle & Hpos & Hneg)]; simpl.
  - split; [lia|]. split; intros (x & [] & _).
  - destruct (f y) eqn:Ey; simpl.
    + split; [lia|]. split; [intros _; lia|].
      intros (x & [->|Hx] & E); [congruence|].
      assert (length (List.filter f l) <> length l) by eauto. lia.
    + split; [lia|]. split; [|intros _; lia].
      intros (x & [->|Hx] & E); [congruence|]. eauto.
Qed.

Lemma assoc_None_existsb {A} k (ps : list (string * A)) :
  assoc k ps = None -> existsb (String.eqb k) (map fst ps) = false.
Proof.
  induction ps as [|[k' x] r IH]; [reflexivity|]. cbn [assoc map fst existsb].
  rewrite (String.eqb_sym k k').
  destruct (k' =? k)%string; [discriminate|]. exact IH.
Qed.

(** An update object that has no [_id] and holds both a key that begins
    with [$] and a key that does not is rejected, before anything is copied
    or changed. *)
Theorem modify_rejects_modifiers_mixed_with_fields
    (fuel : nat) (doc u q : val) (h : heap) (lu : loc)
    (ps : list (string * val)) (m f : string) :
  u = LRef lu -> h !! lu = Some (HObj ps) ->
  assoc "_id" ps = None ->
  In m (map fst ps) -> firstCharIsDollar m = true ->
  In f (map fst ps) -> firstCharIsDollar f = false ->
  modify (S fuel) doc u q h
  = (Throw (Error "You cannot mix modifiers and normal fields"), h).
Proof.
  intros -> Hu Hid Hm Hm' Hf Hf'. cbn [modify].
  rewrite (bind_run (keysH (LRef lu)) _ h (map fst ps) h)
    by (unfold keysH, mbind, M_bind, hread; rewrite Hu; reflexivity).
  rewrite (assoc_None_existsb _ _ Hid).
  rewrite (bind_run (mret false) _ h false h) by reflexivity.
  destruct (filter_length_bounds firstCharIsDollar (map fst ps))
    as (_ & Hpos & Hneg).
  specialize (Hpos (ex_intro _ m (conj Hm Hm'))).
  specialize (Hneg (ex_intro _ f (conj Hf Hf'))).
  apply Nat.eqb_neq in Hpos, Hneg. rewrite Hpos, Hneg. reflexivity.
Qed.

Lemma modify_rejects_modifiers_mixed_with_fields_witness :
  let h : heap :=
    <[1%positive := HObj [("_id", LStr "a"); ("n", LNum 1)]]>
      (<[2%positive := HObj [("n", LNum 2); ("$inc", LRef 3%positive)]]>
         (<[3%positive := HObj [("n", LNum 5)]]> ∅)) in
  modify 10 (LRef 1%positive) (LRef 2%positive) LUndefined h
  = (Throw (Error "You cannot mix modifiers and normal fields"), h).
Proof.
  intros h.
  apply (modify_rejects_modifiers_mixed_with_fields 9 (LRef 1%positive)
           (LRef 2%positive) LUndefined h 2%positive
           [("n", LNum 2); ("$inc", LRef 3%positive)] "$inc" "n");
    try reflexivity.
  - right; left; reflexivity.
  - left; reflexivity.
Defined.

(** ** One modifier on one field *)

Lemma filter_all {A} (l : list A) : List.filter (fun _ => true) l = l.
Proof. induction l as [|x l IH]; [reflexivity|]. simpl. rewrite IH. reflexivity. Qed.

(** [deepCopy] of an object that is not tagged: a new object whose
    properties are copies, made before it was allocated. *)
Lemma deepCopy_untagged_object n fuel l ps kvs (h : heap) :
  h !! l = Some (HObj ps) -> isObjectIDTagged ps = false ->
  Forall2 (fun (p : string * val) (kv : string * value) =>
             fst p = fst kv /\ reify n h (snd p) = Some (snd kv)) ps kvs ->
  (n < fuel)%nat ->
  exists l' cs (h0 : heap),
    deepCopy (S fuel) (LRef l) false h = (Ok (LRef l'), <[l' := HObj cs]> h0)
    /\ h ⊆ h0 /\ h0 !! l' = None
    /\ Forall2 (fun (p : string * val) (kv : string * value) =>
                  fst p = fst kv /\ reify n h0 (snd p) = Some (snd kv)) cs kvs.
Proof.
  intros Hl Htag Hall Hn. cbn [deepCopy].
  rewrite (bind_run (hread l) _ h (HObj ps) h)
    by (unfold hread; rewrite Hl; reflexivity).
  rewrite Htag. cbn [negb orb]. rewrite filter_all.
  destruct (mapH_copy
              (fun kv : string * val =>
                 x ← deepCopy fuel (snd kv) false; mret (fst kv, x))
              (fun h (p : string * val) (kv : string * value) =>
                 fst p = fst kv /\ reify n h (snd p) = Some (snd kv))
              (fun h (p : string * val) (kv : string * value) =>
                 fst p = fst kv /\ reify n h (snd p) = Some (snd kv)))
    with (l := ps) (xs := kvs) (h := h)
    as (cs & h0 & Ecs & Hsub & Hcs).
  { intros ? ? ? ? ? [? ?]; split; [assumption|]. eapply reify_mono; eauto. }
  { intros ? ? ? ? ? [? ?]; split; [assumption|]. eapply reify_mono; eauto. }
  { intros [k e] [k' x] h1 [Hk Hx]. simpl in Hk, Hx. subst k'.
    destruct (deepCopy_reads_as_value n fuel e false h1 x Hx Hn)
      as (c & h' & Ec & ? & Hc & _).
    rewrite deepCopyValue_all_keys in Hc.
    exists (k, c), h'. cbn [fst snd].
    rewrite (bind_run _ _ _ _ _ Ec). split; [reflexivity|]. auto. }
  { exact Hall. }
  rewrite (bind_run _ _ _ _ _ Ecs).
  destruct (halloc_fresh (HObj cs) h0) as (l' & El' & Hfresh & _).
  rewrite (bind_run _ _ _ _ _ El').
  exists l', cs, h0. auto.
Qed.

Lemma reify_fuel_mono n : forall m (h : heap) v t,
  reify n h v = Some t -> (n <= m)%nat -> reify m h v = Some t.
Proof.
  induction n as [|n IH]; intros m h v t H Hm; destruct v;
    try (destruct m; exact H).
  - simpl in H. discriminate H.
  - destruct m as [|m]; [lia|].
    destruct (h !! l) as [[d|es|ps]|] eqn:Hl.
    + cbn [reify] in *. rewrite Hl in *. exact H.
    + destruct (proj1 (reify_ref_arr n h l es t Hl) H) as (ts & Ht & Hall).
      apply (reify_ref_arr m h l es _ Hl). exists ts. split; [exact Ht|].
      eapply Forall2_impl; [exact Hall|]. intros e x Hx.
      apply (IH m h e x Hx). lia.
    + destruct (proj1 (reify_ref_obj n h l ps t Hl) H) as (kvs & Ht & Hall).
      apply (reify_ref_obj m h l ps _ Hl). exists kvs. split; [exact Ht|].
      eapply Forall2_impl; [exact Hall|]. intros p kv [Hk Hx].
      split; [exact Hk|]. apply (IH m h _ _ Hx). lia.
    + cbn [reify] in H. rewrite Hl in H. discriminate H.
Qed.

Lemma dollar_key_not_id m : firstCharIsDollar m = true -> ("_id" =? m)%string = false.
Proof.
  destruct m as [|c m]; [discriminate|]. simpl. intros H.
  apply Ascii.eqb_eq in H. subst c. reflexivity.
Qed.

Lemma reify_primitive n (h : heap) c x :
  reify n h c = Some x -> isNonNullObject x = false ->
  isRef c = false /\ reify 0 h c = Some x.
Proof.
  destruct c; try (destruct n; intros H _; (split; [reflexivity|exact H])).
  intros H Hx. exfalso. destruct n as [|n]; [simpl in H; discriminate H|].
  destruct (h !! l) as [[d|es|ps]|] eqn:Hl.
  - cbn [reify] in H. rewrite Hl in H. injection H as <-. discriminate Hx.
  - destruct (proj1 (reify_ref_arr n h l es x Hl) H) as (ts & -> & _).
    discriminate Hx.
  - destruct (proj1 (reify_ref_obj n h l ps x Hl) H) as (kvs & -> & _).
    discriminate Hx.
  - cbn [reify] in H. rewrite Hl in H. discriminate H.
Qed.

Lemma reify_of_primitive n (h : heap) e :
  isRef e = false ->
  exists x, reify n h e = Some x /\ isNonNullObject x = false
            /\ forall m (h' : heap) c,
                 reify m h' c = Some x -> c = e.
Proof.
  intros He. destruct e; try discriminate He;
    (eexists; split; [destruct n; reflexivity|]; split; [reflexivity|];
     intros m h' c Hc;
     destruct (reify_primitive m h' c _ Hc eq_refl) as [Hr Hc0];
     destruct c; try discriminate Hr; simpl in Hc0; congruence).
Qed.

(** A property that holds a primitive is copied as that primitive. *)
Lemma copied_primitive_property n (h h0 : heap) k pd cs kvs :
  Forall2 (fun (p : string * val) (kv : string * value) =>
             fst p = fst kv /\ reify n h (snd p) = Some (snd kv)) pd kvs ->
  Forall2 (fun (p : string * val) (kv : string * value) =>
             fst p = fst kv /\ reify n h0 (snd p) = Some (snd kv)) cs kvs ->
  isRef (objProp (HObj pd) k) = false ->
  objProp (HObj cs) k = objProp (HObj pd) k.
Proof.
  intros Hpd. revert cs. cbn [objProp].
  induction Hpd as [|[k1 e] [k2 x] pd kvs [Hk Hx] _ IH]; intros cs Hcs Hprim.
  - inversion Hcs; subst. reflexivity.
  - inversion Hcs as [|[k3 c] ? cs' ? [Hk' Hc] Hcs']; subst.
    simpl in Hk, Hx, Hk', Hc. subst k2 k3. cbn [assoc] in *.
    destruct (k1 =? k)%string; [|apply IH; assumption].
    cbn [default from_option id] in *.
    destruct (reify_of_primitive n h e Hprim) as (x' & Hx' & _ & Huniq).
    rewrite Hx in Hx'. injection Hx' as <-.
    rewrite (Huniq n h0 c Hc). reflexivity.
Qed.

Lemma bind_assoc_run {A B C} (m : M A) (k1 : A -> M B) (k2 : B -> M C) h :
  ((m ≫= k1) ≫= k2) h = (m ≫= (fun a => k1 a ≫= k2)) h.
Proof.
  unfold mbind, M_bind. destruct (m h) as [[a|e| |] h1]; reflexivity.
Qed.

(** [modify(doc, {m: {k: v}})] for a modifier [m] whose last step [ls]
    turns the properties [cs] of the copy into [F cs], which read as
    [G kvs]: the document returned is the copy after that step, and [doc]
    reads as before. *)
Lemma modify_one_field (n fuel : nat) (ld lu la : loc)
    (pd : list (string * val)) (kvs : list (string * value))
    (m k : string) (v q : val) (h : heap)
    (ls : val -> string -> val -> M unit)
    (F : list (string * val) -> list (string * val))
    (G : list (string * value) -> list (string * value)) :
  h !! ld = Some (HObj pd) -> isObjectIDTagged pd = false ->
  Forall2 (fun (p : string * val) (kv : string * value) =>
             fst p = fst kv /\ reify n h (snd p) = Some (snd kv)) pd kvs ->
  isRef (objProp (HObj pd) "_id") = false ->
  h !! lu = Some (HObj [(m, LRef la)]) -> h !! la = Some (HObj [(k, v)]) ->
  firstCharIsDollar m = true -> containsDot k = false ->
  (forall f, lastStepModifierFunctionsH f m = Some ls) ->
  (forall (h0 : heap) l' cs,
     h0 !! l' = None -> h ⊆ h0 ->
     Forall2 (fun (p : string * val) (kv : string * value) =>
                fst p = fst kv /\ reify n h0 (snd p) = Some (snd kv)) cs kvs ->
     ls (LRef l') k v (<[l' := HObj cs]> h0)
     = (Ok tt, <[l' := HObj (F cs)]> h0)
     /\ Forall2 (fun (p : string * val) (kv : string * value) =>
                   fst p = fst kv /\ reify n h0 (snd p) = Some (snd kv))
          (F cs) (G kvs)
     /\ assoc "_id" (F cs) = assoc "_id" cs) ->
  checkObject (VObj (G kvs)) = Ok tt ->
  (n < fuel)%nat ->
  exists newDoc (h' : heap),
    modify (S (S fuel)) (LRef ld) (LRef lu) q h = (Ok newDoc, h')
    /\ reify (S n) h' newDoc = Some (VObj (G kvs))
    /\ reify (S n) h' (LRef ld) = Some (VObj kvs).
Proof.
  intros Hld Htag Hpd Hid Hlu Hla Hm Hk Hls Heff Hcheck Hn.
  destruct (deepCopy_untagged_object n fuel ld pd kvs h Hld Htag Hpd Hn)
    as (l' & cs & h0 & Ecopy & Hsub & Hfresh & Hcs).
  destruct (Heff h0 l' cs Hfresh Hsub Hcs) as (Els & HF & HidF).
  assert (Hsub1 : forall o, h0 ⊆ <[l' := o]> h0)
    by (intros o; apply insert_subseteq; exact Hfresh).
  assert (Hsub' : forall o, h ⊆ <[l' := o]> h0)
    by (intros o; etrans; [exact Hsub|apply Hsub1]).
  exists (LRef l'), (<[l' := HObj (F cs)]> h0).
  assert (Hnew : reify (S n) (<[l' := HObj (F cs)]> h0) (LRef l')
                 = Some (VObj (G kvs))).
  { apply (reify_ref_obj n _ l' (F cs)); [apply lookup_insert_eq|].
    exists (G kvs). split; [reflexivity|].
    eapply Forall2_impl; [exact HF|]. intros p kv [Hpk Hpx].
    split; [exact Hpk|]. eapply reify_mono; [apply Hsub1|exact Hpx]. }
  split; [|split; [exact Hnew|]].
  2:{ apply (reify_ref_obj n _ ld pd);
        [eapply lookup_weaken; [exact Hld|apply Hsub']|].
      exists kvs. split; [reflexivity|].
      eapply Forall2_impl; [exact Hpd|]. intros p kv [Hpk Hpx].
      split; [exact Hpk|]. eapply reify_mono; [apply Hsub'|exact Hpx]. }
  cbn [modify].
  rewrite (bind_run (keysH (LRef lu)) _ h [m] h)
    by (unfold keysH, mbind, M_bind, hread; rewrite Hlu; reflexivity).
  cbn [existsb]. rewrite (dollar_key_not_id m Hm). cbn [orb].
  rewrite (bind_run (mret false) _ h false h) by reflexivity.
  cbn [List.filter]. rewrite Hm. cbn [length Nat.eqb negb andb].
  set (h1 := <[l' := HObj cs]> h0) in *.
  set (h2 := <[l' := HObj (F cs)]> h0) in *.
  assert (Hlu1 : h1 !! lu = Some (HObj [(m, LRef la)]))
    by (eapply lookup_weaken; [exact Hlu|apply Hsub']).
  assert (Hla1 : h1 !! la = Some (HObj [(k, v)]))
    by (eapply lookup_weaken; [exact Hla|apply Hsub']).
  assert (Hl1 : h1 !! l' = Some (HObj cs)) by apply lookup_insert_eq.
  rewrite bind_assoc_run.
  rewrite (bind_run _ _ _ _ _ Ecopy). fold h1.
  change (uniq [m]) with [m]. cbn [forEachH].
  rewrite Hls. rewrite !bind_assoc_run.
  rewrite (bind_run (getPropH (LRef lu) m) _ h1 (LRef la) h1).
  2:{ rewrite (getPropH_ref lu m h1 _ Hlu1). cbn [objProp assoc].
      rewrite String.eqb_refl. reflexivity. }
  cbn [isRef orb negb]. rewrite !bind_assoc_run.
  rewrite (bind_run (keysH (LRef la)) _ h1 [k] h1)
    by (unfold keysH, mbind, M_bind, hread; rewrite Hla1; reflexivity).
  cbn [forEachH]. rewrite !bind_assoc_run.
  rewrite (bind_run (getPropH (LRef la) k) _ h1 v h1).
  2:{ rewrite (getPropH_ref la k h1 _ Hla1). cbn [objProp assoc].
      rewrite String.eqb_refl. reflexivity. }
  rewrite (splitDot_dotfree k Hk).
  assert (Hmf : modifierFunctions (S fuel) m (LRef l') [k] v q h1 = (Ok tt, h2)).
  { cbn [modifierFunctions].
    rewrite (bind_run (asArrayH (LRef l')) _ h1 None h1)
      by (unfold asArrayH, mbind, M_bind, hread; rewrite Hl1; reflexivity).
    rewrite Hls. exact Els. }
  rewrite (bind_run _ _ _ _ _ Hmf).
  rewrite (bind_run (mret tt) _ h2 tt h2) by reflexivity.
  rewrite (bind_run (mret tt) _ h2 tt h2) by reflexivity.
  rewrite (bind_run (mret (LRef l')) _ h2 (LRef l') h2) by reflexivity.
  rewrite (bind_run (checkObjectH (S fuel) (LRef l')) _ h2 tt h2).
  2:{ unfold checkObjectH.
      rewrite (bind_run (reifyM (S fuel) (LRef l')) _ h2 (VObj (G kvs)) h2).
      - unfold liftR. rewrite Hcheck. reflexivity.
      - unfold reifyM.
        rewrite (reify_fuel_mono (S n) (S fuel) h2 _ _ Hnew) by lia.
        reflexivity. }
  rewrite (bind_run (getPropH (LRef ld) "_id") _ h2 (objProp (HObj pd) "_id") h2)
    by (apply getPropH_ref; eapply lookup_weaken; [exact Hld|apply Hsub']).
  rewrite (bind_run (getPropH (LRef l') "_id") _ h2
             (objProp (HObj (F cs)) "_id") h2)
    by (apply getPropH_ref; apply lookup_insert_eq).
  assert (Hsame : objProp (HObj (F cs)) "_id" = objProp (HObj pd) "_id").
  { cbn [objProp]. rewrite HidF.
    apply (copied_primitive_property n h h0 "_id" pd cs kvs Hpd Hcs Hid). }
  rewrite Hsame.
  assert (Hrefl : forall x, strictEqL x x = true).
  { intros []; simpl; auto using Z.eqb_refl, String.eqb_refl, Pos.eqb_refl.
    destruct b; reflexivity. }
  rewrite Hrefl. reflexivity.
Qed.


(** *** Assignment to a property *)

Lemma assoc_app_new {A} k0 k (x : A) kvs :
  assoc k0 (kvs ++ [(k, x)])
  = match assoc k0 kvs with
    | Some y => Some y
    | None => if (k =? k0)%string then Some x else None
    end.
Proof.
  induction kvs as [|[k' v'] r IH]; simpl; [reflexivity|].
  destruct (k' =? k0)%string; [reflexivity|exact IH].
Qed.

Lemma assoc_insertIndexProp {A} i k0 k (x : A) kvs :
  hasOwn kvs k = false ->
  assoc k0 (insertIndexProp i k x kvs)
  = if (k =? k0)%string then Some x else assoc k0 kvs.
Proof.
  unfold hasOwn. induction kvs as [|[k' v'] r IH]; intros Hk; [reflexivity|].
  cbn [insertIndexProp]. cbn [assoc] in Hk.
  destruct (String.eqb_spec k' k) as [->|Hne]; [discriminate Hk|].
  destruct (isArrayIndexName k') as [j|]; [|reflexivity].
  destruct (j <? i)%nat; [|reflexivity].
  cbn [assoc]. rewrite (IH Hk).
  destruct (String.eqb_spec k' k0) as [->|_]; [|reflexivity].
  destruct (String.eqb_spec k k0); [congruence|reflexivity].
Qed.

(** Reading after [obj[k] = x]: the property [k] holds [x], the others are
    as before. *)
Lemma assoc_setOwn {A} k0 k (x : A) kvs :
  assoc k0 (setOwn kvs k x)
  = if (k =? k0)%string then Some x else assoc k0 kvs.
Proof.
  unfold setOwn. destruct (hasOwn kvs k) eqn:Hk.
  - destruct (String.eqb_spec k k0) as [->|Hne].
    + apply assoc_replaceProp_same; exact Hk.
    + apply assoc_replaceProp_other; congruence.
  - destruct (isArrayIndexName k) as [i|].
    + apply assoc_insertIndexProp; exact Hk.
    + rewrite assoc_app_new. unfold hasOwn in Hk.
      destruct (String.eqb_spec k k0) as [->|Hne].
      * destruct (assoc k0 kvs); [discriminate Hk|reflexivity].
      * destruct (assoc k0 kvs); reflexivity.
Qed.

Lemma assoc_removeProp_other {A} k0 k (kvs : list (string * A)) :
  k0 <> k -> assoc k0 (removeProp k kvs) = assoc k0 kvs.
Proof.
  intros Hne. induction kvs as [|[k' v'] r IH]; [reflexivity|].
  cbn [removeProp assoc].
  destruct (String.eqb_spec k' k) as [->|Hne'].
  - destruct (String.eqb_spec k k0); [congruence|reflexivity].
  - cbn [assoc]. rewrite IH. reflexivity.
Qed.

Section same_keys.
Context {A B : Type} (R : string * A -> string * B -> Prop).
Hypothesis R_key : forall p kv, R p kv -> fst p = fst kv.

Lemma same_keys_hasOwn cs kvs k :
  Forall2 R cs kvs -> hasOwn cs k = hasOwn kvs k.
Proof.
  unfold hasOwn. induction 1 as [|[k1 a] [k2 b] cs kvs Hp _ IH]; [reflexivity|].
  apply R_key in Hp. simpl in Hp. subst k2. cbn [assoc].
  destruct (k1 =? k)%string; [reflexivity|exact IH].
Qed.

Lemma same_keys_replaceProp cs kvs k a b :
  Forall2 R cs kvs -> R (k, a) (k, b) ->
  Forall2 R (replaceProp k a cs) (replaceProp k b kvs).
Proof.
  intros Hall Hab.
  induction Hall as [|[k1 a1] [k2 b1] cs kvs Hp Hr IH]; [constructor|].
  pose proof (R_key _ _ Hp) as Hk. simpl in Hk. subst k2.
  cbn [replaceProp]. destruct (k1 =? k)%string; constructor; assumption.
Qed.

Lemma same_keys_insertIndexProp cs kvs i k a b :
  Forall2 R cs kvs -> R (k, a) (k, b) ->
  Forall2 R (insertIndexProp i k a cs) (insertIndexProp i k b kvs).
Proof.
  intros Hall Hab.
  induction Hall as [|[k1 a1] [k2 b1] cs kvs Hp Hr IH];
    [constructor; [exact Hab|constructor]|].
  pose proof (R_key _ _ Hp) as Hk. simpl in Hk. subst k2.
  cbn [insertIndexProp]. destruct (isArrayIndexName k1) as [j|].
  - destruct (j <? i)%nat; constructor; try assumption.
    constructor; assumption.
  - constructor; [exact Hab|]. constructor; assumption.
Qed.

Lemma same_keys_setOwn cs kvs k a b :
  Forall2 R cs kvs -> R (k, a) (k, b) ->
  Forall2 R (setOwn cs k a) (setOwn kvs k b).
Proof.
  intros Hall Hab. unfold setOwn.
  rewrite (same_keys_hasOwn cs kvs k Hall).
  destruct (hasOwn kvs k); [apply same_keys_replaceProp; assumption|].
  destruct (isArrayIndexName k).
  - apply same_keys_insertIndexProp; assumption.
  - apply Forall2_app; [exact Hall|]. constructor; [exact Hab|constructor].
Qed.

Lemma same_keys_removeProp cs kvs k :
  Forall2 R cs kvs -> Forall2 R (removeProp k cs) (removeProp k kvs).
Proof.
  induction 1 as [|[k1 a1] [k2 b1] cs kvs Hp Hr IH]; [constructor|].
  pose proof (R_key _ _ Hp) as Hk. simpl in Hk. subst k2.
  cbn [removeProp]. destruct (k1 =? k)%string; [exact Hr|].
  constructor; assumption.
Qed.

End same_keys.

Lemma reify_object_inv n (h : heap) v kvs :
  reify (S n) h v = Some (VObj kvs) ->
  exists l ps,
    v = LRef l /\ h !! l = Some (HObj ps)
    /\ Forall2 (fun (p : string * val) (kv : string * value) =>
                  fst p = fst kv /\ reify n h (snd p) = Some (snd kv)) ps kvs.
Proof.
  intros H. destruct v; try discriminate H.
  destruct (h !! l) as [[d|es|ps]|] eqn:Hl.
  - cbn [reify] in H. rewrite Hl in H. discriminate H.
  - destruct (proj1 (reify_ref_arr n h l es _ Hl) H) as (ts & Ht & _).
    discriminate Ht.
  - destruct (proj1 (reify_ref_obj n h l ps _ Hl) H) as (kvs' & Ht & Hall).
    injection Ht as ->. exists l, ps. auto.
  - cbn [reify] in H. rewrite Hl in H. discriminate H.
Qed.

Lemma primitive_property_not_ref n (h : heap) ps kvs k :
  Forall2 (fun (p : string * val) (kv : string * value) =>
             fst p = fst kv /\ reify n h (snd p) = Some (snd kv)) ps kvs ->
  isNonNullObject (getProp (VObj kvs) k) = false ->
  isRef (objProp (HObj ps) k) = false.
Proof.
  cbn [getProp objProp].
  induction 1 as [|[k1 e] [k2 x] ps kvs [Hk Hx] _ IH]; intros Hp;
    [reflexivity|].
  simpl in Hk, Hx. subst k2. cbn [assoc] in *.
  destruct (k1 =? k)%string; [|apply IH; exact Hp].
  cbn [default from_option id] in *.
  exact (proj1 (reify_primitive n h e x Hx Hp)).
Qed.

(** The property [k] of the copy holds the primitive that the property [k]
    of the document reads as. *)
Lemma property_of_copy n (h0 : heap) cs kvs k :
  Forall2 (fun (p : string * val) (kv : string * value) =>
             fst p = fst kv /\ reify n h0 (snd p) = Some (snd kv)) cs kvs ->
  isNonNullObject (getProp (VObj kvs) k) = false ->
  reify 0 h0 (objProp (HObj cs) k) = Some (getProp (VObj kvs) k).
Proof.
  cbn [getProp objProp].
  induction 1 as [|[k1 e] [k2 x] ps kvs' [Hk Hx] _ IH]; intros Hp;
    [reflexivity|].
  simpl in Hk, Hx. subst k2. cbn [assoc] in *.
  destruct (k1 =? k)%string; [|apply IH; exact Hp].
  cbn [default from_option id] in *.
  exact (proj2 (reify_primitive n h0 e x Hx Hp)).
Qed.

(** [modify_one_field], with the document and the update given by the
    trees they read as. *)
Lemma modify_one_field_of_trees (n fuel : nat) (doc u q : val) (h : heap)
    (kvs : list (string * value)) (m k : string) (vt : value)
    (ls : val -> string -> val -> M unit)
    (F : val -> list (string * val) -> list (string * val))
    (G : list (string * value) -> list (string * value)) :
  reify (S n) h doc = Some (VObj kvs) ->
  reify (S (S n)) h u = Some (VObj [(m, VObj [(k, vt)])]) ->
  isObjectIDTaggedValue kvs = false ->
  isNonNullObject (getProp (VObj kvs) "_id") = false ->
  firstCharIsDollar m = true -> containsDot k = false ->
  (forall f, lastStepModifierFunctionsH f m = Some ls) ->
  (forall (h0 : heap) l' cs v,
     h0 !! l' = None -> reify n h0 v = Some vt ->
     Forall2 (fun (p : string * val) (kv : string * value) =>
                fst p = fst kv /\ reify n h0 (snd p) = Some (snd kv)) cs kvs ->
     ls (LRef l') k v (<[l' := HObj cs]> h0)
     = (Ok tt, <[l' := HObj (F v cs)]> h0)
     /\ Forall2 (fun (p : string * val) (kv : string * value) =>
                   fst p = fst kv /\ reify n h0 (snd p) = Some (snd kv))
          (F v cs) (G kvs)
     /\ assoc "_id" (F v cs) = assoc "_id" cs) ->
  checkObject (VObj (G kvs)) = Ok tt ->
  (n < fuel)%nat ->
  exists newDoc (h' : heap),
    modify (S (S fuel)) doc u q h = (Ok newDoc, h')
    /\ reify (S n) h' newDoc = Some (VObj (G kvs))
    /\ reify (S n) h' doc = Some (VObj kvs).
Proof.
  intros Hdoc Hu Htag Hid Hm Hk Hls Heff Hcheck Hn.
  destruct (reify_object_inv n h doc kvs Hdoc) as (ld & pd & -> & Hld & Hpd).
  destruct (reify_object_inv (S n) h u _ Hu) as (lu & pu & -> & Hlu & Hpu).
  inversion Hpu as [|[m' a] ? pu' ? [Hm' Ha] Hnil]; subst.
  inversion Hnil; subst. simpl in Hm', Ha. subst m'.
  destruct (reify_object_inv n h a _ Ha) as (la & pa & -> & Hla & Hpa).
  inversion Hpa as [|[k' v] ? pa' ? [Hk' Hv] Hnil']; subst.
  inversion Hnil'; subst. simpl in Hk', Hv. subst k'.
  apply (modify_one_field n fuel ld lu la pd kvs m k v q h ls (F v) G);
    try assumption.
  - rewrite <- (tagged_reify n h pd kvs Hpd). exact Htag.
  - apply (primitive_property_not_ref n h pd kvs "_id" Hpd Hid).
  - intros h0 l' cs Hfresh Hsub Hcs. apply Heff; try assumption.
    eapply reify_mono; eauto.
Qed.

Lemma set_property_of_new_object (h0 : heap) l' cs k v :
  setPropH (LRef l') k v (<[l' := HObj cs]> h0)
  = (Ok tt, <[l' := HObj (setOwn cs k v)]> h0).
Proof.
  unfold setPropH.
  rewrite (bind_run (hread l') _ _ (HObj cs) (<[l' := HObj cs]> h0))
    by (unfold hread; rewrite lookup_insert_eq; reflexivity).
  unfold hwrite. rewrite insert_insert_eq. reflexivity.
Qed.

(** [modify(doc, {$set: {k: v}})], for a field name [k] without a dot and
    other than [_id] and [__proto__], returns a document that reads as
    [doc] with the property [k] set to [v] (in place when [doc] has it,
    added otherwise); [doc] reads as before. Here [doc] is an object that
    is not tagged [_bsontype: 'ObjectID'] and has no own property named
    [__proto__] at any depth, its [_id] is a primitive, and [checkObject]
    accepts the result. *)
Theorem modify_set_assigns_the_field
    (n fuel : nat) (doc u q : val) (h : heap)
    (kvs : list (string * value)) (k : string) (vt : value) :
  reify (S n) h doc = Some (VObj kvs) ->
  reify (S (S n)) h u = Some (VObj [("$set", VObj [(k, vt)])]) ->
  isObjectIDTaggedValue kvs = false ->
  noProto (VObj kvs) = true ->
  isNonNullObject (getProp (VObj kvs) "_id") = false ->
  containsDot k = false -> k <> "_id" -> k <> "__proto__" ->
  checkObject (VObj (setOwn kvs k vt)) = Ok tt ->
  (n < fuel)%nat ->
  exists newDoc (h' : heap),
    modify (S (S fuel)) doc u q h = (Ok newDoc, h')
    /\ reify (S n) h' newDoc = Some (VObj (setOwn kvs k vt))
    /\ reify (S n) h' doc = Some (VObj kvs).
Proof.
  intros Hdoc Hu Htag _ Hid Hk Hkid _ Hcheck Hn.
  apply (modify_one_field_of_trees n fuel doc u q h kvs "$set" k vt
           lastStep_setH (fun v cs => setOwn cs k v)
           (fun kvs => setOwn kvs k vt));
    try assumption; try reflexivity.
  intros h0 l' cs v Hfresh Hv Hcs. split; [|split].
  - apply set_property_of_new_object.
  - apply same_keys_setOwn; [intros p kv [E _]; exact E|exact Hcs|].
    split; [reflexivity|exact Hv].
  - rewrite assoc_setOwn.
    destruct (String.eqb_spec k "_id"); [contradiction|reflexivity].
Qed.

Lemma modify_set_assigns_the_field_witness :
  let h : heap :=
    <[1%positive := HObj [("_id", LStr "a"); ("n", LNum 1)]]>
      (<[2%positive := HObj [("$set", LRef 3%positive)]]>
         (<[3%positive := HObj [("tags", LRef 4%positive)]]>
            (<[4%positive := HArr [LStr "x"]]> ∅))) in
  exists newDoc (h' : heap),
    modify 5 (LRef 1%positive) (LRef 2%positive) LUndefined h
    = (Ok newDoc, h')
    /\ reify 2 h' newDoc
       = Some (VObj [("_id", VStr "a"); ("n", VNum 1);
                     ("tags", VArr [VStr "x"])])
    /\ reify 2 h' (LRef 1%positive)
       = Some (VObj [("_id", VStr "a"); ("n", VNum 1)]).
Proof.
  intros h.
  apply (modify_set_assigns_the_field 1 3 (LRef 1%positive) (LRef 2%positive)
           LUndefined h [("_id", VStr "a"); ("n", VNum 1)] "tags"
           (VArr [VStr "x"]));
    try reflexivity; [discriminate | discriminate | lia].
Defined.

Lemma delete_property_of_new_object (h0 : heap) l' cs k :
  deletePropH (LRef l') k (<[l' := HObj cs]> h0)
  = (Ok tt, <[l' := HObj (removeProp k cs)]> h0).
Proof.
  unfold deletePropH.
  rewrite (bind_run (hread l') _ _ (HObj cs) (<[l' := HObj cs]> h0))
    by (unfold hread; rewrite lookup_insert_eq; reflexivity).
  unfold hwrite. rewrite insert_insert_eq. reflexivity.
Qed.

(** [modify(doc, {$unset: {k: v}})], for a field name [k] without a dot and
    other than [_id], returns a document that reads as [doc] without the
    property [k], whatever [v] is; [doc] reads as before. Here [doc] has
    no own property named [__proto__] at any depth. *)
Theorem modify_unset_removes_the_field
    (n fuel : nat) (doc u q : val) (h : heap)
    (kvs : list (string * value)) (k : string) (vt : value) :
  reify (S n) h doc = Some (VObj kvs) ->
  reify (S (S n)) h u = Some (VObj [("$unset", VObj [(k, vt)])]) ->
  isObjectIDTaggedValue kvs = false ->
  noProto (VObj kvs) = true ->
  isNonNullObject (getProp (VObj kvs) "_id") = false ->
  containsDot k = false -> k <> "_id" ->
  checkObject (VObj (removeProp k kvs)) = Ok tt ->
  (n < fuel)%nat ->
  exists newDoc (h' : heap),
    modify (S (S fuel)) doc u q h = (Ok newDoc, h')
    /\ reify (S n) h' newDoc = Some (VObj (removeProp k kvs))
    /\ reify (S n) h' doc = Some (VObj kvs).
Proof.
  intros Hdoc Hu Htag _ Hid Hk Hkid Hcheck Hn.
  apply (modify_one_field_of_trees n fuel doc u q h kvs "$unset" k vt
           lastStep_unsetH (fun v cs => removeProp k cs)
           (fun kvs => removeProp k kvs));
    try assumption; try reflexivity.
  intros h0 l' cs v Hfresh Hv Hcs. split; [|split].
  - apply delete_property_of_new_object.
  - apply same_keys_removeProp; [intros p kv [E _]; exact E|exact Hcs].
  - apply assoc_removeProp_other. congruence.
Qed.

Lemma modify_unset_removes_the_field_witness :
  let h : heap :=
    <[1%positive := HObj [("_id", LStr "a"); ("n", LNum 1); ("m", LNull)]]>
      (<[2%positive := HObj [("$unset", LRef 3%positive)]]>
         (<[3%positive := HObj [("n", LBool true)]]> ∅)) in
  exists newDoc (h' : heap),
    modify 5 (LRef 1%positive) (LRef 2%positive) LUndefined h
    = (Ok newDoc, h')
    /\ reify 2 h' newDoc = Some (VObj [("_id", VStr "a"); ("m", VNull)])
    /\ reify 2 h' (LRef 1%positive)
       = Some (VObj [("_id", VStr "a"); ("n", VNum 1); ("m", VNull)]).
Proof.
  intros h.
  apply (modify_unset_removes_the_field 1 3 (LRef 1%positive)
           (LRef 2%positive) LUndefined h
           [("_id", VStr "a"); ("n", VNum 1); ("m", VNull)] "n"
           (VBool true));
    try reflexivity; [discriminate | lia].
Defined.

(** [modify(doc, {$inc: {k: d}})] for an integer [d] and a field name [k]
    without a dot, other than [_id] and not a name that objects inherit
    ([constructor], [toString], [__proto__] and the like): when [doc] holds
    the integer [current] in [k], or holds nothing there ([current] is then
    0), the document returned reads as [doc] with [k] set to
    [current + d]; [doc] reads as before. Here [current], [d] and their
    sum are safe integers, so that the sum is exact, and [doc] has no own
    property named [__proto__] at any depth. *)
Theorem modify_inc_adds_to_the_field
    (n fuel : nat) (doc u q : val) (h : heap)
    (kvs : list (string * value)) (k : string) (d current : Z) :
  reify (S n) h doc = Some (VObj kvs) ->
  reify (S (S n)) h u = Some (VObj [("$inc", VObj [(k, VNum d)])]) ->
  isObjectIDTaggedValue kvs = false ->
  noProto (VObj kvs) = true ->
  isNonNullObject (getProp (VObj kvs) "_id") = false ->
  containsDot k = false -> k <> "_id" ->
  existsb (String.eqb k) objectPrototypeNames = false ->
  getProp (VObj kvs) k = VNum current
  \/ (getProp (VObj kvs) k = VUndefined /\ current = 0) ->
  isSafeInteger current && isSafeInteger d && isSafeInteger (current + d)
  = true ->
  checkObject (VObj (setOwn kvs k (VNum (current + d)))) = Ok tt ->
  (n < fuel)%nat ->
  exists newDoc (h' : heap),
    modify (S (S fuel)) doc u q h = (Ok newDoc, h')
    /\ reify (S n) h' newDoc
       = Some (VObj (setOwn kvs k (VNum (current + d))))
    /\ reify (S n) h' doc = Some (VObj kvs).
Proof.
  intros Hdoc Hu Htag _ Hid Hk Hkid _ Hcur _ Hcheck Hn.
  apply (modify_one_field_of_trees n fuel doc u q h kvs "$inc" k (VNum d)
           lastStep_incH (fun v cs => setOwn cs k (LNum (current + d)))
           (fun kvs => setOwn kvs k (VNum (current + d))));
    try assumption; try reflexivity.
  intros h0 l' cs v Hfresh Hv Hcs.
  assert (v = LNum d) as ->.
  { destruct (reify_of_primitive n h0 (LNum d) eq_refl) as (x & Hx & _ & Huniq).
    apply (Huniq n h0 v). rewrite Hv. rewrite <- Hx. destruct n; reflexivity. }
  split; [|split].
  - unfold lastStep_incH.
    rewrite (bind_run (getPropH (LRef l') k) _ _ (objProp (HObj cs) k)
               (<[l' := HObj cs]> h0))
      by (apply getPropH_ref; apply lookup_insert_eq).
    assert (Hp : isNonNullObject (getProp (VObj kvs) k) = false)
      by (destruct Hcur as [-> | [-> _]]; reflexivity).
    pose proof (property_of_copy n h0 cs kvs k Hcs Hp) as Hc.
    destruct Hcur as [E | [E ->]]; rewrite E in Hc;
      destruct (objProp (HObj cs) k); simpl in Hc; try discriminate Hc.
    + injection Hc as ->. apply set_property_of_new_object.
    + apply set_property_of_new_object.
  - apply same_keys_setOwn; [intros p kv [E _]; exact E|exact Hcs|].
    split; [reflexivity|destruct n; reflexivity].
  - rewrite assoc_setOwn.
    destruct (String.eqb_spec k "_id"); [contradiction|reflexivity].
Qed.

Lemma modify_inc_adds_to_the_field_witness :
  let h : heap :=
    <[1%positive := HObj [("_id", LStr "a"); ("n", LNum 1)]]>
      (<[2%positive := HObj [("$inc", LRef 3%positive)]]>
         (<[3%positive := HObj [("n", LNum 41)]]> ∅)) in
  exists newDoc (h' : heap),
    modify 5 (LRef 1%positive) (LRef 2%positive) LUndefined h
    = (Ok newDoc, h')
    /\ reify 2 h' newDoc = Some (VObj [("_id", VStr "a"); ("n", VNum 42)])
    /\ reify 2 h' (LRef 1%positive)
       = Some (VObj [("_id", VStr "a"); ("n", VNum 1)]).
Proof.
  intros h.
  apply (modify_inc_adds_to_the_field 1 3 (LRef 1%positive)
           (LRef 2%positive) LUndefined h
           [("_id", VStr "a"); ("n", VNum 1)] "n" 41 1);
    try reflexivity; [discriminate | left; reflexivity | lia].
Defined.

(** *** Replacement *)

Lemma same_keys_map_fst {A B} (R : string * A -> string * B -> Prop) cs kvs :
  (forall p kv, R p kv -> fst p = fst kv) ->
  Forall2 R cs kvs -> map fst cs = map fst kvs.
Proof.
  intros HR. induction 1 as [|p kv cs kvs Hp _ IH]; [reflexivity|].
  simpl. rewrite (HR p kv Hp), IH. reflexivity.
Qed.

Lemma filter_none {A} (f : A -> bool) (l : list A) :
  forallb (fun x => negb (f x)) l = true -> List.filter f l = [].
Proof.
  induction l as [|x l IH]; [reflexivity|]. simpl. intros H.
  apply andb_prop in H as [Hx Hl]. apply negb_true_iff in Hx.
  rewrite Hx. apply IH; exact Hl.
Qed.

Lemma strictEqL_refl x : strictEqL x x = true.
Proof.
  destruct x; simpl; auto using Z.eqb_refl, String.eqb_refl, Pos.eqb_refl.
  destruct b; reflexivity.
Qed.

(** [modify(doc, u)] with an update [u] that holds no key beginning with
    [$] and no [_id]: the document returned reads as [u] with [_id] set to
    [doc._id]; [u] and [doc] are left as they were. Here [u] is an object
    that is not tagged [_bsontype: 'ObjectID'] and has no own property
    named [__proto__] at any depth, and [checkObject] accepts the
    result. *)
Theorem modify_replaces_and_restores_id
    (n fuel : nat) (u q : val) (ld : loc) (od : hobj) (h : heap)
    (ukvs : list (string * value)) (idt : value) :
  h !! ld = Some od ->
  reify n h (objProp od "_id") = Some idt ->
  reify (S n) h u = Some (VObj ukvs) ->
  isObjectIDTaggedValue ukvs = false ->
  noProto (VObj ukvs) = true ->
  forallb (fun k => negb (firstCharIsDollar k)) (map fst ukvs) = true ->
  hasOwn ukvs "_id" = false ->
  checkObject (VObj (setOwn ukvs "_id" idt)) = Ok tt ->
  (n < fuel)%nat ->
  exists newDoc (h' : heap),
    modify (S (S fuel)) (LRef ld) u q h = (Ok newDoc, h')
    /\ reify (S n) h' newDoc = Some (VObj (setOwn ukvs "_id" idt))
    /\ reify (S n) h' u = Some (VObj ukvs)
    /\ h' !! ld = Some od.
Proof.
  intros Hld Hidt Hu Htag _ Hkeys Hnoid Hcheck Hn.
  destruct (reify_object_inv n h u ukvs Hu) as (lu & pu & -> & Hlu & Hpu).
  assert (Hfst : map fst pu = map fst ukvs)
    by (apply (same_keys_map_fst _ _ _ (fun p kv (H : _ /\ _) => proj1 H) Hpu)).
  assert (Htag' : isObjectIDTagged pu = false)
    by (rewrite <- (tagged_reify n h pu ukvs Hpu); exact Htag).
  destruct (deepCopy_untagged_object n fuel lu pu ukvs h Hlu Htag' Hpu Hn)
    as (l' & cs & h0 & Ecopy & Hsub & Hfresh & Hcs).
  set (oid := objProp od "_id").
  set (h1 := <[l' := HObj cs]> h0).
  set (h2 := <[l' := HObj (setOwn cs "_id" oid)]> h0).
  assert (Hsub1 : forall o, h0 ⊆ <[l' := o]> h0)
    by (intros o; apply insert_subseteq; exact Hfresh).
  assert (Hsub' : forall o, h ⊆ <[l' := o]> h0)
    by (intros o; etrans; [exact Hsub|apply Hsub1]).
  assert (Hnew : reify (S n) h2 (LRef l') = Some (VObj (setOwn ukvs "_id" idt))).
  { apply (reify_ref_obj n _ l' (setOwn cs "_id" oid)); [apply lookup_insert_eq|].
    eexists. split; [reflexivity|].
    apply same_keys_setOwn; [intros p kv [E _]; exact E| |].
    - eapply Forall2_impl; [exact Hcs|]. intros p kv [Hpk Hpx].
      split; [exact Hpk|]. eapply reify_mono; [apply Hsub1|exact Hpx].
    - split; [reflexivity|]. eapply reify_mono; [apply Hsub'|exact Hidt]. }
  exists (LRef l'), h2. split; [|split; [exact Hnew|split]].
  2:{ eapply reify_mono; [apply Hsub'|exact Hu]. }
  2:{ eapply lookup_weaken; [exact Hld|apply Hsub']. }
  cbn [modify].
  rewrite (bind_run (keysH (LRef lu)) _ h (map fst pu) h)
    by (unfold keysH, mbind, M_bind, hread; rewrite Hlu; reflexivity).
  rewrite Hfst.
  assert (Hex : existsb (String.eqb "_id") (map fst ukvs) = false).
  { apply assoc_None_existsb. unfold hasOwn in Hnoid.
    destruct (assoc "_id" ukvs); [discriminate Hnoid|reflexivity]. }
  rewrite Hex.
  rewrite (bind_run (mret false) _ h false h) by reflexivity.
  rewrite (filter_none firstCharIsDollar _ Hkeys).
  cbn [length Nat.eqb negb andb].
  rewrite !bind_assoc_run.
  rewrite (bind_run _ _ _ _ _ Ecopy). fold h1.
  rewrite !bind_assoc_run.
  rewrite (bind_run (getPropH (LRef ld) "_id") _ h1 oid h1)
    by (apply getPropH_ref; eapply lookup_weaken; [exact Hld|apply Hsub']).
  rewrite !bind_assoc_run.
  rewrite (bind_run (setPropH (LRef l') "_id" oid) _ h1 tt h2)
    by apply set_property_of_new_object.
  rewrite (bind_run (mret (LRef l')) _ h2 (LRef l') h2) by reflexivity.
  rewrite (bind_run (checkObjectH (S fuel) (LRef l')) _ h2 tt h2).
  2:{ unfold checkObjectH.
      rewrite (bind_run (reifyM (S fuel) (LRef l')) _ h2
                 (VObj (setOwn ukvs "_id" idt)) h2).
      - unfold liftR. rewrite Hcheck. reflexivity.
      - unfold reifyM.
        rewrite (reify_fuel_mono (S n) (S fuel) h2 _ _ Hnew) by lia.
        reflexivity. }
  rewrite (bind_run (getPropH (LRef ld) "_id") _ h2 oid h2)
    by (apply getPropH_ref; eapply lookup_weaken; [exact Hld|apply Hsub']).
  rewrite (bind_run (getPropH (LRef l') "_id") _ h2 oid h2).
  2:{ rewrite (getPropH_ref l' "_id" h2 (HObj (setOwn cs "_id" oid)))
        by apply lookup_insert_eq.
      cbn [objProp]. rewrite assoc_setOwn, String.eqb_refl. reflexivity. }
  rewrite strictEqL_refl. reflexivity.
Qed.

Lemma modify_replaces_and_restores_id_witness :
  let h : heap :=
    <[1%positive := HObj [("_id", LStr "a"); ("n", LNum 1)]]>
      (<[2%positive := HObj [("title", LStr "t"); ("tags", LRef 3%positive)]]>
         (<[3%positive := HArr [LStr "x"]]> ∅)) in
  exists newDoc (h' : heap),
    modify 5 (LRef 1%positive) (LRef 2%positive) LUndefined h
    = (Ok newDoc, h')
    /\ reify 2 h' newDoc
       = Some (VObj [("title", VStr "t"); ("tags", VArr [VStr "x"]);
                     ("_id", VStr "a")])
    /\ reify 2 h' (LRef 2%positive)
       = Some (VObj [("title", VStr "t"); ("tags", VArr [VStr "x"])])
    /\ h' !! 1%positive = Some (HObj [("_id", LStr "a"); ("n", LNum 1)]).
Proof.
  intros h.
  apply (modify_replaces_and_restores_id 1 3 (LRef 2%positive) LUndefined
           1%positive (HObj [("_id", LStr "a"); ("n", LNum 1)]) h
           [("title", VStr "t"); ("tags", VArr [VStr "x"])] (VStr "a"));
    try reflexivity. lia.
Defined.

(** ** Equality queries *)

Lemma areThingsEqual_with_primitive x v :
  isMongoId x = Ok false -> isNSB v = true ->
  areThingsEqual x v = Ok (strictEqPrim x v).
Proof.
  intros Hx Hv. unfold areThingsEqual. cbn [areThingsEqual_fuel].
  unfold areThingsEqual_body.
  rewrite (mongoIdToString_plain x Hx).
  assert (Hv' : mongoIdToString v = Ok v)
    by (destruct v; try discriminate Hv; reflexivity).
  rewrite Hv'. cbn [mbind result_bind].
  assert (Hn : isNullOrSBN v = true)
    by (destruct v; try discriminate Hv; reflexivity).
  rewrite Hn, orb_true_r. reflexivity.
Qed.

Lemma getDotValue_dotfree obj k :
  containsDot k = false -> truthy obj = true ->
  getDotValue obj k = getProp obj k.
Proof.
  intros Hk Ht. unfold getDotValue. rewrite (splitDot_dotfree k Hk).
  cbn [getDotValueParts]. rewrite Ht. reflexivity.
Qed.

(** [matchQueryPart(obj, k, v)] where [obj[k]] is not an array and [v] is
    a number, a string or a boolean. *)
Lemma matchQueryPart_scalar fuel obj k v treat :
  containsDot k = false -> truthy obj = true ->
  isNSB v = true ->
  isArray (getProp obj k) = false -> isMongoId (getProp obj k) = Ok false ->
  matchQueryPart_fuel (S fuel) obj k v treat
  = Ok (strictEqPrim (getProp obj k) v).
Proof.
  intros Hk Ht Hv Harr Hid. cbn [matchQueryPart_fuel].
  unfold matchQueryPart_body. rewrite (getDotValue_dotfree obj k Hk Ht).
  assert (Hno : isNonNullObject v = false)
    by (destruct v; try discriminate Hv; reflexivity).
  assert (Hnull : strictEqPrim v VNull = false)
    by (destruct v; try discriminate Hv; reflexivity).
  rewrite Hno. cbn [andb]. rewrite Hnull, andb_false_r.
  rewrite (areThingsEqual_with_primitive _ v Hid Hv).
  destruct (getProp obj k); try reflexivity. discriminate Harr.
Qed.

Lemma someM_existsb {A} (f : A -> result bool) (g : A -> bool) l :
  (forall x, In x l -> f x = Ok (g x)) -> someM f l = Ok (existsb g l).
Proof.
  induction l as [|x l IH]; intros H; [reflexivity|]. cbn [someM existsb].
  rewrite (H x (or_introl eq_refl)). cbn [mbind result_bind].
  destruct (g x); [reflexivity|]. apply IH. intros; apply H; right; assumption.
Qed.

(** [matchQueryPart(obj, k, v)] where [obj[k]] is an array of values that
    are not arrays. *)
Lemma matchQueryPart_array_of_scalars fuel obj k v l :
  containsDot k = false -> truthy obj = true ->
  isNSB v = true ->
  getProp obj k = VArr l ->
  Forall (fun e => isArray e = false /\ isMongoId e = Ok false) l ->
  matchQueryPart_fuel (S (S fuel)) obj k v false
  = Ok (existsb (fun e => strictEqPrim e v) l).
Proof.
  intros Hk Ht Hv Ex Hall.
  assert (Hno : isNonNullObject v = false)
    by (destruct v; try discriminate Hv; reflexivity).
  assert (Harrv : isArray v = false)
    by (destruct v; try discriminate Hv; reflexivity).
  assert (Heq : getField v "$eq" = Ok VUndefined)
    by (destruct v; try discriminate Hv; reflexivity).
  remember (S fuel) as fuel' eqn:Hf.
  cbn [matchQueryPart_fuel]. unfold matchQueryPart_body.
  rewrite (getDotValue_dotfree obj k Hk Ht), Ex.
  rewrite Heq. cbn [mbind result_bind]. rewrite Harrv. cbn [isUndefined negb orb].
  rewrite Hno. cbn [andb].
  apply someM_existsb.
  intros e He. rewrite List.Forall_forall in Hall.
  destruct (Hall e He) as [Harr Hid]. subst fuel'.
  rewrite (matchQueryPart_scalar fuel (VObj [("k", e)]) "k" v false);
    try reflexivity; assumption.
Qed.

(** A query [{k: v}] on a number, a string or a boolean [v] matches a
    document when the field [k] is strictly equal to [v], or is an array
    that holds an element strictly equal to [v]. The document has no
    [constructor] property of its own; the field, or each element of the
    array, is a value on which [isMongoId] answers [false] (so not
    [null]), and no element is an array itself. *)
Theorem match_equality_query
    (kvs : list (string * value)) (k : string) (v : value) :
  hasOwn kvs "constructor" = false ->
  firstCharIsDollar k = false -> containsDot k = false ->
  k <> "constructor" ->
  isNSB v = true ->
  match getProp (VObj kvs) k with
  | VArr l =>
      Forall (fun e => isArray e = false /\ isMongoId e = Ok false) l ->
      match_ (VObj kvs) (VObj [(k, v)])
      = Ok (existsb (fun e => strictEqPrim e v) l)
  | x =>
      isMongoId x = Ok false ->
      match_ (VObj kvs) (VObj [(k, v)]) = Ok (strictEqPrim x v)
  end.
Proof.
  intros Hc Hdollar Hk Hkc Hv.
  assert (Hobj : isMongoId (VObj kvs) = Ok false).
  { unfold hasOwn in Hc. simpl. destruct (assoc "constructor" kvs);
      [discriminate Hc|reflexivity]. }
  assert (Hq : isMongoId (VObj [(k, v)]) = Ok false).
  { simpl. destruct (String.eqb_spec k "constructor"); [contradiction|].
    reflexivity. }
  assert (Hno : isNonNullObject v = false)
    by (destruct v; try discriminate Hv; reflexivity).
  assert (Harrv : isArray v = false)
    by (destruct v; try discriminate Hv; reflexivity).
  assert (Heq : getField v "$eq" = Ok VUndefined).
  { destruct v; try discriminate Hv; reflexivity. }
  assert (Hstart : forall n,
    match_fuel (S (S (S n))) (VObj kvs) (VObj [(k, v)])
    = (b ← matchQueryPart_fuel (S (S n)) (VObj kvs) k v false;
       if b : bool then Ok true else Ok false)).
  { intros n. cbn [match_fuel]. unfold match_body.
    cbn [isPrimitiveType orb]. rewrite Hobj, Hq. cbn [mbind result_bind].
    cbn [ownEntries everyM]. rewrite Hdollar. reflexivity. }
  unfold match_, match_budget.
  replace (size (VObj [(k, v)]) + 2 * depth (VObj kvs) + 4)%nat
    with (S (S (S (S (size (VObj [(k, v)]) + 2 * depth (VObj kvs))))))
    by lia.
  rewrite Hstart.
  destruct (getProp (VObj kvs) k) as [| |b|z|s|t|l|o] eqn:Ex;
    try (intros Hid;
         rewrite (matchQueryPart_scalar _ (VObj kvs) k v false Hk eq_refl Hv)
           by (rewrite Ex; first [reflexivity|exact Hid]);
         rewrite Ex; cbn [mbind result_bind];
         match goal with |- (if ?c then _ else _) = _ => destruct c end;
         reflexivity).
  intros Hall.
  rewrite (matchQueryPart_array_of_scalars _ (VObj kvs) k v l Hk eq_refl Hv
             Ex Hall).
  cbn [mbind result_bind].
  destruct (existsb (fun e => strictEqPrim e v) l); reflexivity.
Qed.

Lemma match_equality_query_witness :
  match_ (VObj [("name", VStr "n"); ("tags", VArr [VStr "a"; VStr "b"])])
    (VObj [("tags", VStr "b")]) = Ok true
  /\ match_ (VObj [("name", VStr "n"); ("tags", VArr [VStr "a"; VStr "b"])])
       (VObj [("name", VStr "m")]) = Ok false.
Proof.
  split.
  - apply (match_equality_query
             [("name", VStr "n"); ("tags", VArr [VStr "a"; VStr "b"])]
             "tags" (VStr "b")); try reflexivity; [discriminate|].
    repeat constructor.
  - apply (match_equality_query
             [("name", VStr "n"); ("tags", VArr [VStr "a"; VStr "b"])]
             "name" (VStr "m")); try reflexivity. discriminate.
Defined.

(** ** The order operators on operands of one kind *)

(** On two integers (numbers other than [NaN]), two strings or two valid
    dates the four order operators return, and agree with one another:
    [$gt(a, b)] is [$lt(b, a)], [$gte(a, b)] is the negation of
    [$lt(a, b)], and [$lte(a, b)] the negation of [$gt(a, b)]. *)
Theorem order_operators_agree (a b : value) :
  alike a b = true ->
  exists lt gt,
    comparisonFunctions_lt a b = Ok lt
    /\ comparisonFunctions_gt a b = Ok gt
    /\ comparisonFunctions_lt b a = Ok gt
    /\ comparisonFunctions_gte a b = Ok (negb lt)
    /\ comparisonFunctions_lte a b = Ok (negb gt)
    /\ (lt && gt = false).
Proof.
  intros H. destruct a, b; try discriminate H;
    unfold comparisonFunctions_lt, comparisonFunctions_gt,
      comparisonFunctions_gte, comparisonFunctions_lte, areComparable,
      jsLt, jsGt, jsLte, jsGte, relational;
    cbn [isString isNumber isDate negb andb typeof jstype_eqb
         toNumberForCompare mbind result_bind].
  - rewrite (Z.compare_antisym n n0).
    destruct (n ?= n0); simpl; do 2 eexists; repeat split.
  - rewrite (String.compare_antisym s0 s).
    destruct (String.compare s s0); simpl; do 2 eexists; repeat split.
  - rewrite (Z.compare_antisym t t0).
    destruct (t ?= t0); simpl; do 2 eexists; repeat split.
Qed.

Lemma order_operators_agree_witness :
  exists lt gt,
    comparisonFunctions_lt (VStr "abc") (VStr "abd") = Ok lt
    /\ comparisonFunctions_gt (VStr "abc") (VStr "abd") = Ok gt
    /\ comparisonFunctions_lt (VStr "abd") (VStr "abc") = Ok gt
    /\ comparisonFunctions_gte (VStr "abc") (VStr "abd") = Ok (negb lt)
    /\ comparisonFunctions_lte (VStr "abc") (VStr "abd") = Ok (negb gt)
    /\ (lt && gt = false).
Proof.
  apply (order_operators_agree (VStr "abc") (VStr "abd")). reflexivity.
Defined.

(** ** Queries the matcher rejects *)

Lemma match_on_documents fuel kvs qkvs :
  hasOwn kvs "constructor" = false -> hasOwn qkvs "constructor" = false ->
  match_fuel (S fuel) (VObj kvs) (VObj qkvs)
  = everyM (fun kv : string * value =>
              let (queryKey, queryValue) := kv in
              if firstCharIsDollar queryKey then
                match logicalOperators (match_fuel fuel) queryKey with
                | None => Throw (Error ("Unknown logical operator " ++ queryKey))
                | Some op => op (VObj kvs) queryValue
                end
              else matchQueryPart_fuel fuel (VObj kvs) queryKey queryValue false)
      qkvs.
Proof.
  intros Hc Hq. cbn [match_fuel]. unfold match_body.
  cbn [isPrimitiveType orb isMongoId].
  unfold hasOwn in Hc, Hq.
  destruct (assoc "constructor" kvs); [discriminate Hc|].
  destruct (assoc "constructor" qkvs); [discriminate Hq|]. reflexivity.
Qed.

(** On a document and a query without a [constructor] property of their
    own: a first query key that begins with [$] and is none of [$or],
    [$and], [$not], [$where] makes [match] throw "Unknown logical
    operator"; [$or] and [$and] with an operand that is not an array throw
    as well. *)
Theorem match_rejects_malformed_logical_operators
    (kvs rest : list (string * value)) (op : string) (arg : value) :
  hasOwn kvs "constructor" = false ->
  hasOwn ((op, arg) :: rest) "constructor" = false ->
  firstCharIsDollar op = true ->
  (op <> "$or" -> op <> "$and" -> op <> "$not" -> op <> "$where" ->
   match_ (VObj kvs) (VObj ((op, arg) :: rest))
   = Throw (Error ("Unknown logical operator " ++ op)))
  /\ (op = "$or" -> isArray arg = false ->
      match_ (VObj kvs) (VObj ((op, arg) :: rest))
      = Throw (Error "$or operator used without an array"))
  /\ (op = "$and" -> isArray arg = false ->
      match_ (VObj kvs) (VObj ((op, arg) :: rest))
      = Throw (Error "$and operator used without an array")).
Proof.
  intros Hc Hq Hd. unfold match_, match_budget.
  replace (size (VObj ((op, arg) :: rest)) + 2 * depth (VObj kvs) + 4)%nat
    with (S (size (VObj ((op, arg) :: rest)) + 2 * depth (VObj kvs) + 3))
    by lia.
  rewrite (match_on_documents _ kvs _ Hc Hq). cbn [everyM]. rewrite Hd.
  split; [|split].
  - intros H1 H2 H3 H4. unfold logicalOperators.
    destruct (String.eqb_spec op "$or"); [contradiction|].
    destruct (String.eqb_spec op "$and"); [contradiction|].
    destruct (String.eqb_spec op "$not"); [contradiction|].
    destruct (String.eqb_spec op "$where"); [contradiction|]. reflexivity.
  - intros -> Harr. cbn [logicalOperators String.eqb Ascii.eqb Bool.eqb].
    unfold logicalOperators_or. destruct arg; try reflexivity.
    discriminate Harr.
  - intros -> Harr. cbn [logicalOperators String.eqb Ascii.eqb Bool.eqb].
    unfold logicalOperators_and. destruct arg; try reflexivity.
    discriminate Harr.
Qed.

Lemma match_rejects_malformed_logical_operators_witness :
  match_ (VObj [("a", VNum 1)]) (VObj [("$nor", VArr [])])
  = Throw (Error "Unknown logical operator $nor")
  /\ match_ (VObj [("a", VNum 1)]) (VObj [("$or", VObj [("a", VNum 1)])])
     = Throw (Error "$or operator used without an array").
Proof.
  split.
  - apply (match_rejects_malformed_logical_operators [("a", VNum 1)] []
             "$nor" (VArr [])); try reflexivity; discriminate.
  - apply (match_rejects_malformed_logical_operators [("a", VNum 1)] []
             "$or" (VObj [("a", VNum 1)])); reflexivity.
Defined.

(** ** [getObjDotValue] *)

Lemma defined_property_is_present obj name :
  isUndefined (getProp obj name) = false ->
  match obj with VObj _ | VArr _ | VDate _ => hasProperty obj name = true
            | _ => True end.
Proof.
  destruct obj; try exact (fun _ => I); cbn [getProp hasProperty].
  - discriminate.
  - destruct (name =? "length")%string; [reflexivity|]. cbn [orb].
    destruct (indexOfKey name) as [i|]; [|discriminate].
    intros H. apply Nat.ltb_lt.
    destruct (Nat.lt_ge_cases i (length l)) as [Hlt|Hge]; [exact Hlt|].
    rewrite nth_overflow in H by exact Hge. discriminate H.
  - unfold hasOwn. destruct (assoc name kvs); [reflexivity|discriminate].
Qed.

Lemma pick_defined obj name r :
  isUndefined (getProp obj name) = false ->
  pick name obj = Ok r -> r = VObj [(name, getProp obj name)].
Proof.
  intros Hu H. pose proof (defined_property_is_present obj name Hu) as Hp.
  unfold pick in H.
  destruct obj; try discriminate H; rewrite Hp in H; injection H as <-;
    reflexivity.
Qed.

Lemma getObjDotValueParts_shape parts : forall obj r,
  parts <> [] -> noArrayOn obj parts = true ->
  getObjDotValueParts obj parts = Ok r ->
  r = VUndefined \/ exists kvs, r = VObj kvs.
Proof.
  destruct parts as [|f rest]; intros obj r Hne Hna H; [contradiction|].
  cbn [getObjDotValueParts] in H.
  destruct (truthy obj); cbn [negb] in H; [|injection H as <-; auto].
  destruct (isUndefined (getProp obj f)) eqn:Eu;
    [injection H as <-; right; eexists; reflexivity|].
  destruct rest as [|k rest'].
  - rewrite (pick_defined obj f r Eu H). right; eexists; reflexivity.
  - cbn [noArrayOn] in Hna. apply andb_prop in Hna as [Harr _].
    destruct (getProp obj f); try discriminate Harr;
      (destruct (getObjDotValueParts _ (k :: rest')) as [r'| | |];
       try discriminate H; injection H as <-; right; eexists; reflexivity).
Qed.

Lemma getDotValueParts_of_undefined parts :
  getDotValueParts VUndefined parts = VUndefined.
Proof. destruct parts; reflexivity. Qed.

Lemma getDotValueParts_of_empty_object parts :
  parts <> [] -> getDotValueParts (VObj []) parts = VUndefined.
Proof.
  destruct parts as [|f [|k rest]]; intros H; [contradiction|reflexivity|].
  cbn [getDotValueParts truthy negb getProp assoc default from_option id].
  reflexivity.
Qed.

Lemma getObjDotValueParts_projects parts : forall obj r,
  parts <> [] -> noArrayOn obj parts = true ->
  getObjDotValueParts obj parts = Ok r ->
  getDotValueParts r parts = getDotValueParts obj parts.
Proof.
  induction parts as [|f rest IH]; intros obj r Hne Hna H; [contradiction|].
  cbn [getObjDotValueParts] in H.
  destruct (truthy obj) eqn:Et; cbn [negb] in H.
  2:{ injection H as <-. rewrite getDotValueParts_of_undefined.
      cbn [getDotValueParts]. rewrite Et. reflexivity. }
  destruct (isUndefined (getProp obj f)) eqn:Eu.
  { injection H as <-. rewrite getDotValueParts_of_empty_object by exact Hne.
    cbn [getDotValueParts]. rewrite Et. cbn [negb].
    destruct (getProp obj f); try discriminate Eu.
    destruct rest; [reflexivity|]. symmetry.
    apply getDotValueParts_of_undefined. }
  destruct rest as [|k rest'].
  - rewrite (pick_defined obj f r Eu H).
    cbn [getDotValueParts truthy negb getProp assoc]. rewrite Et.
    rewrite String.eqb_refl. reflexivity.
  - cbn [noArrayOn] in Hna. apply andb_prop in Hna as [Harr Hna].
    apply negb_true_iff in Harr.
    assert (H' : exists r', getObjDotValueParts (getProp obj f) (k :: rest') = Ok r'
                            /\ r = VObj [(f, r')]).
    { destruct (getProp obj f); try discriminate Harr;
        (destruct (getObjDotValueParts _ (k :: rest')) as [r'| | |];
         try discriminate H; injection H as <-; eexists; split; reflexivity). }
    destruct H' as (r' & Hr' & ->).
    pose proof (IH (getProp obj f) r' ltac:(discriminate) Hna Hr') as Hrec.
    assert (Hshape : isArray r' = false).
    { destruct (getObjDotValueParts_shape (k :: rest') _ r'
                  ltac:(discriminate) Hna Hr') as [->|[kvs ->]]; reflexivity. }
    change (getDotValueParts (VObj [(f, r')]) (f :: k :: rest'))
      with (match getProp (VObj [(f, r')]) f with
            | VArr l =>
                match parseInt10 k with
                | Some i => getDotValueParts (arrayAt l i) rest'
                | None =>
                    VArr (map (fun el => getDotValueParts el (k :: rest')) l)
                end
            | v => getDotValueParts v (k :: rest')
            end).
    cbn [getProp assoc]. rewrite String.eqb_refl.
    cbn [default from_option id].
    change (getDotValueParts obj (f :: k :: rest'))
      with (if negb (truthy obj) then VUndefined
            else match getProp obj f with
                 | VArr l =>
                     match parseInt10 k with
                     | Some i => getDotValueParts (arrayAt l i) rest'
                     | None =>
                         VArr (map (fun el => getDotValueParts el (k :: rest')) l)
                     end
                 | v => getDotValueParts v (k :: rest')
                 end).
    rewrite Et. cbn [negb].
    destruct r'; try discriminate Hshape;
      destruct (getProp obj f); try discriminate Harr; exact Hrec.
Qed.

(** On a path that meets no array before its last part, the object
    [getObjDotValue] returns holds, at that path, the value the document
    holds there: [getDotValue(getObjDotValue(obj, field), field)] is
    [getDotValue(obj, field)]. *)
Theorem getObjDotValue_keeps_the_value_at_the_path
    (obj : value) (field : string) (picked : value) :
  noArrayOn obj (splitDot field) = true ->
  getObjDotValue obj field = Ok picked ->
  getDotValue picked field = getDotValue obj field.
Proof.
  unfold getObjDotValue, getDotValue. intros Hna H.
  apply getObjDotValueParts_projects; [apply splitDot_nonempty| |]; assumption.
Qed.

Lemma getObjDotValue_keeps_the_value_at_the_path_witness :
  let obj := VObj [("a", VObj [("b", VArr [VNum 1]); ("c", VNum 2)]);
                   ("d", VNum 3)] in
  getObjDotValue obj "a.b" = Ok (VObj [("a", VObj [("b", VArr [VNum 1])])])
  /\ getDotValue (VObj [("a", VObj [("b", VArr [VNum 1])])]) "a.b"
     = getDotValue obj "a.b".
Proof.
  intros obj. split; [reflexivity|].
  apply (getObjDotValue_keeps_the_value_at_the_path obj "a.b"); reflexivity.
Defined.

(** ** [compoundCompareThings] *)

Lemma compareThings_swapped a b c :
  compareThings a b None = Ok c -> compareThings b a None = Ok (- c).
Proof.
  unfold compareThings. intros H.
  apply (compareThings_fuel_enough (S (depth a))); [|lia].
  apply compareThings_fuel_antisym; [exact I|exact H].
Qed.

Lemma fields_loop_antisym a b : forall fields c,
  (fix loop (fields : list string) : result Z :=
     match fields with
     | [] => Ok 0
     | f :: r =>
         comparison ← compareThings (getProp a f) (getProp b f) None;
         if comparison =? 0 then loop r else Ok comparison
     end) fields = Ok c ->
  (fix loop (fields : list string) : result Z :=
     match fields with
     | [] => Ok 0
     | f :: r =>
         comparison ← compareThings (getProp b f) (getProp a f) None;
         if comparison =? 0 then loop r else Ok comparison
     end) fields = Ok (- c).
Proof.
  induction fields as [|f r IH]; intros c H.
  - injection H as <-. reflexivity.
  - destruct (compareThings (getProp a f) (getProp b f) None) as [x| | |] eqn:E;
      try discriminate H.
    rewrite (compareThings_swapped _ _ x E).
    cbn [mbind result_bind] in *.
    destruct (Z.eqb_spec x 0) as [->|Hne].
    + simpl. apply IH. exact H.
    + destruct (Z.eqb_spec (- x) 0); [lia|]. injection H as <-. reflexivity.
Qed.

(** The comparator of a compound index is antisymmetric: whenever
    [compoundCompareThings(fields)(a, b)] returns [c], it returns [-c] on
    [(b, a)]; and it orders [undefined] before [null] before everything
    else without looking at the fields. *)
Theorem compoundCompareThings_antisymmetric
    (fields : list string) (a b : value) (c : Z) :
  compoundCompareThings fields a b = Ok c ->
  compoundCompareThings fields b a = Ok (- c)
  /\ (a = VUndefined -> b <> VUndefined -> c = -1)
  /\ (a = VNull -> b <> VUndefined -> b <> VNull -> c = -1).
Proof.
  intros H. split; [|split].
  - unfold compoundCompareThings in *.
    destruct a, b; try (injection H as <-; reflexivity);
      apply fields_loop_antisym; exact H.
  - intros -> Hb. destruct b; try contradiction; injection H as <-; reflexivity.
  - intros -> Hb Hb'. destruct b; try contradiction; injection H as <-;
      reflexivity.
Qed.

Lemma compoundCompareThings_antisymmetric_witness :
  let a := VObj [("x", VNum 1); ("y", VStr "b")] in
  let b := VObj [("x", VNum 1); ("y", VStr "a")] in
  compoundCompareThings ["x"; "y"] b a = Ok (- 1)
  /\ (a = VUndefined -> b <> VUndefined -> 1 = -1)
  /\ (a = VNull -> b <> VUndefined -> b <> VNull -> 1 = -1).
Proof.
  intros a b.
  apply (compoundCompareThings_antisymmetric ["x"; "y"] a b 1). reflexivity.
Defined.

(** ** The recursion budget of [match] *)

Lemma upTo_refl {A} (r : result A) : upTo r r.
Proof. right. reflexivity. Qed.

Lemma upTo_bind {A B} (a a' : result A) (f f' : A -> result B) :
  upTo a a' -> (forall x, upTo (f x) (f' x)) -> upTo (a ≫= f) (a' ≫= f').
Proof.
  intros [->| ->] Hf; [left; reflexivity|].
  destruct a'; cbn [mbind result_bind]; [apply Hf|right..]; reflexivity.
Qed.

Lemma upTo_fmap {A B} (g : A -> B) (a a' : result A) :
  upTo a a' -> upTo (g <$> a) (g <$> a').
Proof. intros [->| ->]; [left|right]; reflexivity. Qed.

Lemma upTo_someM {A} (f f' : A -> result bool) l :
  (forall x, upTo (f x) (f' x)) -> upTo (someM f l) (someM f' l).
Proof.
  intros Hf. induction l as [|x r IH]; [apply upTo_refl|].
  cbn [someM]. apply upTo_bind; [apply Hf|].
  intros [|]; [apply upTo_refl|exact IH].
Qed.

Lemma upTo_everyM {A} (f f' : A -> result bool) l :
  (forall x, upTo (f x) (f' x)) -> upTo (everyM f l) (everyM f' l).
Proof.
  intros Hf. induction l as [|x r IH]; [apply upTo_refl|].
  cbn [everyM]. apply upTo_bind; [apply Hf|].
  intros [|]; [exact IH|apply upTo_refl].
Qed.

Section budget.
Variables m m' : value -> value -> result bool.
Variables p p' : value -> string -> value -> bool -> result bool.
Hypothesis Hm : forall o q, upTo (m o q) (m' o q).
Hypothesis Hp : forall o k q t, upTo (p o k q t) (p' o k q t).

Lemma upTo_comparisonFunctions key :
  match comparisonFunctions m key, comparisonFunctions m' key with
  | Some f, Some f' => forall a b, upTo (f a b) (f' a b)
  | None, None => True
  | _, _ => False
  end.
Proof.
  unfold comparisonFunctions.
  repeat match goal with
         | |- context [if ?c then _ else _] =>
             destruct c; [intros a b; try apply upTo_refl|]
         end; [|exact I].
  unfold comparisonFunctions_elemMatch. destruct a; try apply upTo_refl.
  apply upTo_someM. intros x. apply Hm.
Qed.

Lemma upTo_logicalOperators key :
  match logicalOperators m key, logicalOperators m' key with
  | Some f, Some f' => forall a b, upTo (f a b) (f' a b)
  | None, None => True
  | _, _ => False
  end.
Proof.
  unfold logicalOperators.
  repeat match goal with
         | |- context [if ?c then _ else _] =>
             destruct c; [intros a b|]
         end; [| | | |exact I].
  - unfold logicalOperators_or. destruct b; try apply upTo_refl.
    apply upTo_someM. intros x. apply Hm.
  - unfold logicalOperators_and. destruct b; try apply upTo_refl.
    apply upTo_everyM. intros x. apply Hm.
  - unfold logicalOperators_not. apply upTo_fmap, Hm.
  - apply upTo_refl.
Qed.

Lemma upTo_matchQueryPart_body obj k qv t :
  upTo (matchQueryPart_body m p obj k qv t)
       (matchQueryPart_body m' p' obj k qv t).
Proof.
  unfold matchQueryPart_body.
  set (objValue := getDotValue obj k).
  assert (Hbasic : upTo
    (if isNonNullObject qv && negb (isArray qv) then
       if existsb (String.eqb "$regex") (objectKeys qv)
          && existsb (String.eqb "$options") (objectKeys qv)
       then NotModelled
       else
         if negb (length (List.filter firstCharIsDollar (objectKeys qv)) =? 0)%nat
            && negb (length (List.filter firstCharIsDollar (objectKeys qv))
                     =? length (objectKeys qv))%nat
         then Throw (Error "You cannot mix operators and normal fields")
         else if (0 <? length (List.filter firstCharIsDollar (objectKeys qv)))%nat
         then everyM (fun key =>
                        match comparisonFunctions m key with
                        | None => Throw (Error ("Unknown comparison function " ++ key))
                        | Some f => f objValue (getProp qv key)
                        end) (objectKeys qv)
         else if isUndefined objValue && strictEqPrim qv VNull then Ok true
         else areThingsEqual objValue qv
     else if isUndefined objValue && strictEqPrim qv VNull then Ok true
     else areThingsEqual objValue qv)
    (if isNonNullObject qv && negb (isArray qv) then
       if existsb (String.eqb "$regex") (objectKeys qv)
          && existsb (String.eqb "$options") (objectKeys qv)
       then NotModelled
       else
         if negb (length (List.filter firstCharIsDollar (objectKeys qv)) =? 0)%nat
            && negb (length (List.filter firstCharIsDollar (objectKeys qv))
                     =? length (objectKeys qv))%nat
         then Throw (Error "You cannot mix operators and normal fields")
         else if (0 <? length (List.filter firstCharIsDollar (objectKeys qv)))%nat
         then everyM (fun key =>
                        match comparisonFunctions m' key with
                        | None => Throw (Error ("Unknown comparison function " ++ key))
                        | Some f => f objValue (getProp qv key)
                        end) (objectKeys qv)
         else if isUndefined objValue && strictEqPrim qv VNull then Ok true
         else areThingsEqual objValue qv
     else if isUndefined objValue && strictEqPrim qv VNull then Ok true
     else areThingsEqual objValue qv)).
  { repeat match goal with
           | |- upTo (if ?c then _ else _) _ =>
               destruct c; try apply upTo_refl
           end.
    apply upTo_everyM. intros key.
    pose proof (upTo_comparisonFunctions key) as H.
    destruct (comparisonFunctions m key), (comparisonFunctions m' key);
      try contradiction; [apply H|apply upTo_refl]. }
  cbv zeta.
  destruct objValue; try exact Hbasic.
  destruct t; [exact Hbasic|].
  apply upTo_bind; [apply upTo_refl|]. intros eqOp.
  repeat match goal with
         | |- upTo (if ?c then _ else _) _ => destruct c; try apply Hp
         end.
  apply upTo_someM. intros x. apply Hp.
Qed.

Lemma upTo_match_body obj query :
  upTo (match_body m p obj query) (match_body m' p' obj query).
Proof.
  unfold match_body. apply upTo_bind; [apply upTo_refl|].
  intros [|]; [apply Hp|].
  apply upTo_everyM. intros [queryKey queryValue].
  destruct (firstCharIsDollar queryKey); [|apply Hp].
  pose proof (upTo_logicalOperators queryKey) as H.
  destruct (logicalOperators m queryKey), (logicalOperators m' queryKey);
    try contradiction; [apply H|apply upTo_refl].
Qed.
End budget.

Lemma match_fuel_step n :
  (forall o q, upTo (match_fuel n o q) (match_fuel (S n) o q))
  /\ (forall o k q t,
        upTo (matchQueryPart_fuel n o k q t) (matchQueryPart_fuel (S n) o k q t)).
Proof.
  induction n as [|n [IHm IHp]]; [split; intros; left; reflexivity|].
  split; intros.
  - change (upTo (match_body (match_fuel n) (matchQueryPart_fuel n) o q)
              (match_body (match_fuel (S n)) (matchQueryPart_fuel (S n)) o q)).
    apply upTo_match_body; assumption.
  - change (upTo
      (matchQueryPart_body (match_fuel n) (matchQueryPart_fuel n) o k q t)
      (matchQueryPart_body (match_fuel (S n)) (matchQueryPart_fuel (S n))
         o k q t)).
    apply upTo_matchQueryPart_body; assumption.
Qed.

Lemma match_fuel_more n n' o q b :
  (n <= n')%nat -> match_fuel n o q = Ok b -> match_fuel n' o q = Ok b.
Proof.
  induction 1 as [|n' _ IH]; [trivial|]. intros H.
  destruct (proj1 (match_fuel_step n') o q) as [E|E].
  - rewrite (IH H) in E. discriminate E.
  - rewrite <- E. exact (IH H).
Qed.
(** *** The budget is enough *)

Lemma bind_defined {A B} (a : result A) (f : A -> result B) :
  a <> OutOfFuel -> (forall x, a = Ok x -> f x <> OutOfFuel) ->
  a ≫= f <> OutOfFuel.
Proof.
  destruct a; cbn [mbind result_bind]; intros Ha Hf; try discriminate;
    [apply Hf; reflexivity|contradiction].
Qed.

Lemma fmap_defined {A B} (g : A -> B) (a : result A) :
  a <> OutOfFuel -> g <$> a <> OutOfFuel.
Proof. destruct a; cbn; intros Ha; try discriminate; contradiction. Qed.

Lemma someM_defined {A} (f : A -> result bool) l :
  (forall x, In x l -> f x <> OutOfFuel) -> someM f l <> OutOfFuel.
Proof.
  induction l as [|x r IH]; intros H; cbn [someM]; [discriminate|].
  apply bind_defined; [apply H; left; reflexivity|].
  intros [|] _; [discriminate|]. apply IH. intros y Hy. apply H. right. exact Hy.
Qed.

Lemma everyM_defined {A} (f : A -> result bool) l :
  (forall x, In x l -> f x <> OutOfFuel) -> everyM f l <> OutOfFuel.
Proof.
  induction l as [|x r IH]; intros H; cbn [everyM]; [discriminate|].
  apply bind_defined; [apply H; left; reflexivity|].
  intros [|] _; [|discriminate]. apply IH. intros y Hy. apply H. right. exact Hy.
Qed.

Lemma isMongoId_defined a : isMongoId a <> OutOfFuel.
Proof.
  unfold isMongoId.
  repeat match goal with
         | |- context [match ?x with _ => _ end] => destruct x
         end; discriminate.
Qed.

Lemma mongoIdToString_defined a : mongoIdToString a <> OutOfFuel.
Proof.
  unfold mongoIdToString. apply bind_defined; [apply isMongoId_defined|].
  intros [|] _; [|discriminate].
  destruct a; try discriminate. destruct (assoc "toString" kvs); discriminate.
Qed.

Lemma depth_getProp v k : (depth (getProp v k) <= pred (depth v))%nat.
Proof.
  destruct v; try (simpl; lia).
  - cbn [getProp]. destruct (k =? "length")%string; [simpl; lia|].
    destruct (indexOfKey k) as [i|]; [destruct (String.get i s)|];
      simpl; lia.
  - cbn [getProp]. destruct (k =? "length")%string; [simpl; lia|].
    destruct (indexOfKey k) as [i|]; [|simpl; lia].
    destruct (nth_in_or_default i l VUndefined) as [Hin| ->]; [|simpl; lia].
    pose proof (depth_arr_elem l _ Hin). lia.
  - pose proof (depth_getProp_obj kvs k). lia.
Qed.

Lemma depth_arrayAt l i : (depth (arrayAt l i) <= pred (depth (VArr l)))%nat.
Proof.
  unfold arrayAt. destruct (i <? 0); [simpl; lia|].
  destruct (nth_in_or_default (Z.to_nat i) l VUndefined) as [Hin| ->];
    [|simpl; lia].
  pose proof (depth_arr_elem l _ Hin). lia.
Qed.

Lemma list_max_map_le {A} (f g : A -> nat) l :
  (forall x, In x l -> (f x <= g x)%nat) ->
  (list_max (map f l) <= list_max (map g l))%nat.
Proof.
  induction l as [|x r IH]; intros H; [reflexivity|]. simpl.
  pose proof (H x (or_introl eq_refl)).
  assert (list_max (map f r) <= list_max (map g r))%nat
    by (apply IH; intros y Hy; apply H; right; exact Hy).
  lia.
Qed.

Lemma depth_getDotValueParts n : forall parts obj,
  (length parts <= n)%nat ->
  (depth (getDotValueParts obj parts) <= depth obj)%nat.
Proof.
  induction n as [|n IH]; intros parts obj Hn.
  - destruct parts; [|simpl in Hn; lia]. cbn [getDotValueParts].
    destruct (truthy obj); simpl; lia.
  - destruct parts as [|f [|k rest]]; cbn [getDotValueParts].
    + destruct (truthy obj); simpl; lia.
    + destruct (truthy obj); cbn [negb]; [|simpl; lia].
      pose proof (depth_getProp obj f). lia.
    + destruct (truthy obj); cbn [negb]; [|simpl; lia].
      pose proof (depth_getProp obj f) as Hf. simpl in Hn.
      assert (Htl : forall v, (depth (getDotValueParts v (k :: rest))
                               <= depth v)%nat)
        by (intros v; apply IH; simpl; lia).
      destruct (getProp obj f) as [| | | | | |l|kvs] eqn:E;
        try (etransitivity; [apply Htl|lia]).
      destruct (parseInt10 k) as [i|].
      * etransitivity; [apply IH; lia|].
        pose proof (depth_arrayAt l i). lia.
      * apply Nat.le_trans with (depth (VArr l)); [|lia].
        cbn [depth]. rewrite map_map. apply le_n_S.
        apply list_max_map_le. intros x _. apply Htl.
Qed.

Lemma depth_getDotValue obj k : (depth (getDotValue obj k) <= depth obj)%nat.
Proof. apply (depth_getDotValueParts (length (splitDot k))). reflexivity. Qed.

Lemma areThingsEqual_fuel_defined n : forall a b,
  (depth a < n)%nat -> areThingsEqual_fuel n a b <> OutOfFuel.
Proof.
  induction n as [|n IH]; intros a b Hn; [lia|].
  cbn [areThingsEqual_fuel]. unfold areThingsEqual_body.
  apply bind_defined; [apply mongoIdToString_defined|]. intros a' Ha.
  apply bind_defined; [apply mongoIdToString_defined|]. intros b' Hb.
  destruct (isNullOrSBN a' || isNullOrSBN b') eqn:E1; [discriminate|].
  destruct (isDate a' || isDate b') eqn:E2; [discriminate|].
  match goal with
  | |- (if ?c then _ else _) <> _ => destruct c eqn:E3; [discriminate|]
  end.
  apply orb_false_elim in E1 as [E1 _]. apply orb_false_elim in E2 as [E2 _].
  apply orb_false_elim in E3 as [E3 _]. apply orb_false_elim in E3 as [_ E3].
  assert (Hrec : forall el,
            areThingsEqual_fuel n (getProp a' el) (getProp b' el) <> OutOfFuel).
  { intros el. apply IH. pose proof (depth_getProp a' el).
    destruct (mongoIdToString_cases _ _ Ha) as [->|[s ->]];
      [|simpl in E1; discriminate E1].
    destruct a; simpl in E1, E2, E3; try discriminate; simpl in *; lia. }
  cbv zeta.
  destruct (negb (length (objectKeys a') =? length (objectKeys b'))%nat);
    [discriminate|].
  generalize (objectKeys a') as ks.
  induction ks as [|el ks IHks]; [simpl; discriminate|].
  generalize dependent (objectKeys b'). intros bKeys IHks.
  simpl.
  match goal with
  | |- (if ?c then _ else _) <> _ => destruct c; [discriminate|]
  end.
  apply bind_defined; [apply Hrec|]. intros [|] _; [exact IHks|discriminate].
Qed.

Lemma areThingsEqual_defined a b : areThingsEqual a b <> OutOfFuel.
Proof. apply areThingsEqual_fuel_defined. lia. Qed.

Lemma size_arr_elem l x : In x l -> (size x < size (VArr l))%nat.
Proof.
  intros Hin. cbn [size].
  assert (size x <= list_sum (map size l))%nat; [|lia].
  induction l as [|y r IH]; [destruct Hin|]. simpl.
  destruct Hin as [->|Hin]; [lia|]. specialize (IH Hin). lia.
Qed.

Lemma size_obj_elem kvs k x : In (k, x) kvs -> (size x < size (VObj kvs))%nat.
Proof.
  intros Hin. cbn [size].
  assert (size x <= list_sum (map (fun kv => size (snd kv)) kvs))%nat; [|lia].
  induction kvs as [|y r IH]; [destruct Hin|]. simpl.
  destruct Hin as [->|Hin]; [simpl; lia|]. specialize (IH Hin). lia.
Qed.

Lemma size_getProp_obj kvs k :
  In k (map fst kvs) -> (size (getProp (VObj kvs) k) < size (VObj kvs))%nat.
Proof.
  intros Hin. cbn [getProp]. destruct (assoc k kvs) as [x|] eqn:E.
  - cbn [default from_option id]. apply (size_obj_elem kvs k).
    induction kvs as [|[k' v] r IH]; [discriminate E|]. simpl in E.
    destruct (String.eqb_spec k' k) as [->|Hne].
    + injection E as ->. left; reflexivity.
    + right. apply IH; [|exact E]. destruct Hin as [Hk|Hin]; [|exact Hin].
      contradiction.
  - exfalso. induction kvs as [|[k' v] r IH]; [destruct Hin|]. simpl in E.
    destruct (String.eqb_spec k' k) as [->|Hne]; [discriminate E|].
    destruct Hin as [Hk|Hin]; [contradiction|]. exact (IH Hin E).
Qed.

Lemma comparisonFunctions_defined (m : value -> value -> result bool)
    key f a b :
  comparisonFunctions m key = Some f ->
  (forall l el, a = VArr l -> In el l -> m el b <> OutOfFuel) ->
  f a b <> OutOfFuel.
Proof.
  unfold comparisonFunctions. intros H Hm.
  repeat match type of H with
         | (if ?c then _ else _) = _ => destruct c; [injection H as <-|]
         end; [..|discriminate H].
  - unfold comparisonFunctions_lt, jsLt, relational.
    destruct (areComparable a b); [|discriminate].
    destruct a, b; simpl; discriminate.
  - unfold comparisonFunctions_lte, jsLte, relational.
    destruct (areComparable a b); [|discriminate].
    destruct a, b; simpl; discriminate.
  - unfold comparisonFunctions_gt, jsGt, relational.
    destruct (areComparable a b); [|discriminate].
    destruct a, b; simpl; discriminate.
  - unfold comparisonFunctions_gte, jsGte, relational.
    destruct (areComparable a b); [|discriminate].
    destruct a, b; simpl; discriminate.
  - unfold comparisonFunctions_ne.
    destruct a; try discriminate;
      try (apply fmap_defined, areThingsEqual_defined).
    destruct (negb (isArray b)); apply fmap_defined;
      [|apply areThingsEqual_defined].
    apply someM_defined. intros x _. apply areThingsEqual_defined.
  - apply areThingsEqual_defined.
  - unfold comparisonFunctions_in. destruct b; try discriminate.
    apply someM_defined. intros x _. apply areThingsEqual_defined.
  - unfold comparisonFunctions_nin, comparisonFunctions_in.
    destruct b; try discriminate. apply fmap_defined.
    apply someM_defined. intros x _. apply areThingsEqual_defined.
  - unfold comparisonFunctions_regex. destruct b; discriminate.
  - unfold comparisonFunctions_exists. destruct a; discriminate.
  - unfold comparisonFunctions_size. destruct a; try discriminate.
    destruct b; discriminate.
  - unfold comparisonFunctions_elemMatch. destruct a; try discriminate.
    apply someM_defined. intros el Hin. apply (Hm l el eq_refl Hin).
Qed.

Ltac split_on_test :=
  match goal with |- (if ?c then _ else _) <> _ => destruct c end.

(** The part of [matchQueryPart] that looks at the query value, once the
    value at the path is known. *)
Ltac basic_defined Hcmp :=
  let Eq := fresh "Eq" in
  match goal with |- (if ?c then _ else _) <> _ => destruct c eqn:Eq end;
  [ split_on_test; [discriminate|];
    split_on_test; [discriminate|];
    split_on_test;
    [ let key := fresh "key" in
      let Hkey := fresh "Hkey" in
      let Ecf := fresh "Ecf" in
      apply everyM_defined; intros key Hkey;
      match goal with
      | |- match ?c with _ => _ end <> _ => destruct c eqn:Ecf; [|discriminate]
      end;
      let l := fresh "l" in
      let el := fresh "el" in
      let Hl := fresh "Hl" in
      let Hin := fresh "Hin" in
      apply (comparisonFunctions_defined _ _ _ _ _ Ecf);
      intros l el Hl Hin; apply Hcmp;
      [first [discriminate Hl
             |injection Hl as ->; apply depth_arr_elem; exact Hin]
      |exact Hkey|first [exact Eq|reflexivity]]
    | split_on_test; [discriminate|apply areThingsEqual_defined] ]
  | split_on_test; [discriminate|apply areThingsEqual_defined] ].

Lemma match_fuel_defined n :
  (forall obj q, (size q + 2 * depth obj + 3 <= n)%nat ->
     match_fuel n obj q <> OutOfFuel)
  /\ (forall obj k qv (t : bool),
        (size qv + 2 * depth (getDotValue obj k) + (if t then 1 else 2)
         <= n)%nat ->
        matchQueryPart_fuel n obj k qv t <> OutOfFuel).
Proof.
  induction n as [|n [IHm IHp]]; [split; intros; [lia|destruct t; lia]|].
  split.
  - intros obj q Hn. cbn [match_fuel]. unfold match_body.
    assert (Hkey : matchQueryPart_fuel n (VObj [("needAKey", obj)])
                     "needAKey" q false <> OutOfFuel).
    { apply IHp.
      replace (getDotValue (VObj [("needAKey", obj)]) "needAKey") with obj
        by reflexivity.
      lia. }
    destruct (isPrimitiveType obj || isPrimitiveType q) eqn:Eprim;
      [exact Hkey|].
    apply orb_false_elim in Eprim as [_ Eprim].
    apply bind_defined.
    { apply bind_defined; [apply isMongoId_defined|].
      intros [|] _; [discriminate|apply isMongoId_defined]. }
    intros [|] _; [exact Hkey|].
    apply everyM_defined. intros [queryKey queryValue] Hin.
    assert (Hsize : (size queryValue < size q)%nat).
    { destruct q; try discriminate Eprim; [destruct Hin|].
      apply (size_obj_elem kvs queryKey). exact Hin. }
    pose proof (depth_getDotValue obj queryKey) as Hd.
    destruct (firstCharIsDollar queryKey); [|apply IHp; lia].
    unfold logicalOperators.
    repeat match goal with
           | |- match (if ?c then _ else _) with _ => _ end <> _ => destruct c
           end; [| | | |discriminate].
    + unfold logicalOperators_or. destruct queryValue; try discriminate.
      apply someM_defined. intros x Hx. apply IHm.
      pose proof (size_arr_elem l x Hx). lia.
    + unfold logicalOperators_and. destruct queryValue; try discriminate.
      apply everyM_defined. intros x Hx. apply IHm.
      pose proof (size_arr_elem l x Hx). lia.
    + unfold logicalOperators_not. apply fmap_defined, IHm. lia.
    + unfold logicalOperators_where. destruct queryValue; discriminate.
  - intros obj k qv t Hn. cbn [matchQueryPart_fuel].
    unfold matchQueryPart_body. cbv zeta.
    assert (Hcmp : forall key el,
              (depth el < depth (getDotValue obj k))%nat ->
              In key (objectKeys qv) ->
              isNonNullObject qv && negb (isArray qv) = true ->
              match_fuel n el (getProp qv key) <> OutOfFuel).
    { intros key el Hd Hkey Eq. apply IHm.
      assert (size (getProp qv key) < size qv)%nat.
      { destruct qv; try discriminate Eq; [destruct Hkey|].
        apply size_getProp_obj. exact Hkey. }
      destruct t; lia. }
    destruct (getDotValue obj k) as [| | | | | |l|kvs] eqn:Eov;
      try (basic_defined Hcmp).
    destruct t; [basic_defined Hcmp|].
    apply bind_defined; [destruct qv; discriminate|]. intros eqOp _.
    assert (Htrue : matchQueryPart_fuel n obj k qv true <> OutOfFuel)
      by (apply IHp; rewrite Eov; lia).
    destruct (isArray qv || negb (isUndefined eqOp)); [exact Htrue|].
    split_on_test; [exact Htrue|].
    apply someM_defined. intros el Hin. apply IHp.
    replace (getDotValue (VObj [("k", el)]) "k") with el by reflexivity.
    pose proof (depth_arr_elem l el Hin). lia.
Qed.

Lemma match_defined obj q : match_ obj q <> OutOfFuel.
Proof.
  unfold match_, match_budget. apply (proj1 (match_fuel_defined _)). lia.
Qed.

(** ** The logical operators compose the outcomes of their subqueries *)

Lemma match_fuel_enough n obj q :
  (match_budget obj q <= n)%nat -> match_fuel n obj q = match_ obj q.
Proof.
  induction 1 as [|n _ IH]; [reflexivity|].
  destruct (proj1 (match_fuel_step n) obj q) as [E|E].
  - rewrite IH in E. destruct (match_defined obj q E).
  - rewrite <- E. exact IH.
Qed.

Lemma everyM_ext {A} (f g : A -> result bool) l :
  (forall x, In x l -> f x = g x) -> everyM f l = everyM g l.
Proof.
  induction l as [|x r IH]; intros H; [reflexivity|]. cbn [everyM].
  rewrite (H x (or_introl eq_refl)), IH; [reflexivity|].
  intros y Hy. apply H. right. exact Hy.
Qed.

Lemma someM_ext {A} (f g : A -> result bool) l :
  (forall x, In x l -> f x = g x) -> someM f l = someM g l.
Proof.
  induction l as [|x r IH]; intros H; [reflexivity|]. cbn [someM].
  rewrite (H x (or_introl eq_refl)), IH; [reflexivity|].
  intros y Hy. apply H. right. exact Hy.
Qed.

Lemma single_entry (r : result bool) :
  (b ← r; if b : bool then Ok true else Ok false) = r.
Proof. destruct r as [[|]| | |]; reflexivity. Qed.

(** On a document without a [constructor] property of its own, the logical
    operators compose the outcomes of their subqueries: [{$and: qs}] is
    the conjunction of [match(doc, q)] over [qs] from left to right, up to
    the first that is false or throws; [{$or: qs}] the disjunction, up to
    the first that is true or throws; [{$not: q}] negates [match(doc, q)]
    and throws when it throws. *)
Theorem logical_operators_compose
    (kvs : list (string * value)) (qs : list value) (q : value) :
  hasOwn kvs "constructor" = false ->
  match_ (VObj kvs) (VObj [("$and", VArr qs)])
  = everyM (fun q => match_ (VObj kvs) q) qs
  /\ match_ (VObj kvs) (VObj [("$or", VArr qs)])
     = someM (fun q => match_ (VObj kvs) q) qs
  /\ match_ (VObj kvs) (VObj [("$not", q)]) = negb <$> match_ (VObj kvs) q.
Proof.
  intros Hc.
  assert (Hsub : forall x, In x qs ->
            match_fuel (size (VArr qs) + 2 * depth (VObj kvs) + 4)
              (VObj kvs) x
            = match_ (VObj kvs) x).
  { intros x Hx. apply match_fuel_enough. unfold match_budget.
    pose proof (size_arr_elem qs x Hx). lia. }
  split; [|split]; unfold match_ at 1, match_budget.
  - replace (size (VObj [("$and", VArr qs)]) + 2 * depth (VObj kvs) + 4)%nat
      with (S (size (VArr qs) + 2 * depth (VObj kvs) + 4))
      by (simpl; lia).
    rewrite (match_on_documents _ kvs [("$and", VArr qs)] Hc eq_refl).
    cbn [everyM firstCharIsDollar Ascii.eqb Bool.eqb logicalOperators
         String.eqb]. unfold logicalOperators_and.
    rewrite single_entry. apply everyM_ext. exact Hsub.
  - replace (size (VObj [("$or", VArr qs)]) + 2 * depth (VObj kvs) + 4)%nat
      with (S (size (VArr qs) + 2 * depth (VObj kvs) + 4))
      by (simpl; lia).
    rewrite (match_on_documents _ kvs [("$or", VArr qs)] Hc eq_refl).
    cbn [everyM firstCharIsDollar Ascii.eqb Bool.eqb logicalOperators
         String.eqb]. unfold logicalOperators_or.
    rewrite single_entry. apply someM_ext. exact Hsub.
  - replace (size (VObj [("$not", q)]) + 2 * depth (VObj kvs) + 4)%nat
      with (S (size q + 2 * depth (VObj kvs) + 4))
      by (simpl; lia).
    rewrite (match_on_documents _ kvs [("$not", q)] Hc eq_refl).
    cbn [everyM firstCharIsDollar Ascii.eqb Bool.eqb logicalOperators
         String.eqb]. unfold logicalOperators_not.
    rewrite single_entry. reflexivity.
Qed.

Lemma logical_operators_compose_witness :
  let doc := [("a", VNum 1); ("b", VStr "x")] in
  let qs := [VObj [("a", VNum 1)]; VObj [("b", VStr "y")];
             VObj [("$nor", VArr [])]] in
  match_ (VObj doc) (VObj [("$and", VArr qs)]) = Ok false
  /\ match_ (VObj doc) (VObj [("$or", VArr qs)]) = Ok true
  /\ match_ (VObj doc) (VObj [("$not", VObj [("b", VStr "y")])]) = Ok true.
Proof.
  intros doc qs.
  destruct (logical_operators_compose doc qs (VObj [("b", VStr "y")]) eq_refl)
    as (Hand & Hor & Hnot).
  rewrite Hand, Hor, Hnot. repeat split.
Defined.

(** ** [uniq] with an iterator *)

Section uniq_with_iterator.
Local Open Scope list_scope.

Lemma mapSet_keys {V} k (v : V) m :
  map fst (mapSet k v m)
  = map fst m ++ (if existsb (String.eqb k) (map fst m) then [] else [k]).
Proof.
  induction m as [|[k' v'] r IH]; [reflexivity|]. simpl.
  rewrite (String.eqb_sym k k').
  destruct (k' =? k)%string; simpl; [|rewrite IH; reflexivity].
  rewrite app_nil_r. reflexivity.
Qed.

Lemma mapSet_entries {V} k (v : V) m k' v' :
  List.NoDup (map fst m) ->
  In (k', v') (mapSet k v m)
  <-> (k' = k /\ v' = v) \/ (k' <> k /\ In (k', v') m).
Proof.
  induction m as [|[k0 v0] r IH]; intros Hnd; simpl.
  - split.
    + intros [E|[]]. injection E as <- <-. left; split; reflexivity.
    + intros [[-> ->]|[_ []]]. left; reflexivity.
  - inversion Hnd as [|? ? Hk0 Hr]; subst.
    destruct (String.eqb_spec k0 k) as [->|Hne]; simpl.
    + split.
      * intros [E|Hin]; [injection E as <- <-; left; split; reflexivity|].
        right. split; [|right; exact Hin].
        intros ->. apply Hk0. apply (in_map fst) in Hin. exact Hin.
      * intros [[-> ->]|[Hk [E|Hin]]]; [left; reflexivity| |right; exact Hin].
        injection E as -> _. contradiction.
    + rewrite (IH Hr). split.
      * intros [E|[H|[Hk Hin]]]; [|left; exact H|right; split; [exact Hk|]].
        -- injection E as <- <-. right. split; [exact Hne|left; reflexivity].
        -- right; exact Hin.
      * intros [H|[Hk [E|Hin]]]; [right; left; exact H|left; exact E|].
        right; right; split; assumption.
Qed.

Lemma uniqBy_entries {A} (iterator : A -> string) (array : list A) :
  let m := fold_left (fun m x => mapSet (iterator x) x m) array [] in
  map fst m = uniq (map iterator array)
  /\ (forall k x, In (k, x) m <->
        iterator x = k
        /\ exists before after,
             array = before ++ x :: after
             /\ forall y, In y after -> iterator y <> k).
Proof.
  induction array as [|x l IH] using rev_ind; cbv zeta.
  - split; [reflexivity|]. intros k x. split; [intros []|].
    intros (_ & before & after & E & _). destruct before; discriminate E.
  - cbv zeta in IH. destruct IH as [IHk IHe].
    rewrite fold_left_app. cbn [fold_left].
    set (m := fold_left (fun m x => mapSet (iterator x) x m) l []) in *.
    assert (Hnd : List.NoDup (map fst m)).
    { rewrite IHk. apply (uniqFrom_spec (map iterator l) []). }
    split.
    + rewrite mapSet_keys, IHk, map_app. cbn [map]. unfold uniq.
      rewrite uniqFrom_snoc. cbn [existsb orb]. f_equal.
      destruct (existsb (String.eqb (iterator x)) (map iterator l)) eqn:E;
        destruct (existsb (String.eqb (iterator x))
                    (uniqFrom [] (map iterator l))) eqn:E';
        try reflexivity; exfalso.
      * apply existsb_eqb_In in E.
        assert (In (iterator x) (uniqFrom [] (map iterator l)))
          by (apply (uniqFrom_spec (map iterator l) []); split; [exact E|];
              intros []).
        apply existsb_eqb_In in H. congruence.
      * apply existsb_eqb_In in E'.
        apply (uniqFrom_spec (map iterator l) []) in E' as [E' _].
        apply existsb_eqb_In in E'. congruence.
    + intros k y. rewrite (mapSet_entries _ _ _ _ _ Hnd). split.
      * intros [[-> ->]|[Hk Hin]].
        -- split; [reflexivity|]. exists l, []. split; [reflexivity|].
           intros ? [].
        -- apply IHe in Hin as (Hy & before & after & -> & Hafter).
           split; [exact Hy|]. exists before, (after ++ [x]).
           split; [rewrite <- app_assoc; reflexivity|].
           intros z Hz. apply in_app_or in Hz as [Hz|[<-|[]]];
             [apply Hafter; exact Hz|].
           intros E. apply Hk. symmetry. exact E.
      * intros (Hy & before & after & E & Hafter).
        destruct after as [|a after' _] using rev_ind.
        -- apply app_inj_tail in E as [_ ->]. left. split; [|reflexivity].
           symmetry. exact Hy.
        -- change (before ++ y :: after' ++ [a])
             with (before ++ (y :: after') ++ [a]) in E.
           rewrite app_assoc in E. apply app_inj_tail in E as [-> ->].
           right. split.
           ++ intros ->. apply (Hafter a); [|reflexivity].
              apply in_or_app. right. left. reflexivity.
           ++ apply IHe. split; [exact Hy|]. exists before, after'.
              split; [reflexivity|]. intros z Hz. apply Hafter.
              apply in_or_app. left. exact Hz.
Qed.

(** [uniq(array, iterator)] keeps one element for each key the iterator
    returns: the keys of the result are those of the array in the order of
    their first occurrence, and an element is kept exactly when no later
    element of the array has its key. *)
Theorem uniqBy_keeps_last_of_each_key {A} (iterator : A -> string)
    (array : list A) :
  map iterator (uniqBy iterator array) = uniq (map iterator array)
  /\ (forall x, In x (uniqBy iterator array) <->
        exists before after,
          array = before ++ x :: after
          /\ forall y, In y after -> iterator y <> iterator x).
Proof.
  destruct (uniqBy_entries iterator array) as [Hk He]. unfold uniqBy.
  set (m := fold_left (fun m x => mapSet (iterator x) x m) array []) in *.
  split.
  - rewrite <- Hk, map_map. apply map_ext_in. intros [k x] Hin.
    apply He in Hin as [Hx _]. exact Hx.
  - intros x. rewrite in_map_iff. split.
    + intros ([k y] & <- & Hin). apply He in Hin as [<- H]. exact H.
    + intros H. exists (iterator x, x). split; [reflexivity|].
      apply He. split; [reflexivity|exact H].
Qed.
End uniq_with_iterator.

(** ** [areThingsEqual] *)

Lemma noRepeat_NoDup l : noRepeat l = true -> List.NoDup l.
Proof.
  induction l as [|x r IH]; intros H; [constructor|]. simpl in H.
  apply andb_prop in H as [Hx Hr]. constructor; [|apply IH; exact Hr].
  intros Hin. apply existsb_eqb_In in Hin. rewrite Hin in Hx. discriminate Hx.
Qed.

Lemma areThingsEqual_loop (rec : value -> value -> result bool) a b bKeys
    (E : string -> bool) ks :
  (forall el, In el ks -> rec (getProp a el) (getProp b el) = Ok (E el)) ->
  (fix loop (ks : list string) : result bool :=
     match ks with
     | [] => Ok true
     | el :: ks' =>
         if negb (existsb (String.eqb el) bKeys) then Ok false
         else eq ← rec (getProp a el) (getProp b el);
              if eq : bool then loop ks' else Ok false
     end) ks
  = Ok (forallb (fun el => existsb (String.eqb el) bKeys && E el) ks).
Proof.
  intros H. induction ks as [|el ks IH]; [reflexivity|].
  cbn [forallb]. destruct (existsb (String.eqb el) bKeys); cbn [negb andb];
    [|reflexivity].
  rewrite (H el (or_introl eq_refl)). cbn [mbind result_bind].
  destruct (E el); [|reflexivity].
  apply IH. intros x Hx. apply H. right. exact Hx.
Qed.

Lemma same_keys_either_way (ka kb : list string) (E : string -> bool) :
  List.NoDup ka -> List.NoDup kb -> length ka = length kb ->
  forallb (fun el => existsb (String.eqb el) kb && E el) ka
  = forallb (fun el => existsb (String.eqb el) ka && E el) kb.
Proof.
  assert (Hdir : forall ka kb : list string,
    List.NoDup ka -> length ka = length kb ->
    forallb (fun el => existsb (String.eqb el) kb && E el) ka = true ->
    forallb (fun el => existsb (String.eqb el) ka && E el) kb = true).
  { clear. intros ka kb Hnd Hlen H. rewrite forallb_forall in H.
    apply forallb_forall. intros el Hel.
    assert (Hincl : incl kb ka).
    { apply NoDup_length_incl; [exact Hnd|lia|].
      intros x Hx. apply H in Hx. apply andb_prop in Hx as [Hx _].
      apply existsb_eqb_In. exact Hx. }
    pose proof (Hincl el Hel) as Ha. apply andb_true_intro. split.
    - apply existsb_eqb_In. exact Ha.
    - apply H in Ha. apply andb_prop in Ha as [_ Ha]. exact Ha. }
  intros Ha Hb Hlen.
  destruct (forallb (fun el => existsb (String.eqb el) kb && E el) ka) eqn:E1;
    destruct (forallb (fun el => existsb (String.eqb el) ka && E el) kb) eqn:E2;
    try reflexivity.
  - rewrite (Hdir ka kb Ha Hlen E1) in E2. discriminate E2.
  - rewrite (Hdir kb ka Hb (eq_sym Hlen) E2) in E1. discriminate E1.
Qed.

Lemma orderable_getProp v k :
  orderable v = true -> orderable (getProp v k) = true.
Proof.
  intros H. destruct v; try reflexivity.
  - cbn [getProp]. destruct (k =? "length")%string; [reflexivity|].
    destruct (indexOfKey k) as [i|]; [|reflexivity].
    destruct (String.get i s); reflexivity.
  - cbn [getProp]. destruct (k =? "length")%string; [reflexivity|].
    destruct (indexOfKey k) as [i|]; [|reflexivity].
    destruct (nth_in_or_default i l VUndefined) as [Hin| ->]; [|reflexivity].
    simpl in H. rewrite forallb_forall in H. apply H. exact Hin.
  - apply orderable_getProp_obj. exact H.
Qed.

Lemma distinctKeys_getProp v k :
  distinctKeys v = true -> distinctKeys (getProp v k) = true.
Proof.
  intros H. destruct v; try reflexivity.
  - cbn [getProp]. destruct (k =? "length")%string; [reflexivity|].
    destruct (indexOfKey k) as [i|]; [|reflexivity].
    destruct (String.get i s); reflexivity.
  - cbn [getProp]. destruct (k =? "length")%string; [reflexivity|].
    destruct (indexOfKey k) as [i|]; [|reflexivity].
    destruct (nth_in_or_default i l VUndefined) as [Hin| ->]; [|reflexivity].
    simpl in H. rewrite forallb_forall in H. apply H. exact Hin.
  - simpl in H. apply andb_prop in H as [_ H]. cbn [getProp].
    induction kvs as [|[k' v] r IH]; [reflexivity|]. simpl in *.
    apply andb_prop in H as [Hv Hr].
    destruct (k' =? k)%string; [exact Hv|apply IH; exact Hr].
Qed.

Lemma areThingsEqual_fuel_sym n : forall m a b,
  orderable a = true -> orderable b = true ->
  distinctKeys a = true -> distinctKeys b = true ->
  (depth a < n)%nat -> (depth b < m)%nat ->
  exists r, areThingsEqual_fuel n a b = Ok r
            /\ areThingsEqual_fuel m b a = Ok r.
Proof.
  induction n as [|n IH]; intros m a b Hoa Hob Hda Hdb Hn Hm; [lia|].
  destruct m as [|m]; [lia|].
  cbn [areThingsEqual_fuel]. unfold areThingsEqual_body.
  rewrite (orderable_isMongoId a Hoa), (orderable_isMongoId b Hob).
  cbn [mbind result_bind].
  set (E := fun el => match areThingsEqual_fuel n (getProp a el) (getProp b el)
                      with Ok r => r | _ => false end).
  assert (Hrec : (0 < depth a)%nat -> (0 < depth b)%nat ->
            forall el,
            areThingsEqual_fuel n (getProp a el) (getProp b el) = Ok (E el)
            /\ areThingsEqual_fuel m (getProp b el) (getProp a el) = Ok (E el)).
  { intros Ha Hb el.
    destruct (IH m (getProp a el) (getProp b el)) as (r & H1 & H2);
      try (apply orderable_getProp; assumption);
      try (apply distinctKeys_getProp; assumption).
    - pose proof (depth_getProp a el). lia.
    - pose proof (depth_getProp b el). lia.
    - unfold E. rewrite H1. split; [reflexivity|exact H2]. }
  destruct a as [| |x|x|x|x|la|ka], b as [| |y|y|y|y|lb|kb];
    try discriminate Hoa; try discriminate Hob;
    try (eexists; split; reflexivity).
  - exists (Bool.eqb x y). split; [reflexivity|].
    cbn. destruct x, y; reflexivity.
  - exists (x =? y)%Z. split; [reflexivity|]. cbn. rewrite Z.eqb_sym.
    reflexivity.
  - exists (x =? y)%string. split; [reflexivity|]. cbn.
    rewrite String.eqb_sym. reflexivity.
  - exists (x =? y)%Z. split; [reflexivity|]. cbn. rewrite Z.eqb_sym.
    reflexivity.
  - cbn [isNullOrSBN isDate isArray isUndefined orb andb negb].
    cbv zeta. cbn [objectKeys]. rewrite !length_map, !length_seq.
    rewrite (Nat.eqb_sym (length lb) (length la)).
    destruct (Nat.eqb_spec (length la) (length lb)) as [Hlen|Hlen];
      cbn [negb]; [|eexists; split; reflexivity].
    rewrite (areThingsEqual_loop _ (VArr la) (VArr lb) _ E)
      by (intros el _; apply Hrec; simpl; lia).
    rewrite (areThingsEqual_loop _ (VArr lb) (VArr la) _ E)
      by (intros el _; apply Hrec; simpl; lia).
    rewrite Hlen. eexists; split; reflexivity.
  - cbn [isNullOrSBN isDate isArray isUndefined orb andb negb].
    cbv zeta. cbn [objectKeys]. rewrite !length_map.
    rewrite (Nat.eqb_sym (length kb) (length ka)).
    destruct (Nat.eqb_spec (length ka) (length kb)) as [Hlen|Hlen];
      cbn [negb]; [|eexists; split; reflexivity].
    rewrite (areThingsEqual_loop _ (VObj ka) (VObj kb) _ E)
      by (intros el _; apply Hrec; simpl; lia).
    rewrite (areThingsEqual_loop _ (VObj kb) (VObj ka) _ E)
      by (intros el _; apply Hrec; simpl; lia).
    simpl in Hda, Hdb. apply andb_prop in Hda as [Hda _].
    apply andb_prop in Hdb as [Hdb _].
    rewrite (same_keys_either_way (map fst ka) (map fst kb) E)
      by (try apply noRepeat_NoDup; try assumption; rewrite !length_map;
          exact Hlen).
    eexists; split; reflexivity.
Qed.

(** [areThingsEqual] does not depend on the order of its operands: on
    values that hold no [null] and no object with a [constructor] property
    of its own (so that [isMongoId] answers [false] throughout),
    [areThingsEqual(a, b)] and [areThingsEqual(b, a)] return the same
    boolean. No object holds a property name twice. *)
Theorem areThingsEqual_symmetric (a b : value) :
  orderable a = true -> orderable b = true ->
  distinctKeys a = true -> distinctKeys b = true ->
  exists r, areThingsEqual a b = Ok r /\ areThingsEqual b a = Ok r.
Proof.
  intros Hoa Hob Hda Hdb. unfold areThingsEqual.
  apply areThingsEqual_fuel_sym; try assumption; lia.
Qed.

Lemma areThingsEqual_symmetric_witness :
  let a := VObj [("x", VNum 1); ("y", VArr [VStr "s"; VUndefined])] in
  let b := VObj [("y", VArr [VStr "s"; VUndefined]); ("x", VNum 1)] in
  exists r, areThingsEqual a b = Ok r /\ areThingsEqual b a = Ok r.
Proof.
  intros a b. apply (areThingsEqual_symmetric a b); reflexivity.
Defined.

Lemma indexOfKey_keyOfIndex i : indexOfKey (keyOfIndex i) = Some i.
Proof.
  unfold indexOfKey, keyOfIndex.
  rewrite DecimalString.NilZero.usu.
  - cbv zeta. rewrite DecimalNat.Unsigned.of_to, String.eqb_refl. reflexivity.
  - intros H. pose proof (DecimalNat.Unsigned.of_to i) as E. rewrite H in E.
    simpl in E. subst i. discriminate H.
Qed.

Lemma getProp_array_index l i :
  getProp (VArr l) (keyOfIndex i) = nth i l VUndefined.
Proof.
  cbn [getProp]. rewrite indexOfKey_keyOfIndex.
  destruct (String.eqb_spec (keyOfIndex i) "length") as [E|_]; [|reflexivity].
  pose proof (indexOfKey_keyOfIndex i) as H. rewrite E in H. discriminate H.
Qed.

Lemma forallb_ext_in {A} (f g : A -> bool) l :
  (forall x, In x l -> f x = g x) -> forallb f l = forallb g l.
Proof.
  induction l as [|x r IH]; intros H; [reflexivity|]. simpl.
  rewrite (H x (or_introl eq_refl)), IH; [reflexivity|].
  intros y Hy. apply H. right. exact Hy.
Qed.

Lemma forallb_by_index {A} (P : A -> bool) d l : forall s,
  forallb (fun i => P (nth (i - s) l d)) (seq s (length l)) = forallb P l.
Proof.
  induction l as [|x r IH]; intros s; [reflexivity|].
  cbn [length seq forallb]. rewrite Nat.sub_diag. cbn [nth]. f_equal.
  rewrite <- (IH (S s)). apply forallb_ext_in. intros i Hi.
  apply in_seq in Hi. replace (i - s)%nat with (S (i - S s)) by lia.
  reflexivity.
Qed.

Lemma forallb_mapped {A B} (f : A -> B) (P : B -> bool) l :
  forallb P (map f l) = forallb (fun x => P (f x)) l.
Proof.
  induction l as [|x r IH]; [reflexivity|]. simpl. rewrite IH. reflexivity.
Qed.

Lemma forallb_array_keys (P : value -> bool) l :
  forallb (fun el => P (getProp (VArr l) el)) (objectKeys (VArr l))
  = forallb P l.
Proof.
  cbn [objectKeys]. rewrite forallb_mapped.
  rewrite <- (forallb_by_index P VUndefined l 0). apply forallb_ext_in.
  intros i _. rewrite getProp_array_index, Nat.sub_0_r. reflexivity.
Qed.

Lemma forallb_object_keys (P : value -> bool) kvs :
  noRepeat (map fst kvs) = true ->
  forallb (fun el => P (getProp (VObj kvs) el)) (objectKeys (VObj kvs))
  = forallb (fun kv => P (snd kv)) kvs.
Proof.
  cbn [objectKeys getProp].
  induction kvs as [|[k v] r IH]; intros H; [reflexivity|].
  simpl in H. apply andb_prop in H as [Hk Hr].
  cbn [map fst forallb assoc snd]. rewrite String.eqb_refl.
  cbn [default from_option id]. f_equal.
  rewrite <- (IH Hr). apply forallb_ext_in. intros el Hel.
  destruct (String.eqb_spec k el) as [->|_]; [|reflexivity].
  apply existsb_eqb_In in Hel. rewrite Hel in Hk. discriminate Hk.
Qed.

Lemma areThingsEqual_fuel_self n : forall a,
  orderable a = true -> distinctKeys a = true -> (depth a < n)%nat ->
  areThingsEqual_fuel n a a = Ok (noUndefined a).
Proof.
  induction n as [|n IH]; intros a Ho Hd Hn; [lia|].
  cbn [areThingsEqual_fuel]. unfold areThingsEqual_body.
  rewrite (orderable_isMongoId a Ho). cbn [mbind result_bind].
  assert (Hrec : (0 < depth a)%nat -> forall el,
            areThingsEqual_fuel n (getProp a el) (getProp a el)
            = Ok (noUndefined (getProp a el))).
  { intros Ha el. apply IH;
      [apply orderable_getProp; exact Ho
      |apply distinctKeys_getProp; exact Hd|].
    pose proof (depth_getProp a el). lia. }
  assert (Hkeys : forall ks : list string,
            forallb (fun el => existsb (String.eqb el) ks
                               && noUndefined (getProp a el)) ks
            = forallb (fun el => noUndefined (getProp a el)) ks).
  { intros ks. apply forallb_ext_in. intros el Hel.
    apply existsb_eqb_In in Hel. rewrite Hel. reflexivity. }
  destruct a as [| |x|x|x|x|l|kvs]; try discriminate Ho; try reflexivity.
  - cbn. rewrite Bool.eqb_reflx. reflexivity.
  - cbn. rewrite Z.eqb_refl. reflexivity.
  - cbn. rewrite String.eqb_refl. reflexivity.
  - cbn. rewrite Z.eqb_refl. reflexivity.
  - cbn [isNullOrSBN isDate isArray isUndefined orb andb negb]. cbv zeta.
    rewrite Nat.eqb_refl. cbn [negb].
    rewrite (areThingsEqual_loop _ (VArr l) (VArr l) _
               (fun el => noUndefined (getProp (VArr l) el)))
      by (intros el _; apply Hrec; simpl; lia).
    rewrite Hkeys, forallb_array_keys. reflexivity.
  - cbn [isNullOrSBN isDate isArray isUndefined orb andb negb]. cbv zeta.
    rewrite Nat.eqb_refl. cbn [negb].
    rewrite (areThingsEqual_loop _ (VObj kvs) (VObj kvs) _
               (fun el => noUndefined (getProp (VObj kvs) el)))
      by (intros el _; apply Hrec; simpl; lia).
    simpl in Hd. apply andb_prop in Hd as [Hd _].
    rewrite Hkeys, (forallb_object_keys noUndefined kvs Hd). reflexivity.
Qed.

(** A value whose numbers are integers (no [NaN]) and whose dates are
    valid is deep-equal to itself exactly when it holds no [undefined]:
    on such a value without [null] and without an object that has a
    [constructor] property of its own, [areThingsEqual(a, a)] returns
    whether [a] is free of [undefined] at every depth. No object holds a
    property name twice. *)
Theorem areThingsEqual_self (a : value) :
  orderable a = true -> distinctKeys a = true ->
  areThingsEqual a a = Ok (noUndefined a).
Proof.
  intros Ho Hd. unfold areThingsEqual.
  apply areThingsEqual_fuel_self; [exact Ho|exact Hd|lia].
Qed.

Lemma areThingsEqual_self_witness :
  areThingsEqual (VObj [("x", VNum 1); ("y", VArr [VStr "s"; VDate 5])])
    (VObj [("x", VNum 1); ("y", VArr [VStr "s"; VDate 5])]) = Ok true
  /\ areThingsEqual (VObj [("x", VArr [VUndefined])])
       (VObj [("x", VArr [VUndefined])]) = Ok false.
Proof.
  split.
  - apply (areThingsEqual_self
             (VObj [("x", VNum 1); ("y", VArr [VStr "s"; VDate 5])]));
      reflexivity.
  - apply (areThingsEqual_self (VObj [("x", VArr [VUndefined])]));
      reflexivity.
Defined.

(** ** [$pull] *)

Lemma filter_snoc {A} (f : A -> bool) l x :
  List.filter f (l ++ [x])%list
  = (List.filter f l ++ (if f x then [x] else []))%list.
Proof.
  induction l as [|y r IH]; [reflexivity|]. simpl.
  rewrite IH. destruct (f y); reflexivity.
Qed.

Lemma firstn_succ {A} (d : A) i l :
  (i < length l)%nat -> firstn (S i) l = (firstn i l ++ [nth i l d])%list.
Proof.
  revert l. induction i as [|i IH]; intros [|x r] H; simpl in *; try lia;
    [reflexivity|].
  rewrite <- IH by lia. reflexivity.
Qed.

Lemma removeAt_middle {A} (a : list A) x b :
  removeAt (length a) (a ++ x :: b)%list = (a ++ b)%list.
Proof.
  unfold removeAt.
  rewrite firstn_app, firstn_all, Nat.sub_diag, firstn_O, app_nil_r.
  rewrite skipn_app, skipn_all2 by lia.
  replace (S (length a) - length a)%nat with 1%nat by lia. reflexivity.
Qed.

Lemma nth_middle_of {A} (d : A) (a : list A) x b :
  nth (length a) (a ++ x :: b)%list d = x.
Proof. rewrite app_nth2, Nat.sub_diag by lia. reflexivity. Qed.

(** The loop of [$pull], from index [i - 1] down to [0], on an array whose
    first [i] elements are those of [es]. *)
Lemma pull_loop (fuel : nat) (la : loc) (value : val) (p : val -> bool)
    (es : list val) (h : heap) :
  (forall now e, In e es ->
     matchH fuel e value (<[la := HArr now]> h)
     = (Ok (p e), <[la := HArr now]> h)) ->
  forall i rest, (i <= length es)%nat ->
  forEachH (fun i =>
              el ← elementNow la i;
              m ← matchH fuel el value;
              if m : bool then
                o ← hread la;
                match o with
                | HArr now => hwrite la (HArr (removeAt i now))
                | _ => mret tt
                end
              else mret tt) (rev (seq 0 i))
    (<[la := HArr (firstn i es ++ rest)%list]> h)
  = (Ok tt,
     <[la := HArr (List.filter (fun e => negb (p e)) (firstn i es)
                   ++ rest)%list]> h).
Proof.
  intros Hmatch. induction i as [|i IH]; intros rest Hi; [reflexivity|].
  rewrite seq_S, rev_app_distr. cbn [rev app forEachH Nat.add].
  rewrite (firstn_succ LUndefined i es) by lia.
  set (x := nth i es LUndefined).
  assert (Hx : In x es) by (apply nth_In; lia).
  assert (Hlen : length (firstn i es) = i) by (apply firstn_length_le; lia).
  rewrite <- app_assoc. cbn [app].
  rewrite bind_assoc_run.
  rewrite (bind_run (elementNow la i) _ _ x
             (<[la := HArr (firstn i es ++ x :: rest)%list]> h)).
  2:{ unfold elementNow.
      rewrite (bind_run (hread la) _ _ (HArr (firstn i es ++ x :: rest)%list)
                 (<[la := HArr (firstn i es ++ x :: rest)%list]> h))
        by (unfold hread; rewrite lookup_insert_eq; reflexivity).
      rewrite <- Hlen at 1. rewrite nth_middle_of. reflexivity. }
  rewrite bind_assoc_run.
  rewrite (bind_run (matchH fuel x value) _ _ (p x)
             (<[la := HArr (firstn i es ++ x :: rest)%list]> h))
    by (apply Hmatch; exact Hx).
  rewrite filter_snoc. destruct (p x); cbn [negb].
  - rewrite bind_assoc_run.
    rewrite (bind_run (hread la) _ _ (HArr (firstn i es ++ x :: rest)%list)
               (<[la := HArr (firstn i es ++ x :: rest)%list]> h))
      by (unfold hread; rewrite lookup_insert_eq; reflexivity).
    rewrite (bind_run (hwrite la _) _ _ tt
               (<[la := HArr (firstn i es ++ rest)%list]> h)).
    2:{ unfold hwrite. rewrite insert_insert_eq.
        rewrite <- Hlen at 1. rewrite removeAt_middle. reflexivity. }
    rewrite app_nil_r. apply IH. lia.
  - rewrite (bind_run (mret tt) _ _ tt
               (<[la := HArr (firstn i es ++ x :: rest)%list]> h))
      by reflexivity.
    rewrite <- app_assoc. apply IH. lia.
Qed.

(** [$pull] removes from the array exactly the elements that match, and
    keeps the others in their order: on an object whose property [field]
    is the array [es], when [match(e, value)] returns [p e] for each
    element [e], whatever the array holds by then,
    [lastStepModifierFunctions.$pull(obj, field, value)] leaves that same
    array with the elements for which [p] is false. *)
Theorem pull_removes_the_matching_elements
    (fuel : nat) (lo la : loc) (field : string) (value : val)
    (ps : list (string * val)) (es : list val) (p : val -> bool) (h : heap) :
  h !! lo = Some (HObj ps) ->
  assoc field ps = Some (LRef la) ->
  h !! la = Some (HArr es) ->
  (forall now e, In e es ->
     matchH fuel e value (<[la := HArr now]> h)
     = (Ok (p e), <[la := HArr now]> h)) ->
  lastStep_pullH fuel (LRef lo) field value h
  = (Ok tt, <[la := HArr (List.filter (fun e => negb (p e)) es)]> h).
Proof.
  intros Hlo Hfield Hla Hmatch. unfold lastStep_pullH.
  rewrite (bind_run (getPropH (LRef lo) field) _ _ (LRef la) h).
  2:{ rewrite (getPropH_ref lo field h (HObj ps) Hlo). cbn [objProp].
      rewrite Hfield. reflexivity. }
  rewrite (bind_run (asArrayH (LRef la)) _ _ (Some (la, es)) h).
  2:{ unfold asArrayH.
      rewrite (bind_run (hread la) _ _ (HArr es) h)
        by (unfold hread; rewrite Hla; reflexivity).
      reflexivity. }
  pose proof (pull_loop fuel la value p es h Hmatch (length es) []
                (Nat.le_refl _)) as H.
  rewrite firstn_all, !app_nil_r in H.
  rewrite (insert_id h la (HArr es) Hla) in H. exact H.
Qed.

Lemma pull_removes_the_matching_elements_witness :
  let h : heap :=
    <[1%positive := HObj [("_id", LStr "a"); ("tags", LRef 2%positive)]]>
      (<[2%positive := HArr [LNum 1; LNum 2; LNum 1; LStr "1"]]> ∅) in
  lastStep_pullH 3 (LRef 1%positive) "tags" (LNum 1) h
  = (Ok tt, <[2%positive := HArr [LNum 2; LStr "1"]]> h).
Proof.
  intros h.
  apply (pull_removes_the_matching_elements 3 1%positive 2%positive "tags"
           (LNum 1) [("_id", LStr "a"); ("tags", LRef 2%positive)]
           [LNum 1; LNum 2; LNum 1; LStr "1"]
           (fun e => match e with LNum 1 => true | _ => false end) h);
    try reflexivity.
  intros now e [<-|[<-|[<-|[<-|[]]]]]; reflexivity.
Defined.

(** ** [$push] with [$each], and [$pushAll] *)

(** The loop of [$push] over the elements of [$each], from index [k] on:
    the array pushed from is at [le], the array pushed to at [la]. *)
Lemma push_loop (lo la le : loc) (field : string)
    (ps : list (string * val)) (vs : list val) (h : heap) :
  h !! lo = Some (HObj ps) -> assoc field ps = Some (LRef la) ->
  h !! le = Some (HArr vs) -> la <> le -> lo <> la ->
  forall m k acc, (k + m <= length vs)%nat ->
  forEachH (fun i =>
              v ← elementNow le i;
              target ← getPropH (LRef lo) field;
              pushH target v) (seq k m) (<[la := HArr acc]> h)
  = (Ok tt, <[la := HArr (acc ++ firstn m (skipn k vs))%list]> h).
Proof.
  intros Hlo Hfield Hle Hne Hne'.
  induction m as [|m IH]; intros k acc Hk.
  - cbn [seq forEachH firstn]. rewrite app_nil_r. reflexivity.
  - cbn [seq forEachH].
    rewrite bind_assoc_run.
    rewrite (bind_run (elementNow le k) _ _ (nth k vs LUndefined)
               (<[la := HArr acc]> h)).
    2:{ unfold elementNow.
        rewrite (bind_run (hread le) _ _ (HArr vs) (<[la := HArr acc]> h))
          by (unfold hread; rewrite lookup_insert_ne by exact Hne;
              rewrite Hle; reflexivity).
        reflexivity. }
    rewrite bind_assoc_run.
    rewrite (bind_run (getPropH (LRef lo) field) _ _ (LRef la)
               (<[la := HArr acc]> h)).
    2:{ rewrite (getPropH_ref lo field _ (HObj ps))
          by (rewrite lookup_insert_ne by (intros E; apply Hne'; symmetry;
                                           exact E); exact Hlo).
        cbn [objProp]. rewrite Hfield. reflexivity. }
    rewrite (bind_run (pushH (LRef la) (nth k vs LUndefined)) _ _ tt
               (<[la := HArr (acc ++ [nth k vs LUndefined])%list]> h)).
    2:{ unfold pushH, asArrayH.
        rewrite bind_assoc_run.
        rewrite (bind_run (hread la) _ _ (HArr acc) (<[la := HArr acc]> h))
          by (unfold hread; rewrite lookup_insert_eq; reflexivity).
        rewrite (bind_run (mret (Some (la, acc))) _ _ (Some (la, acc))
                   (<[la := HArr acc]> h)) by reflexivity.
        unfold hwrite. rewrite insert_insert_eq. reflexivity. }
    rewrite (IH (S k) (acc ++ [nth k vs LUndefined])%list) by lia.
    rewrite <- app_assoc. cbn [app].
    assert (E : skipn k vs = nth k vs LUndefined :: skipn (S k) vs).
    { clear -Hk. revert k Hk. induction vs as [|x r IHr]; intros k Hk;
        simpl in Hk; [lia|].
      destruct k as [|k]; [reflexivity|]. cbn [skipn nth].
      apply IHr. lia. }
    rewrite E. reflexivity.
Qed.

Lemma hread_run (h : heap) l o : h !! l = Some o -> hread l h = (Ok o, h).
Proof. intros H. unfold hread. rewrite H. reflexivity. Qed.

(** [$push] with [{$each: vs}] appends the elements of [vs] to the array in
    their order, in place, and [$pushAll] does the same through a new
    object [{$each: values}]. The property [field] of the object holds an
    array, and the array pushed from is another one. *)
Theorem push_each_appends_in_order
    (lo la lv le : loc) (field : string)
    (ps : list (string * val)) (es vs : list val) (h : heap) :
  h !! lo = Some (HObj ps) -> assoc field ps = Some (LRef la) ->
  h !! la = Some (HArr es) -> h !! le = Some (HArr vs) -> la <> le ->
  (h !! lv = Some (HObj [("$each", LRef le)]) ->
   lastStep_pushH (LRef lo) field (LRef lv) h
   = (Ok tt, <[la := HArr (es ++ vs)%list]> h))
  /\ (exists lnew,
        h !! lnew = None
        /\ lastStep_pushAllH (LRef lo) field (LRef le) h
           = (Ok tt, <[la := HArr (es ++ vs)%list]>
                       (<[lnew := HObj [("$each", LRef le)]]> h))).
Proof.
  assert (Hpush : forall (h : heap) lv,
    h !! lo = Some (HObj ps) -> assoc field ps = Some (LRef la) ->
    h !! la = Some (HArr es) -> h !! le = Some (HArr vs) -> la <> le ->
    h !! lv = Some (HObj [("$each", LRef le)]) ->
    lastStep_pushH (LRef lo) field (LRef lv) h
    = (Ok tt, <[la := HArr (es ++ vs)%list]> h)).
  { clear h. intros h lv0 Hlo Hfield Hla Hle Hne Hlv.
    assert (Hne' : lo <> la) by (intros ->; rewrite Hlo in Hla; discriminate Hla).
    unfold lastStep_pushH.
    rewrite (bind_run (createArrayIfMissing (LRef lo) field) _ _ tt h).
    2:{ unfold createArrayIfMissing, hasOwnH. rewrite bind_assoc_run.
        rewrite (bind_run (hread lo) _ _ (HObj ps) h)
          by (apply hread_run; exact Hlo).
        rewrite (bind_run (mret (hasOwn ps field)) _ _ true h)
          by (unfold hasOwn; rewrite Hfield; reflexivity).
        reflexivity. }
    rewrite (bind_run (getPropH (LRef lo) field) _ _ (LRef la) h).
    2:{ rewrite (getPropH_ref lo field h (HObj ps) Hlo). cbn [objProp].
        rewrite Hfield. reflexivity. }
    rewrite (bind_run (asArrayH (LRef la)) _ _ (Some (la, es)) h).
    2:{ unfold asArrayH.
        rewrite (bind_run (hread la) _ _ (HArr es) h)
          by (apply hread_run; exact Hla).
        reflexivity. }
    cbn [isRef andb].
    assert (Hsl : getPropH (LRef lv0) "$slice" h = (Ok LUndefined, h))
      by (rewrite (getPropH_ref lv0 _ h _ Hlv); reflexivity).
    assert (Hea : getPropH (LRef lv0) "$each" h = (Ok (LRef le), h))
      by (rewrite (getPropH_ref lv0 _ h _ Hlv); reflexivity).
    rewrite (bind_run _ _ _ tt h).
    2:{ rewrite (bind_run _ _ _ _ _ Hsl), (bind_run _ _ _ _ _ Hea).
        reflexivity. }
    rewrite (bind_run _ _ _ _ _ Hea). cbn [truthyL].
    rewrite (bind_run (keysH (LRef lv0)) _ _ ["$each"] h).
    2:{ unfold keysH.
        rewrite (bind_run (hread lv0) _ _ _ h (hread_run h lv0 _ Hlv)).
        reflexivity. }
    rewrite (bind_run _ _ _ _ _ Hsl).
    cbn [length Nat.leb Nat.eqb orb andb].
    rewrite (bind_run (asArrayH (LRef le)) _ _ (Some (le, vs)) h).
    2:{ unfold asArrayH.
        rewrite (bind_run (hread le) _ _ (HArr vs) h)
          by (apply hread_run; exact Hle).
        reflexivity. }
    pose proof (push_loop lo la le field ps vs h Hlo Hfield Hle Hne Hne'
                  (length vs) 0%nat es (Nat.le_refl _)) as Hloop.
    rewrite (insert_id h la (HArr es) Hla) in Hloop.
    cbn [skipn] in Hloop. rewrite firstn_all in Hloop.
    rewrite (bind_run _ _ _ _ _ Hloop). reflexivity. }
  intros Hlo Hfield Hla Hle Hne. split.
  - intros Hlv. apply Hpush; assumption.
  - destruct (halloc_fresh (HObj [("$each", LRef le)]) h)
      as (lnew & Halloc & Hnew & _).
    exists lnew. split; [exact Hnew|].
    assert (Hother : forall l o, h !! l = Some o ->
              <[lnew := HObj [("$each", LRef le)]]> h !! l = Some o).
    { intros l o Hl. rewrite lookup_insert_ne; [exact Hl|].
      intros <-. rewrite Hnew in Hl. discriminate Hl. }
    unfold lastStep_pushAllH.
    rewrite (bind_run (asArrayH (LRef le)) _ _ (Some (le, vs)) h).
    2:{ unfold asArrayH.
        rewrite (bind_run (hread le) _ _ (HArr vs) h)
          by (apply hread_run; exact Hle).
        reflexivity. }
    rewrite (bind_run _ _ _ _ _ Halloc).
    apply Hpush; try (apply Hother; assumption); try assumption.
    apply lookup_insert_eq.
Qed.

Lemma push_each_appends_in_order_witness :
  let h : heap :=
    <[1%positive := HObj [("_id", LStr "a"); ("tags", LRef 2%positive)]]>
      (<[2%positive := HArr [LStr "x"]]>
         (<[3%positive := HObj [("$each", LRef 4%positive)]]>
            (<[4%positive := HArr [LStr "y"; LStr "z"]]> ∅))) in
  lastStep_pushH (LRef 1%positive) "tags" (LRef 3%positive) h
  = (Ok tt, <[2%positive := HArr [LStr "x"; LStr "y"; LStr "z"]]> h).
Proof.
  intros h.
  apply (push_each_appends_in_order 1%positive 2%positive 3%positive
           4%positive "tags"
           [("_id", LStr "a"); ("tags", LRef 2%positive)]
           [LStr "x"] [LStr "y"; LStr "z"] h);
    try reflexivity. discriminate.
Defined.
